(** * A shallow embedding of [dlt/extract/pipe.py]

    The pipe engine of dlt: [ForkPipe], [Pipe], [PipeIterator] and
    [ManagedPipeIterator].  Python objects live in a store indexed by their
    address ([id(obj)]); methods are computations in a state-and-exception
    monad, so that a raised exception keeps the mutations done before it. *)

From Stdlib Require Import ZArith Lia String.
From stdpp Require Import base option list gmap strings.

Open Scope string_scope.
Open Scope list_scope.
Open Scope Z_scope.

(** ** Python runtime notions used by the module *)

Module Py.

(** Parameter kinds of [inspect.Parameter]. *)
Inductive ParamKind :=
| POSITIONAL_ONLY
| POSITIONAL_OR_KEYWORD
| VAR_POSITIONAL
| KEYWORD_ONLY
| VAR_KEYWORD.

Record Param := mkParam {
  p_name : string;
  p_kind : ParamKind;
  p_default : bool   (* does the parameter have a default value *)
}.

(** [inspect.Signature]: the ordered parameters. *)
Definition Signature := list Param.

Global Instance ParamKind_eq_dec : EqDecision ParamKind.
Proof. solve_decision. Defined.

(** The exceptions that the module raises or lets through: instances of
    [Exception], and the three of Python that are instances of
    [BaseException] only. *)
Inductive exn :=
| TypeError (msg : string)
| IndexError
| StopIteration
| AssertionError
| RecursionError
| NoSuchObject   (* an address without an object: never raised by Python *)
| CreatePipeException (pipe_name msg : string)
| InvalidStepFunctionArguments (pipe_name func_name : string) (sig : Signature) (msg : string)
| InvalidTransformerGeneratorFunction (pipe_name func_name : string) (sig : Signature) (code : Z)
| ParametrizedResourceUnbound (pipe_name func_name : string) (sig : Signature) (kind : string)
| PipeItemProcessingError (pipe_name msg : string)
| PipeNotBoundToData (pipe_name : string) (has_parent : bool)
| UserError (tag : Z)    (* any other instance of Exception raised by user code *)
| KeyboardInterrupt
| SystemExit
| GeneratorExit.

Definition is_TypeError (e : exn) : bool :=
  match e with TypeError _ => true | _ => false end.

Definition is_StopIteration (e : exn) : bool :=
  match e with StopIteration => true | _ => false end.

(** [isinstance(e, Exception)] *)
Definition is_Exception (e : exn) : bool :=
  match e with
  | KeyboardInterrupt | SystemExit | GeneratorExit => false
  | _ => true
  end.

(** [str(ty_ex)] *)
Definition str_exn (e : exn) : string :=
  match e with TypeError msg => msg | _ => "" end.

(** Outcome of a call: a value or a raised exception. *)
Inductive Res (A : Type) :=
| Ok (a : A)
| Raise (e : exn).
Arguments Ok {A} a.
Arguments Raise {A} e.

(** State and exception monad: a raise keeps the state reached so far. *)
Definition M (S A : Type) := S -> Res A * S.

Definition ret {S A} (a : A) : M S A := fun s => (Ok a, s).
Definition raise {S A} (e : exn) : M S A := fun s => (Raise e, s).
Definition bind {S A B} (m : M S A) (k : A -> M S B) : M S B :=
  fun s => match m s with
           | (Ok a, s') => k a s'
           | (Raise e, s') => (Raise e, s')
           end.
Definition get {S} : M S S := fun s => (Ok s, s).
Definition put {S} (s : S) : M S unit := fun _ => (Ok tt, s).
Definition modify {S} (f : S -> S) : M S unit := fun s => (Ok tt, f s).
Definition lift {S A} (r : Res A) : M S A := fun s => (r, s).
(** [try: m except: h] *)
Definition try_except {S A} (m : M S A) (h : exn -> M S A) : M S A :=
  fun s => match m s with
           | (Ok a, s') => (Ok a, s')
           | (Raise e, s') => h e s'
           end.

(** ** Lists indexed by Python integers *)

Section PyList.
Context {A : Type}.

(** A negative index counts from the end. *)
Definition norm_index (l : list A) (i : Z) : Z :=
  if i <? 0 then i + Z.of_nat (length l) else i.

Definition in_range (l : list A) (i : Z) : bool :=
  (0 <=? norm_index l i) && (norm_index l i <? Z.of_nat (length l)).

(** [l[i]] *)
Definition getitem (l : list A) (i : Z) : Res A :=
  if in_range l i then
    match l !! Z.to_nat (norm_index l i) with
    | Some x => Ok x
    | None => Raise IndexError
    end
  else Raise IndexError.

(** [l[i] = x] *)
Definition setitem (l : list A) (i : Z) (x : A) : Res (list A) :=
  if in_range l i then Ok (<[Z.to_nat (norm_index l i) := x]> l)
  else Raise IndexError.

(** [l.pop(i)] *)
Definition pop (l : list A) (i : Z) : Res (A * list A) :=
  if in_range l i then
    match l !! Z.to_nat (norm_index l i) with
    | Some x => Ok (x, delete (Z.to_nat (norm_index l i)) l)
    | None => Raise IndexError
    end
  else Raise IndexError.

(** Position at which [l.insert(i, x)] puts [x]: the index is clamped. *)
Definition insert_pos (l : list A) (i : Z) : nat :=
  if i <? 0 then Z.to_nat (Z.max 0 (i + Z.of_nat (length l)))
  else Z.to_nat (Z.min i (Z.of_nat (length l))).

(** [l.insert(i, x)] *)
Definition insert (l : list A) (i : Z) (x : A) : list A :=
  take (insert_pos l i) l ++ x :: drop (insert_pos l i) l.

End PyList.

(** ** [inspect.Signature.bind] for the two call shapes the module uses *)

Definition is_variadic (p : Param) : bool :=
  match p_kind p with VAR_POSITIONAL | VAR_KEYWORD => true | _ => false end.

(** [sig.bind()]: every parameter is defaulted or variadic. *)
Definition bind_noargs (sig : Signature) : option string :=
  if forallb (fun p => p_default p || is_variadic p) sig then None
  else Some "missing a required argument".

Definition has_var_keyword (sig : Signature) : bool :=
  existsb (fun p => bool_decide (p_kind p = VAR_KEYWORD)) sig.

(** Keyword phase of [sig.bind("item", meta="meta")] over the parameters
    left after the positional one; [seen] tells whether [meta] was bound. *)
Fixpoint bind_keywords (rest : Signature) (seen : bool) : option string + bool :=
  match rest with
  | [] => inr seen
  | p :: ps =>
      match p_kind p with
      | VAR_KEYWORD | VAR_POSITIONAL => bind_keywords ps seen
      | k =>
          if String.eqb (p_name p) "meta" then
            if bool_decide (k = POSITIONAL_ONLY)
            then inl (Some "'meta' parameter is positional only, but was passed as a keyword")
            else bind_keywords ps true
          else if p_default p then bind_keywords ps seen
          else inl (Some "missing a required argument")
      end
  end.

(** [sig.bind("item", meta="meta")]: [None] when the arguments bind,
    otherwise the message of the [TypeError]. *)
Definition bind_item_meta (sig : Signature) : option string :=
  match sig with
  | [] => Some "too many positional arguments"
  | p :: ps =>
      match p_kind p with
      | KEYWORD_ONLY | VAR_KEYWORD => Some "too many positional arguments"
      | k =>
          if bool_decide (k = POSITIONAL_OR_KEYWORD) && String.eqb (p_name p) "meta"
          then Some "multiple values for argument 'meta'"
          else
            match bind_keywords ps false with
            | inl msg => msg
            | inr true => None
            | inr false =>
                if has_var_keyword sig then None
                else Some "got an unexpected keyword argument 'meta'"
            end
      end
  end.

End Py.
Import Py.

Declare Scope py_scope.
Delimit Scope py_scope with py.
Notation "'let!' x ':=' m 'in' k" := (bind m (fun x => k))
  (at level 10, x pattern, m at level 100, k at level 200) : py_scope.
Notation "m ';;' k" := (bind m (fun _ => k))
  (at level 100, k at level 200, right associativity) : py_scope.
Open Scope py_scope.

(** ** Data model *)

(** [id(obj)] *)
Definition addr := nat.
Bind Scope nat_scope with addr.

(** The meta sidecar of an item; [None] is Python's [None]. *)
Definition Meta := option Z.

(** Data items and the other values that travel through a pipe. *)
#[warnings="-register-all"]
Inductive PyObj :=
| PyNone
| PyData (oid : addr) (v : Z)                 (* a plain data item *)
| PyIterator (items : list PyObj) (fin : option exn)
    (* an iterator: what [next] still yields, then [fin] or StopIteration *)
| PyCallable (fid : nat)                      (* deferred work *)
| PyAwaitable (fid : nat)
| DataItemWithMeta (meta : Meta) (data : PyObj)
| ResolvablePipeItem (item : PyObj) (step : Z) (pipe : addr) (meta : Meta).

(** A function object: identity, name, signature, the code it runs, and
    whether it is the wrapper that drops the [meta] keyword before running
    that code. *)
Record Callable := mkCallable {
  c_id : addr;
  c_name : string;
  c_params : Signature;
  c_code : nat;
  c_drops_meta : bool
}.

(** What a pipe holds as a step. *)
Inductive Step :=
| SIterable (oid : addr) (items : list PyObj)   (* a sequence, e.g. a list *)
| SIterator (oid : addr) (it : PyObj)           (* an iterator object *)
| SCallable (c : Callable)
| SForkPipe (ref : addr)                        (* a [ForkPipe] instance *)
| SOther (oid : addr).                          (* anything else *)

Record ForkPipe := mkForkPipe {
  _pipes : list (addr * Z);
  copy_on_fork : bool
}.

Record Pipe := mkPipe {
  name : string;
  _gen_idx : Z;
  _steps : list Step;
  _pipe_id : string * addr;
  parent : option addr
}.

(** The object store. *)
Record World := mkWorld {
  pipes : gmap addr Pipe;
  forks : gmap addr ForkPipe;
  next_id : addr
}.

Definition set_steps (l : list Step) (p : Pipe) : Pipe :=
  mkPipe (name p) (_gen_idx p) l (_pipe_id p) (parent p).
Definition set_gen_idx (i : Z) (p : Pipe) : Pipe :=
  mkPipe (name p) i (_steps p) (_pipe_id p) (parent p).
Definition set_parent (q : option addr) (p : Pipe) : Pipe :=
  mkPipe (name p) (_gen_idx p) (_steps p) (_pipe_id p) q.
Definition set_pipe_id (i : string * addr) (p : Pipe) : Pipe :=
  mkPipe (name p) (_gen_idx p) (_steps p) i (parent p).

Definition get_pipe (a : addr) : M World Pipe :=
  fun w => match pipes w !! a with
           | Some p => (Ok p, w)
           | None => (Raise NoSuchObject, w)
           end.
Definition update_pipe (a : addr) (f : Pipe -> Pipe) : M World unit :=
  modify (fun w => mkWorld (alter f a (pipes w)) (forks w) (next_id w)).
Definition get_fork (a : addr) : M World ForkPipe :=
  fun w => match forks w !! a with
           | Some f => (Ok f, w)
           | None => (Raise NoSuchObject, w)
           end.
Definition update_fork (a : addr) (f : ForkPipe -> ForkPipe) : M World unit :=
  modify (fun w => mkWorld (pipes w) (alter f a (forks w)) (next_id w)).
(** A fresh address. *)
Definition fresh : M World addr :=
  fun w => (Ok (next_id w), mkWorld (pipes w) (forks w) (S (next_id w))).
Definition new_pipe (p : addr -> Pipe) : M World addr :=
  fun w => (Ok (next_id w),
            mkWorld (<[next_id w := p (next_id w)]> (pipes w)) (forks w) (S (next_id w))).
Definition new_fork (f : ForkPipe) : M World addr :=
  fun w => (Ok (next_id w),
            mkWorld (pipes w) (<[next_id w := f]> (forks w)) (S (next_id w))).

(** The store in which the pipe at [a] is [p], resp. the fork at [a] is [f]. *)
Definition with_pipe (w : World) (a : addr) (p : Pipe) : World :=
  mkWorld (<[a := p]> (pipes w)) (forks w) (next_id w).
Definition with_fork (w : World) (a : addr) (f : ForkPipe) : World :=
  mkWorld (pipes w) (<[a := f]> (forks w)) (next_id w).

(** [for x in l: body(x)] *)
Fixpoint for_each {S A} (l : list A) (body : A -> M S unit) : M S unit :=
  match l with
  | [] => ret tt
  | x :: rest => body x ;; for_each rest body
  end.

(** [[f(x) for x in l]] *)
Fixpoint list_comp {S A B} (l : list A) (f : A -> M S B) : M S (list B) :=
  match l with
  | [] => ret []
  | x :: rest => let! y := f x in let! ys := list_comp rest f in ret (y :: ys)
  end.

(** ** Type tests on steps *)

Definition is_Iterator (s : Step) : bool :=
  match s with SIterator _ _ => true | _ => false end.
Definition is_Iterable (s : Step) : bool :=
  match s with SIterable _ _ | SIterator _ _ => true | _ => false end.
Definition callable (s : Step) : bool :=
  match s with SCallable _ | SForkPipe _ => true | _ => false end.
Definition is_ForkPipe (s : Step) : bool :=
  match s with SForkPipe _ => true | _ => false end.

(** [inspect.signature(step)]; a [ForkPipe] is called as [(item, meta)]. *)
Definition signature (s : Step) : Signature :=
  match s with
  | SCallable c => c_params c
  | SForkPipe _ => [mkParam "item" POSITIONAL_OR_KEYWORD false;
                    mkParam "meta" POSITIONAL_OR_KEYWORD false]
  | _ => []
  end.

Definition get_callable_name (s : Step) : string :=
  match s with
  | SCallable c => c_name c
  | SForkPipe _ => "ForkPipe"
  | _ => ""
  end.

(** ** ForkPipe *)

Module ForkPipeM.

(** [pipe == edge] for an element [edge] of [self._pipes]: a [Pipe] (which
    has no [__eq__]) is never equal to a [(pipe, step)] tuple. *)
Definition pipe_eq_edge (pipe : addr) (edge : addr * Z) : bool := false.

(** [add_pipe]: the test [pipe not in self._pipes] compares the pipe with the
    tuples of the list. *)
Definition add_pipe (self : addr) (pipe : addr) (step : Z) : M World unit :=
  let! f := get_fork self in
  if negb (existsb (pipe_eq_edge pipe) (_pipes f)) then
    update_fork self (fun f => mkForkPipe (_pipes f ++ [(pipe, step)]) (copy_on_fork f))
  else ret tt.

Definition has_pipe (self : addr) (pipe : addr) : M World bool :=
  let! f := get_fork self in
  ret (bool_decide (pipe ∈ (fst <$> _pipes f))).

(** [ForkPipe(pipe, step, copy_on_fork)] *)
Definition init (pipe : addr) (step : Z) (cof : bool) : M World addr :=
  let! self := new_fork (mkForkPipe [] cof) in
  add_pipe self pipe step ;;
  ret self.

(** [copy.copy(item)]: a data item gets a new identity and keeps its
    content; the other values have no identity of their own here. *)
Definition copy (new_id : addr) (o : PyObj) : PyObj :=
  match o with
  | PyData _ v => PyData new_id v
  | _ => o
  end.

(** The body of the loop of [__call__], from the edge numbered [i] on. *)
Fixpoint call_from (cof : bool) (i : nat) (edges : list (addr * Z))
    (item : PyObj) (meta : Meta) : M World (list PyObj) :=
  match edges with
  | [] => ret []
  | (pipe, step) :: rest =>
      let! _it :=
        if (i =? 0)%nat || negb cof then ret item
        else (let! a := fresh in ret (copy a item)) in
      let! more := call_from cof (S i) rest item meta in
      ret (ResolvablePipeItem _it step pipe meta :: more)
  end.

(** [__call__(item, meta)]: the generator, as the iterator of what it yields. *)
Definition call (self : addr) (item : PyObj) (meta : Meta) : M World PyObj :=
  let! f := get_fork self in
  let! l := call_from (copy_on_fork f) 0 (_pipes f) item meta in
  ret (PyIterator l None).

End ForkPipeM.

(** ** Pipe *)

Definition is_empty (p : Pipe) : bool := (length (_steps p) =? 0)%nat.
Definition has_parent (p : Pipe) : bool :=
  match parent p with Some _ => true | None => false end.
Definition gen (p : Pipe) : Res Step := getitem (_steps p) (_gen_idx p).
Definition tail (p : Pipe) : Res Step := getitem (_steps p) (-1).
(** [len(pipe)]; it also decides the truth value of a pipe. *)
Definition len (p : Pipe) : Z := Z.of_nat (length (_steps p)).

Definition _verify_head_step (p : Pipe) (step : Step) : Res unit :=
  if negb (is_Iterable step || is_Iterator step) && negb (callable step) then
    Raise (CreatePipeException (name p)
             "A head of a resource pipe must be Iterable, Iterator or a Callable")
  else Ok tt.

Definition _ensure_transform_step (p : Pipe) (step_no : Z) (step : Step) : Res unit :=
  if negb (callable step) then Raise AssertionError else
  let sig := signature step in
  match bind_item_meta sig with
  | None => Ok tt
  | Some ty_ex =>
      let callable_name := get_callable_name step in
      if step_no =? _gen_idx p then
        if (length sig =? 0)%nat then
          Raise (InvalidTransformerGeneratorFunction (name p) callable_name sig 1)
        else
          Raise (ParametrizedResourceUnbound (name p) callable_name (List.tl sig) "transformer")
      else Raise (InvalidStepFunctionArguments (name p) callable_name sig ty_ex)
  end.

Definition code_of (s : Step) : nat :=
  match s with SCallable c => c_code c | _ => O end.

(** [makefun.wraps(step, append_args=Parameter("meta", KEYWORD_ONLY, default=None))(_partial)]:
    a new function object whose signature ends with a keyword [meta], which
    it deletes before it calls [step]. *)
Definition wrap_meta (new_id : addr) (step : Step) : Step :=
  SCallable (mkCallable new_id (get_callable_name step)
               (signature step ++ [mkParam "meta" KEYWORD_ONLY true])
               (code_of step) true).

Definition _wrap_transform_step_meta (self : addr) (step_no : Z) (step : Step)
  : M World Step :=
  let! p := get_pipe self in
  if is_Iterable step || is_Iterator step then
    if has_parent p then
      raise (CreatePipeException (name p)
               "Iterable or Iterator cannot be a step in transformer pipe")
    else
      raise (CreatePipeException (name p)
               "Iterable or Iterator can only be a first step in resource pipe")
  else if negb (callable step) then
    raise (CreatePipeException (name p)
             "Pipe step must be a callable taking one data item as argument and optional second meta argument")
  else
    let sig := signature step in
    let sig_arg_count := length sig in
    let callable_name := get_callable_name step in
    if (sig_arg_count =? 0)%nat then
      raise (InvalidStepFunctionArguments (name p) callable_name sig
               "Function takes no arguments")
    else
      let! step :=
        match List.find (fun q => String.eqb (p_name q) "meta") sig with
        | Some meta_arg =>
            if negb (bool_decide (p_kind meta_arg = KEYWORD_ONLY)
                     || bool_decide (p_kind meta_arg = POSITIONAL_OR_KEYWORD)) then
              raise (InvalidStepFunctionArguments (name p) callable_name sig
                       "'meta' cannot be pos only argument '")
            else ret step
        | None =>
            if (sig_arg_count =? 1)%nat then
              let! i := fresh in ret (wrap_meta i step)
            else ret step
        end in
      (if negb (is_empty p) then lift (_ensure_transform_step p step_no step)
       else ret tt) ;;
      ret step.

Definition append_step (self : addr) (step : Step) : M World unit :=
  let! p := get_pipe self in
  let step_no := length (_steps p) in
  let! step :=
    if (step_no =? 0)%nat && negb (has_parent p) then
      lift (_verify_head_step p step) ;; ret step
    else _wrap_transform_step_meta self (Z.of_nat step_no) step in
  update_pipe self (fun p => set_steps (_steps p ++ [step]) p).

Definition insert_step (self : addr) (step : Step) (index : Z) : M World unit :=
  let! p := get_pipe self in
  let step_no := length (_steps p) in
  if (step_no =? 0)%nat then append_step self step
  else
    (if (index =? 0) && negb (has_parent p) then
       raise (CreatePipeException (name p)
                "You cannot insert a step before head of the resource that is not a transformer")
     else ret tt) ;;
    let! step := _wrap_transform_step_meta self index step in
    update_pipe self (fun p => set_steps (Py.insert (_steps p) index step) p) ;;
    if index <=? _gen_idx p then
      update_pipe self (fun p => set_gen_idx (_gen_idx p + 1) p)
    else ret tt.

Definition remove_step (self : addr) (index : Z) : M World unit :=
  let! p := get_pipe self in
  if index =? _gen_idx p then
    raise (CreatePipeException (name p)
             "Step holds a data generator for this pipe and cannot be removed")
  else
    let! popped := lift (pop (_steps p) index) in
    update_pipe self (set_steps (snd popped)) ;;
    if index <? _gen_idx p then
      update_pipe self (fun p => set_gen_idx (_gen_idx p - 1) p)
    else ret tt.

Definition replace_gen (self : addr) (g : Step) : M World unit :=
  let! p := get_pipe self in
  if is_empty p then raise AssertionError else
  let! l := lift (setitem (_steps p) (_gen_idx p) g) in
  update_pipe self (set_steps l).

Definition fork (self child_pipe : addr) (child_step : Z) (cof : bool) : M World unit :=
  let! p := get_pipe self in
  if (length (_steps p) =? 0)%nat then
    raise (CreatePipeException (name p) "Cannot fork to empty pipe")
  else
    let! fork_step := lift (tail p) in
    match fork_step with
    | SForkPipe r =>
        let! present := ForkPipeM.has_pipe r child_pipe in
        if negb present then ForkPipeM.add_pipe r child_pipe child_step else ret tt
    | _ =>
        let! r := ForkPipeM.init child_pipe child_step cof in
        append_step self (SForkPipe r)
    end.

(** [sys.getrecursionlimit()] *)
Definition recursion_limit : nat := 1000.

(** [is_data_bound] follows the parent links; [depth] frames are left. *)
Fixpoint is_data_bound_rec (depth : nat) (w : World) (self : addr) : Res bool :=
  match depth with
  | O => Raise RecursionError
  | S d =>
      match pipes w !! self with
      | None => Raise NoSuchObject
      | Some p =>
          match parent p with
          | Some q => is_data_bound_rec d w q
          | None => Ok (negb (is_empty p))
          end
      end
  end.

Definition is_data_bound (self : addr) : M World bool :=
  fun w => (is_data_bound_rec recursion_limit w self, w).

(** [iter(gen)]: an iterator is its own iterator, a sequence gets a new one. *)
Definition iter (g : Step) : M World Step :=
  match g with
  | SIterable _ items => let! i := fresh in ret (SIterator i (PyIterator items None))
  | _ => ret g
  end.

(** [Pipe(name, [], parent)] followed by the copy of the steps. *)
Definition _clone (self : addr) (keep_pipe_id : bool) : M World addr :=
  let! s := get_pipe self in
  let! p := new_pipe (fun a => mkPipe (name s) 0 [] (name s, a) (parent s)) in
  update_pipe p (set_steps (_steps s)) ;;
  (if keep_pipe_id then update_pipe p (set_pipe_id (_pipe_id s)) else ret tt) ;;
  ret p.

(** [Pipe(name, steps, parent)] *)
Definition Pipe_init (nm : string) (steps : list Step) (par : option addr)
  : M World addr :=
  let! self := new_pipe (fun a => mkPipe nm 0 [] (nm, a) par) in
  for_each steps (append_step self) ;;
  ret self.

(** [Pipe.from_data(name, gen, parent)] *)
Definition from_data (nm : string) (g : Step) (par : option addr) : M World addr :=
  Pipe_init nm [g] par.

(** ** PipeIterator.clone_pipes *)

(** [bool(x)] for [x] a pipe or [None]: a pipe defines [__len__], so it is
    true exactly when it has steps. *)
Definition truth (x : option addr) : M World bool :=
  match x with
  | None => ret false
  | Some a => let! p := get_pipe a in ret (negb (len p =? 0))
  end.

(** [{id(p): c for p, c in zip(pipes, cloned_pipes)}]: a later pair wins. *)
Definition dict_of_pairs (l : list (addr * addr)) : gmap addr addr :=
  foldl (fun m kv => <[fst kv := snd kv]> m) ∅ l.

(** The [while True] loop that walks up from [clone]; it returns the
    dictionary, or [None] when [fuel] iterations did not reach a [break]. *)
Fixpoint clone_walk (fuel : nat) (cloned_pairs : gmap addr addr) (clone : addr)
  : M World (option (gmap addr addr)) :=
  match fuel with
  | O => ret None
  | S fuel' =>
      let! c := get_pipe clone in
      let! t := truth (parent c) in
      if negb t then ret (Some cloned_pairs)
      else
        match parent c with
        | None => ret (Some cloned_pairs)
        | Some q =>
            if bool_decide (q ∈ (map_img cloned_pairs : gset addr))
            then ret (Some cloned_pairs)
            else
              let! cloned_pairs :=
                match cloned_pairs !! q with
                | None => let! c' := _clone q true in ret (<[q := c']> cloned_pairs)
                | Some _ => ret cloned_pairs
                end in
              match cloned_pairs !! q with
              | None => raise NoSuchObject
              | Some c' =>
                  update_pipe clone (set_parent (Some c')) ;;
                  clone_walk fuel' cloned_pairs c'
              end
        end
  end.

(** [for clone in cloned_pipes: while True: ...] *)
Fixpoint clone_fix_parents (fuel : nat) (cloned_pairs : gmap addr addr)
    (cloned_pipes : list addr) : M World (option (gmap addr addr)) :=
  match cloned_pipes with
  | [] => ret (Some cloned_pairs)
  | clone :: rest =>
      let! r := clone_walk fuel cloned_pairs clone in
      match r with
      | None => ret None
      | Some cloned_pairs => clone_fix_parents fuel cloned_pairs rest
      end
  end.

Definition clone_pipes (fuel : nat) (pipes_ : list addr)
  : M World (option (list addr)) :=
  let! cloned_pipes := list_comp pipes_ (fun p => _clone p true) in
  let cloned_pairs := dict_of_pairs (zip pipes_ cloned_pipes) in
  let! r := clone_fix_parents fuel cloned_pairs cloned_pipes in
  match r with
  | None => ret None
  | Some _ => ret (Some cloned_pipes)
  end.

(** ** User code *)

(** What the callables handed to the engine do when they are called, once
    their arguments are bound.  The first argument is the code of the
    callable. *)
Record Env := mkEnv {
  (* a head callable called without arguments; it may use one fresh address *)
  head_body : nat -> addr -> Res Step;
  (* a transform called with an item and a meta *)
  step_body : nat -> PyObj -> Meta -> Res PyObj;
  (* deferred work run by the thread pool *)
  thunk_body : nat -> Res PyObj;
  (* an awaitable run by the event loop *)
  coro_body : nat -> Res PyObj;
  (* how many polls the work submitted at a given time takes *)
  duration : nat -> nat -> nat;
  (* [gen.close()] on an iterator that is a generator, which runs the code of
     the generator from where it is suspended: what it raises, if anything;
     [None] for an iterator that is not a generator *)
  gen_close : PyObj -> option (option exn)
}.

Section WithEnv.
Context (env : Env).

(** [gen()] *)
Definition call_noargs (g : Step) : M World Step :=
  match g with
  | SCallable c =>
      match bind_noargs (c_params c) with
      | Some msg => raise (TypeError msg)
      | None => let! i := fresh in lift (head_body env (c_code c) i)
      end
  | SForkPipe _ => raise (TypeError "missing 2 required positional arguments")
  | _ => raise (TypeError "object is not callable")
  end.

Definition evaluate_gen (self : addr) : M World unit :=
  let! bound := is_data_bound self in
  let! p := get_pipe self in
  if negb bound then raise (PipeNotBoundToData (name p) (has_parent p)) else
  let! g := lift (gen p) in
  if negb (has_parent p) then
    if callable g then
      let! it := try_except (call_noargs g)
                   (fun e => if is_TypeError e
                             then raise (ParametrizedResourceUnbound (name p)
                                           (get_callable_name g) (signature g) "resource")
                             else raise e) in
      let! l := lift (setitem (_steps p) 0 it) in
      update_pipe self (set_steps l)
    else if is_Iterable g then
      let! it := iter g in
      let! l := lift (setitem (_steps p) 0 it) in
      update_pipe self (set_steps l)
    else ret tt
  else lift (_ensure_transform_step p (_gen_idx p) g).

End WithEnv.

(** ** PipeIterator *)

(** [PipeItem] and [ResolvablePipeItem]: the same four fields; the loop holds
    a [ResolvablePipeItem] and returns that very tuple as a [PipeItem]. *)
Record PipeItem := mkPipeItem {
  pi_item : PyObj;
  pi_step : Z;
  pi_pipe : addr;
  pi_meta : Meta
}.

(** A [concurrent.futures] or [asyncio] future.  The clock counts polls; the
    work is finished from [done_at] on, with [outcome]. *)
Record Future := mkFuture {
  done_at : nat;
  outcome : Res PyObj;
  cancelled : bool
}.

(** [future.done()] *)
Definition done (now : nat) (f : Future) : bool :=
  cancelled f || (done_at f <=? now)%nat.

Record FuturePipeItem := mkFutureItem {
  fi_item : Future;
  fi_step : Z;
  fi_pipe : addr;
  fi_meta : Meta
}.

Record SourcePipeItem := mkSourceItem {
  si_item : PyObj;
  si_step : Z;
  si_pipe : addr;
  si_meta : Meta
}.

(** A context manager; [cm_exit_raises] is what its [__exit__] raises, if
    anything. *)
Record ContextManager := mkContextManager {
  cm_id : addr;
  cm_exit_raises : option exn
}.

(** The iterator object, with the store it reads the pipes from, the clock,
    and the log of the calls [ctx.__exit__(type, value, tb)] made so far: the
    address of [ctx] and the exception passed, [None] for
    [__exit__(None, None, None)]. *)
Record PipeIterator := mkPipeIterator {
  world : World;
  max_parallel_items : Z;
  workers : Z;
  _async_pool : bool;
  _thread_pool : bool;
  _sources : list SourcePipeItem;
  _futures : list FuturePipeItem;
  _context_manager : option ContextManager;
  now : nat;
  exits : list (addr * option exn)
}.

Definition set_world (x : World) (s : PipeIterator) : PipeIterator :=
  mkPipeIterator x (max_parallel_items s) (workers s) (_async_pool s) (_thread_pool s)
    (_sources s) (_futures s) (_context_manager s) (now s) (exits s).
Definition set_async_pool (x : bool) (s : PipeIterator) : PipeIterator :=
  mkPipeIterator (world s) (max_parallel_items s) (workers s) x (_thread_pool s)
    (_sources s) (_futures s) (_context_manager s) (now s) (exits s).
Definition set_thread_pool (x : bool) (s : PipeIterator) : PipeIterator :=
  mkPipeIterator (world s) (max_parallel_items s) (workers s) (_async_pool s) x
    (_sources s) (_futures s) (_context_manager s) (now s) (exits s).
Definition set_sources (x : list SourcePipeItem) (s : PipeIterator) : PipeIterator :=
  mkPipeIterator (world s) (max_parallel_items s) (workers s) (_async_pool s) (_thread_pool s)
    x (_futures s) (_context_manager s) (now s) (exits s).
Definition set_futures (x : list FuturePipeItem) (s : PipeIterator) : PipeIterator :=
  mkPipeIterator (world s) (max_parallel_items s) (workers s) (_async_pool s) (_thread_pool s)
    (_sources s) x (_context_manager s) (now s) (exits s).
Definition set_context (x : option ContextManager) (s : PipeIterator) : PipeIterator :=
  mkPipeIterator (world s) (max_parallel_items s) (workers s) (_async_pool s) (_thread_pool s)
    (_sources s) (_futures s) x (now s) (exits s).
Definition set_now (x : nat) (s : PipeIterator) : PipeIterator :=
  mkPipeIterator (world s) (max_parallel_items s) (workers s) (_async_pool s) (_thread_pool s)
    (_sources s) (_futures s) (_context_manager s) x (exits s).
Definition set_exits (x : list (addr * option exn)) (s : PipeIterator) : PipeIterator :=
  mkPipeIterator (world s) (max_parallel_items s) (workers s) (_async_pool s) (_thread_pool s)
    (_sources s) (_futures s) (_context_manager s) (now s) x.

(** [PipeIterator(max_parallel_items, workers, futures_poll_interval)] over
    the pipes of [w]. *)
Definition PipeIterator_init (w : World) (max_par wrk : Z) : PipeIterator :=
  mkPipeIterator w max_par wrk false false [] [] None 0 [].

(** Run a computation on the store inside the iterator. *)
Definition in_world {A} (m : M World A) : M PipeIterator A :=
  fun s => let (r, w') := m (world s) in (r, set_world w' s).

(** [sleep(self.futures_poll_interval)]: one poll interval goes by. *)
Definition sleep : M PipeIterator unit :=
  modify (fun s => set_now (S (now s)) s).

(** ** Type tests on items *)

Definition item_is_Iterator (o : PyObj) : bool :=
  match o with PyIterator _ _ => true | _ => false end.
Definition item_is_Awaitable (o : PyObj) : bool :=
  match o with PyAwaitable _ => true | _ => false end.
Definition item_callable (o : PyObj) : bool :=
  match o with PyCallable _ => true | _ => false end.
Definition is_None (o : PyObj) : bool :=
  match o with PyNone => true | _ => false end.

(** [next(gen)]: the outcome and the iterator afterwards. *)
Definition py_next (gen_ : PyObj) : Res PyObj * PyObj :=
  match gen_ with
  | PyIterator (x :: rest) fin => (Ok x, PyIterator rest fin)
  | PyIterator [] (Some e) => (Raise e, PyIterator [] None)
  | PyIterator [] None => (Raise StopIteration, gen_)
  | _ => (Raise (TypeError "object is not an iterator"), gen_)
  end.

(** Index of the first entry that satisfies [done], counted from [i]. *)
Fixpoint first_done (t : nat) (l : list FuturePipeItem) (i : Z) : Z :=
  match l with
  | [] => -1
  | f :: rest => if done t (fi_item f) then i else first_done t rest (i + 1)
  end.

(** The futures of the list that are not done. *)
Definition in_flight (s : PipeIterator) : nat :=
  length (filter (fun f => done (now s) (fi_item f) = false) (_futures s)).

(** What one turn of the [while True] loop of [__next__] ends with. *)
Inductive Ctl :=
| Continue (pipe_item : option PipeItem)
| Return (pipe_item : PipeItem).

Section Dispatcher.
Context (env : Env).

Definition _next_future : M PipeIterator Z :=
  fun s => (Ok (first_done (now s) (_futures s) 0), s).

(** The future of an item handed to the event loop or to the thread pool. *)
Definition submit (item : PyObj) : M PipeIterator Future :=
  let! s := get in
  match item with
  | PyAwaitable fid =>
      modify (set_async_pool true) ;;
      ret (mkFuture (now s + duration env fid (now s))%nat (coro_body env fid) false)
  | PyCallable fid =>
      modify (set_thread_pool true) ;;
      ret (mkFuture (now s + duration env fid (now s))%nat (thunk_body env fid) false)
  | _ => raise (TypeError "cannot submit")
  end.

Fixpoint _resolve_futures_rec (depth : nat) : M PipeIterator (option PipeItem) :=
  match depth with
  | O => raise RecursionError
  | S depth' =>
      let! s := get in
      if (length (_futures s) =? 0)%nat then ret None
      else
        let! idx := _next_future in
        if idx =? -1 then ret None
        else
          let! popped := lift (pop (_futures s) idx) in
          modify (set_futures (snd popped)) ;;
          let f := fst popped in
          if cancelled (fi_item f) then _resolve_futures_rec depth'
          else
            match outcome (fi_item f) with
            | Raise e => raise e
            | Ok (DataItemWithMeta m data) =>
                ret (Some (mkPipeItem data (fi_step f) (fi_pipe f) m))
            | Ok item =>
                ret (Some (mkPipeItem item (fi_step f) (fi_pipe f) (fi_meta f)))
            end
  end.

Definition _resolve_futures : M PipeIterator (option PipeItem) :=
  _resolve_futures_rec recursion_limit.

Fixpoint _get_source_item_rec (depth : nat) : M PipeIterator (option PipeItem) :=
  match depth with
  | O => raise RecursionError
  | S depth' =>
      let! s := get in
      if (length (_sources s) =? 0)%nat then ret None
      else
        let! src := lift (getitem (_sources s) (-1)) in
        let r := py_next (si_item src) in
        modify (set_sources
                  (<[ (length (_sources s) - 1)%nat :=
                        mkSourceItem (snd r) (si_step src) (si_pipe src) (si_meta src) ]>
                     (_sources s))) ;;
        match fst r with
        | Ok (ResolvablePipeItem item step pipe meta) =>
            ret (Some (mkPipeItem item step pipe meta))
        | Ok (DataItemWithMeta m data) =>
            ret (Some (mkPipeItem data (si_step src) (si_pipe src) m))
        | Ok item =>
            ret (Some (mkPipeItem item (si_step src) (si_pipe src) (si_meta src)))
        | Raise e =>
            if is_StopIteration e then
              let! s := get in
              let! popped := lift (pop (_sources s) (-1)) in
              modify (set_sources (snd popped)) ;;
              _get_source_item_rec depth'
            else raise e
        end
  end.

Definition _get_source_item : M PipeIterator (option PipeItem) :=
  _get_source_item_rec recursion_limit.

(** [step(item, meta=meta)] *)
Definition call_step (step : Step) (item : PyObj) (meta : Meta) : M PipeIterator PyObj :=
  match step with
  | SCallable c =>
      match bind_item_meta (c_params c) with
      | Some msg => raise (TypeError msg)
      | None =>
          lift (step_body env (c_code c) item (if c_drops_meta c then None else meta))
      end
  | SForkPipe r => in_world (ForkPipeM.call r item meta)
  | _ => raise (TypeError "object is not callable")
  end.

(** The [try] block that advances [pipe_item] through [step], with its
    [except TypeError] handler. *)
Definition invoke_step (p : Pipe) (step : Step) (pipe_item : PipeItem)
  : M PipeIterator (PyObj * Meta) :=
  try_except
    (let! next_item := call_step step (pi_item pipe_item) (pi_meta pipe_item) in
     match next_item with
     | DataItemWithMeta m data => ret (data, m)
     | _ => ret (next_item, pi_meta pipe_item)
     end)
    (fun ty_ex =>
       if is_TypeError ty_ex then
         raise (InvalidStepFunctionArguments (name p) (get_callable_name step)
                  (signature step) (str_exn ty_ex))
       else raise ty_ex).

(** The first part of a turn: [pipe_item] when there is one, otherwise an
    item from the futures, then from the sources; [None] stands for the
    [continue] after the sleep. *)
Definition obtain_item (pipe_item : option PipeItem) : M PipeIterator (option PipeItem) :=
  match pipe_item with
  | Some _ => ret pipe_item
  | None =>
      let! s := get in
      let! pipe_item :=
        if (0 <? length (_futures s))%nat then _resolve_futures else ret None in
      let! pipe_item :=
        match pipe_item with
        | None => _get_source_item
        | Some _ => ret pipe_item
        end in
      match pipe_item with
      | None =>
          let! s := get in
          if (length (_futures s) =? 0)%nat && (length (_sources s) =? 0)%nat
          then raise StopIteration
          else sleep ;; ret None
      | Some _ => ret pipe_item
      end
  end.

(** The second part of a turn, with [pipe_item] in hand. *)
Definition process_item (pipe_item : PipeItem) : M PipeIterator Ctl :=
  let item := pi_item pipe_item in
  if item_is_Iterator item then
    modify (fun s => set_sources
              (_sources s ++ [mkSourceItem item (pi_step pipe_item) (pi_pipe pipe_item)
                                (pi_meta pipe_item)]) s) ;;
    ret (Continue None)
  else if item_is_Awaitable item || item_callable item then
    let! s := get in
    let! free :=
      if Z.of_nat (length (_futures s)) <? max_parallel_items s then ret true
      else let! idx := _next_future in ret (0 <=? idx) in
    if free then
      let! future := submit item in
      modify (fun s => set_futures
                (_futures s ++ [mkFutureItem future (pi_step pipe_item) (pi_pipe pipe_item)
                                  (pi_meta pipe_item)]) s) ;;
      ret (Continue None)
    else
      sleep ;;
      ret (Continue (Some pipe_item))
  else
    let! p := in_world (get_pipe (pi_pipe pipe_item)) in
    if pi_step pipe_item =? len p - 1 then
      if item_is_Iterator item || item_is_Awaitable item || item_callable item then
        raise (PipeItemProcessingError (name p) "Pipe item was not fully evaluated")
      else ret (Return pipe_item)
    else
      let! step := lift (getitem (_steps p) (pi_step pipe_item + 1)) in
      if negb (callable step) then raise AssertionError
      else
        let! next := invoke_step p step pipe_item in
        if negb (is_None (fst next)) then
          ret (Continue (Some (mkPipeItem (fst next) (pi_step pipe_item + 1)
                                 (pi_pipe pipe_item) (snd next))))
        else ret (Continue None).

(** One turn of the loop. *)
Definition loop_body (pipe_item : option PipeItem) : M PipeIterator Ctl :=
  let! pipe_item := obtain_item pipe_item in
  match pipe_item with
  | None => ret (Continue None)
  | Some pipe_item => process_item pipe_item
  end.

(** [fuel] turns of the loop; [None] when none of them returned. *)
Fixpoint next_loop (fuel : nat) (pipe_item : option PipeItem)
  : M PipeIterator (option PipeItem) :=
  match fuel with
  | O => ret None
  | S fuel' =>
      let! c := loop_body pipe_item in
      match c with
      | Continue pipe_item => next_loop fuel' pipe_item
      | Return x => ret (Some x)
      end
  end.

(** [PipeIterator.__next__] *)
Definition PipeIterator_next (fuel : nat) : M PipeIterator (option PipeItem) :=
  next_loop fuel None.

(** [for gen, _, _, _ in self._sources: if inspect.isgenerator(gen):
    gen.close()]: the outcome and the sources afterwards.  A generator that
    was closed yields nothing more, whether its [close] returned or raised;
    the loop stops at the first [close] that raises. *)
Fixpoint close_generators (l : list SourcePipeItem) : Res unit * list SourcePipeItem :=
  match l with
  | [] => (Ok tt, [])
  | src :: rest =>
      let closed :=
        mkSourceItem (PyIterator [] None) (si_step src) (si_pipe src) (si_meta src) in
      match gen_close env (si_item src) with
      | None => let (r, rest') := close_generators rest in (r, src :: rest')
      | Some None => let (r, rest') := close_generators rest in (r, closed :: rest')
      | Some (Some e) => (Raise e, closed :: rest)
      end
  end.

(** [close]: the futures that are not done are cancelled and the list is
    cleared, the generators are closed and the list is cleared, the loop and
    the pool are stopped. *)
Definition close : M PipeIterator unit :=
  modify (set_futures []) ;;
  (fun s => let (r, l) := close_generators (_sources s) in (r, set_sources l s)) ;;
  modify (set_sources []) ;;
  modify (fun s => set_thread_pool false (set_async_pool false s)).

(** ** ManagedPipeIterator *)

(** [set_context_manager(ctx)] *)
Definition set_context_manager (ctx : ContextManager) : M PipeIterator unit :=
  modify (set_context (Some ctx)).

(** [ctx.__exit__(...)] with the exception [info], or with three [None]. *)
Definition ctx_exit (ctx : ContextManager) (info : option exn) : M PipeIterator unit :=
  modify (fun s => set_exits (exits s ++ [(cm_id ctx, info)]) s) ;;
  match cm_exit_raises ctx with
  | Some e => raise e
  | None => ret tt
  end.

(** [ManagedPipeIterator.__next__]: the handler is [except Exception]. *)
Definition ManagedPipeIterator_next (fuel : nat) : M PipeIterator (option PipeItem) :=
  try_except (PipeIterator_next fuel)
    (fun ex =>
       if is_Exception ex then
         let! s := get in
         match _context_manager s with
         | Some ctx =>
             if is_StopIteration ex then ctx_exit ctx None
             else ctx_exit ctx (Some ex)
         | None => ret tt
         end ;;
         close ;;
         raise ex
       else raise ex).

(** ** The iterator as its caller sees it *)

(** Between two calls the caller holds the iterator ([Idle]); inside
    [__next__] the loop holds the current [pipe_item]. *)
Inductive Mode :=
| Idle
| Running (pipe_item : option PipeItem).

(** What can happen next: the caller calls [__next__] or [close], the loop
    makes a turn, or time goes by while the workers run. *)
Inductive transition : PipeIterator * Mode -> PipeIterator * Mode -> Prop :=
| t_call s : transition (s, Idle) (s, Running None)
| t_turn s cur s' cur' :
    loop_body cur s = (Ok (Continue cur'), s') ->
    transition (s, Running cur) (s', Running cur')
| t_return s cur s' x :
    loop_body cur s = (Ok (Return x), s') ->
    transition (s, Running cur) (s', Idle)
| t_raise s cur s' e :
    loop_body cur s = (Raise e, s') ->
    transition (s, Running cur) (s', Idle)
| t_close s :
    transition (s, Idle) (snd (close s), Idle)
| t_elapse s m n :
    transition (s, m) (set_now (now s + n) s, m).

(** The states an iterator goes through, from its creation with no future. *)
Inductive reachable : PipeIterator * Mode -> Prop :=
| r_init s : _futures s = [] -> reachable (s, Idle)
| r_step x y : reachable x -> transition x y -> reachable y.

(** [n] turns of the loop from inside [__next__], or fewer when a turn
    returns or raises. *)
Fixpoint run_turns (n : nat) (cur : option PipeItem) (s : PipeIterator)
  : PipeIterator * Mode :=
  match n with
  | O => (s, Running cur)
  | S n' =>
      match loop_body cur s with
      | (Ok (Continue cur'), s') => run_turns n' cur' s'
      | (_, s') => (s', Idle)
      end
  end.

End Dispatcher.

(** A plain item, neither deferred nor an iterator. *)
Definition plain (o : PyObj) : bool :=
  negb (item_is_Iterator o) && negb (item_is_Awaitable o || item_callable o).

(** The value a transform returned stands for a dropped item: [None], as
    such or as the data of a [DataItemWithMeta]. *)
Definition drops (v : PyObj) : bool :=
  match v with
  | PyNone => true
  | DataItemWithMeta _ PyNone => true
  | _ => false
  end.

(** ** Relations between the states of the iterator *)

(** What no part of [PipeIterator.__next__] touches: the configured cap, the
    context manager and the log of its exits; the clock only goes forward. *)
Definition frame (s s' : PipeIterator) : Prop :=
  max_parallel_items s' = max_parallel_items s /\
  _context_manager s' = _context_manager s /\
  exits s' = exits s /\
  (now s <= now s')%nat.

(** [frame], with the list of futures untouched as well. *)
Definition same_futures (s s' : PipeIterator) : Prop :=
  frame s s' /\ _futures s' = _futures s.

(** Every run of [m] relates the state before to the state after by [R]. *)
Definition preserves {A} (R : PipeIterator -> PipeIterator -> Prop)
    (m : M PipeIterator A) : Prop :=
  forall s r s', m s = (r, s') -> R s s'.

(** Some future of the list is done at time [t]. *)
Definition some_done (t : nat) (l : list FuturePipeItem) : Prop :=
  Exists (fun f => done t (fi_item f) = true) l.

(** The bound on the list of futures: at most [max_parallel_items] entries,
    or one more right after a submission, with an entry that is done and is
    popped first thing in the next turn. *)
Definition cap_inv (s : PipeIterator) (m : Mode) : Prop :=
  Z.of_nat (length (_futures s)) <= max_parallel_items s \/
  (Z.of_nat (length (_futures s)) = max_parallel_items s + 1 /\
   m = Running None /\ some_done (now s) (_futures s)).

(** ** Sequences of edits of a pipe *)

Inductive PipeOp :=
| OpAppend (step : Step)
| OpInsert (step : Step) (index : Z)
| OpRemove (index : Z).

Definition run_op (self : addr) (o : PipeOp) : M World unit :=
  match o with
  | OpAppend s => append_step self s
  | OpInsert s i => insert_step self s i
  | OpRemove i => remove_step self i
  end.

(** The calls are made one after the other; a call that raises is caught by
    the caller, who goes on with the next one. *)
Fixpoint run_ops (self : addr) (ops : list PipeOp) (w : World) : World :=
  match ops with
  | [] => w
  | o :: rest => run_ops self rest (snd (run_op self o w))
  end.

Definition op_index_nonneg (o : PipeOp) : Prop :=
  match o with
  | OpAppend _ => True
  | OpInsert _ i => 0 <= i
  | OpRemove i => 0 <= i
  end.

(** [self.gen] of the pipe at [self]. *)
Definition gen_of (w : World) (self : addr) : Res Step :=
  match pipes w !! self with
  | Some p => gen p
  | None => Raise NoSuchObject
  end.

(** Number of edges of a fork that lead to [child]. *)
Definition edges_to (child : addr) (f : ForkPipe) : nat :=
  length (filter (fun e => fst e = child) (_pipes f)).

(** What the edge numbered [i] of a fork carries for [item]: the item
    itself, or a copy of it made at an address taken between the two stores. *)
Definition carried (cof : bool) (i : nat) (item it : PyObj) (w w' : World) : Prop :=
  if (i =? 0)%nat || negb cof then it = item
  else exists a, (next_id w <= a < next_id w')%nat /\ it = ForkPipeM.copy a item.

(** The generator of the pipe at [self] is [g], at a non-negative index. *)
Definition gen_is (w : World) (self : addr) (g : Step) : Prop :=
  exists p, pipes w !! self = Some p /\ 0 <= _gen_idx p /\ gen p = Ok g.

(** ** Clones *)

(** The store after [_clone] of the pipe [pq]. *)
Definition cloned (w : World) (pq : Pipe) : World :=
  mkWorld (<[next_id w := mkPipe (name pq) 0 (_steps pq) (_pipe_id pq) (parent pq)]> (pipes w))
          (forks w) (S (next_id w)).

Section CloneSpec.
Context (w0 : World).

(** [c] is a clone of the original [o]: a new object with the name, the
    steps and the id of [o], whose parent is still the parent of [o] or is
    already the clone that [cloned_pairs] gives for it. *)
Definition clone_of (w : World) (cloned_pairs : gmap addr addr) (c o : addr) : Prop :=
  exists pc po,
    pipes w !! c = Some pc /\ pipes w0 !! o = Some po /\ (next_id w0 <= c)%nat /\
    name pc = name po /\ _steps pc = _steps po /\ _pipe_id pc = _pipe_id po /\
    (parent pc = parent po \/
     exists q c', parent po = Some q /\ cloned_pairs !! q = Some c' /\ parent pc = Some c').

(** [c] is a clone of [o] whose parent is settled: none when [o] has none,
    otherwise the clone that [cloned_pairs] gives for the parent of [o]. *)
Definition settled (w : World) (cloned_pairs : gmap addr addr) (c o : addr) : Prop :=
  exists pc po,
    pipes w !! c = Some pc /\ pipes w0 !! o = Some po /\ (next_id w0 <= c)%nat /\
    name pc = name po /\ _steps pc = _steps po /\ _pipe_id pc = _pipe_id po /\
    match parent po with
    | None => parent pc = None
    | Some q => exists c', cloned_pairs !! q = Some c' /\ parent pc = Some c'
    end.

(** The state of [clone_pipes] while it walks the parent chains; [T] holds
    the clones that may still have an original as parent. *)
Definition clone_inv (w : World) (cloned_pairs : gmap addr addr) (T : addr -> Prop) : Prop :=
  (next_id w0 <= next_id w)%nat /\
  (forall a : addr, is_Some (pipes w !! a) -> (a < next_id w)%nat) /\
  (forall a : addr, (a < next_id w0)%nat -> pipes w !! a = pipes w0 !! a) /\
  (forall c : addr, (next_id w0 <= c)%nat -> is_Some (pipes w !! c) ->
     exists o, clone_of w cloned_pairs c o) /\
  (forall q c', cloned_pairs !! q = Some c' -> clone_of w cloned_pairs c' q) /\
  (forall c o, clone_of w cloned_pairs c o -> T c \/ settled w cloned_pairs c o) /\
  (forall c pc q, pipes w !! c = Some pc -> parent pc = Some q -> is_Some (pipes w !! q)).

(** Every pipe of the store was allocated by it. *)
Definition allocated : Prop :=
  forall a : addr, is_Some (pipes w0 !! a) -> (a < next_id w0)%nat.

(** Every parent is a pipe of the store, has steps, and is of lower rank
    than its child: the parent links make no cycle. *)
Definition parents_have_steps (rank : addr -> nat) : Prop :=
  forall (a : addr) p (q : addr), pipes w0 !! a = Some p -> parent p = Some q ->
    exists pq, pipes w0 !! q = Some pq /\ _steps pq <> [] /\ (rank q < rank a)%nat.

End CloneSpec.

(** ** Chains of parents *)

(** The pipe [r] is the root of [self]: it has no parent and is reached from
    [self] by following [n] parent links. *)
Inductive root_of (w : World) : addr -> nat -> Pipe -> Prop :=
| root_here a p :
    pipes w !! a = Some p -> parent p = None -> root_of w a 0 p
| root_up a p q n r :
    pipes w !! a = Some p -> parent p = Some q -> root_of w q n r ->
    root_of w a (S n) r.

(** A parameter that takes a positional argument. *)
Definition positional (prm : Param) : bool :=
  match p_kind prm with
  | POSITIONAL_ONLY | POSITIONAL_OR_KEYWORD | VAR_POSITIONAL => true
  | _ => false
  end.

(** ** Items on their way through a pipe *)

(** The iterator of the source has nothing more to yield. *)
Definition exhausted (src : SourcePipeItem) : Prop :=
  si_item src = PyIterator [] None.

(** The source [src] after a [next] that left [rest] to yield. *)
Definition advanced (src : SourcePipeItem) (rest : list PyObj) (fin : option exn)
  : SourcePipeItem :=
  mkSourceItem (PyIterator rest fin) (si_step src) (si_pipe src) (si_meta src).

(** The pipe item that [_get_source_item] makes of [x], yielded by [src]. *)
Definition source_item (src : SourcePipeItem) (x : PyObj) : PipeItem :=
  match x with
  | ResolvablePipeItem item step pipe meta => mkPipeItem item step pipe meta
  | DataItemWithMeta m data => mkPipeItem data (si_step src) (si_pipe src) m
  | _ => mkPipeItem x (si_step src) (si_pipe src) (si_meta src)
  end.

(** The value and the meta that the result [v] of a step stands for. *)
Definition unwrap_meta (v : PyObj) (meta : Meta) : PyObj * Meta :=
  match v with
  | DataItemWithMeta m data => (data, m)
  | _ => (v, meta)
  end.

(** What [item] becomes when the functions [rest] are applied to it one
    after the other, each to the value and the meta that the one before
    returned: the last value with its meta, or nothing when one of them
    returned [None].  Undefined when a function does not bind the call,
    raises, or returns an iterator or deferred work. *)
Fixpoint through (env : Env) (rest : list Step) (item : PyObj) (meta : Meta)
  : option (option (PyObj * Meta)) :=
  match rest with
  | [] => Some (Some (item, meta))
  | SCallable c :: rest' =>
      match bind_item_meta (c_params c),
            step_body env (c_code c) item (if c_drops_meta c then None else meta) with
      | None, Ok v =>
          let next := unwrap_meta v meta in
          if is_None (fst next) then Some None
          else if plain (fst next) then through env rest' (fst next) (snd next)
          else None
      | _, _ => None
      end
  | _ => None
  end.

(** ** Deferred work *)

(** The entry of the list of futures is not done at time [t]. *)
Definition pending (t : nat) (f : FuturePipeItem) : Prop :=
  done t (fi_item f) = false.

(** What [_resolve_futures] makes of the finished future of [f]: its
    exception is raised, its result takes the step and the pipe of [f]. *)
Definition resolved (f : FuturePipeItem) : Res (option PipeItem) :=
  match outcome (fi_item f) with
  | Raise e => Raise e
  | Ok v =>
      Ok (Some (mkPipeItem (fst (unwrap_meta v (fi_meta f))) (fi_step f) (fi_pipe f)
                  (snd (unwrap_meta v (fi_meta f)))))
  end.



(** ** Pipe.ensure_gen_bound, Pipe.full_pipe *)

Definition ensure_gen_bound (p : Pipe) : Res unit :=
  match gen p with
  | Raise e => Raise e
  | Ok head =>
      if negb (callable head) then Ok tt
      else
        let sig := signature head in
        match bind_noargs sig with
        | None => Ok tt
        | Some _ =>
            Raise (ParametrizedResourceUnbound (name p) (get_callable_name head)
                     (List.tl sig) "resource")
        end
  end.

(** [full_pipe] calls itself on the parent; [depth] frames are left.  The
    list [steps] is the one that the full pipe of the parent holds, so
    [extend] acts on that pipe as well. *)
Fixpoint full_pipe_rec (depth : nat) (self : addr) : M World addr :=
  match depth with
  | O => raise RecursionError
  | S depth' =>
      let! p := get_pipe self in
      (if has_parent p then
         let! g := lift (gen p) in
         lift (_ensure_transform_step p (_gen_idx p) g)
       else lift (ensure_gen_bound p)) ;;
      let! steps :=
        match parent p with
        | Some q =>
            let! fp := full_pipe_rec depth' q in
            let! pp := get_pipe fp in
            let! p := get_pipe self in
            update_pipe fp (set_steps (_steps pp ++ _steps p)) ;;
            ret (_steps pp ++ _steps p)
        | None =>
            let! p := get_pipe self in
            ret ([] ++ _steps p)
        end in
      let! p := get_pipe self in
      let! r := Pipe_init (name p) [] None in
      update_pipe r (set_steps steps) ;;
      ret r
  end.

Definition full_pipe (self : addr) : M World addr :=
  full_pipe_rec recursion_limit self.

(** ** PipeIterator.from_pipe *)

Section FromPipe.
Context (env : Env).

(** [PipeIterator.from_pipe(pipe, max_parallel_items=..., workers=...)]: the
    iterator reads its pipes from the store as it is at the end. *)
Definition from_pipe (pipe : addr) (max_par wrk : Z) : M World PipeIterator :=
  let! p := get_pipe pipe in
  let! t := truth (parent p) in
  let! pipe := if t then full_pipe pipe else ret pipe in
  let! pipe := _clone pipe true in
  evaluate_gen env pipe ;;
  let! p := get_pipe pipe in
  let! g := lift (gen p) in
  match g with
  | SIterator _ it =>
      let! w := get in
      ret (set_sources [mkSourceItem it 0 pipe None] (PipeIterator_init w max_par wrk))
  | _ => raise AssertionError
  end.

End FromPipe.

(** The pipes from [self] up to the root of its parent chain. *)
Inductive ancestry (w : World) : addr -> list Pipe -> Prop :=
| ancestry_root a p :
    pipes w !! a = Some p -> parent p = None -> ancestry w a [p]
| ancestry_up a p q l :
    pipes w !! a = Some p -> parent p = Some q -> ancestry w q l ->
    ancestry w a (p :: l).

(** The test that [full_pipe] makes of the generator of a pipe passes. *)
Definition gen_verified (p : Pipe) : Prop :=
  match parent p with
  | Some _ => exists g, gen p = Ok g /\ _ensure_transform_step p (_gen_idx p) g = Ok tt
  | None => ensure_gen_bound p = Ok tt
  end.

(** ** PipeIterator.from_pipes *)

Section FromPipes.
Context (env : Env).

(** The local function [_fork_pipeline] of [from_pipes], which calls itself
    on the parent; [pipes_] is the list of the clones. *)
Fixpoint _fork_pipeline (depth : nat) (pipes_ : list addr) (yield_parents cof : bool)
    (pipe : addr) : M PipeIterator unit :=
  match depth with
  | O => raise RecursionError
  | S depth' =>
      let! p := in_world (get_pipe pipe) in
      let! t := in_world (truth (parent p)) in
      if t then
        match parent p with
        | None => raise NoSuchObject
        | Some q =>
            in_world (evaluate_gen env pipe) ;;
            in_world (fork q pipe (-1) cof) ;;
            (if yield_parents && bool_decide (q ∈ pipes_) then
               let! pq := in_world (get_pipe q) in
               in_world (fork q q (len pq - 1) cof)
             else ret tt) ;;
            _fork_pipeline depth' pipes_ yield_parents cof q
        end
      else
        in_world (evaluate_gen env pipe) ;;
        let! p := in_world (get_pipe pipe) in
        let! g := lift (gen p) in
        match g with
        | SIterator _ it =>
            let! s := get in
            if negb (existsb (fun i => (si_pipe i =? pipe)%nat) (_sources s)) then
              modify (set_sources (_sources s ++ [mkSourceItem it 0 pipe None]))
            else ret tt
        | _ => raise AssertionError
        end
  end.

(** [PipeIterator.from_pipes(pipes, yield_parents, max_parallel_items=...,
    workers=..., copy_on_fork=...)]; [None] when [clone_pipes] ran out of
    [fuel]. *)
Definition from_pipes (fuel : nat) (pipes_ : list addr) (yield_parents : bool)
    (max_par wrk : Z) (cof : bool) : M World (option PipeIterator) :=
  let! cloned := clone_pipes fuel pipes_ in
  match cloned with
  | None => ret None
  | Some pipes_ =>
      fun w =>
        match for_each (reverse pipes_)
                (_fork_pipeline recursion_limit pipes_ yield_parents cof)
                (PipeIterator_init w max_par wrk) with
        | (Ok _, extract) => (Ok (Some extract), world extract)
        | (Raise e, extract) => (Raise e, world extract)
        end
  end.

End FromPipes.

(** The items of the sequence at the head of a pipe, and the steps after it. *)
Definition head_items (p : Pipe) : list PyObj :=
  match _steps p with
  | SIterable _ items :: _ => items
  | _ => []
  end.

(** A resource whose head is a sequence. *)
Definition sequence_resource (p : Pipe) : Prop :=
  parent p = None /\ exists oid items rest, _steps p = SIterable oid items :: rest.
(** The clone of a pipe without parent, as [_clone] leaves it. *)
Definition fresh_clone (w : World) (c : addr) (p : Pipe) : Prop :=
  pipes w !! c = Some (mkPipe (name p) 0 (_steps p) (_pipe_id p) None).

(** The source [src] iterates the sequence at the head of [p]: it belongs to
    a clone of [p] in [w], whose head is the iterator. *)
Definition serves (w : World) (src : SourcePipeItem) (p : Pipe) : Prop :=
  si_item src = PyIterator (head_items p) None /\
  si_step src = 0 /\ si_meta src = None /\
  exists i,
    pipes w !! si_pipe src
    = Some (mkPipe (name p) 0
              (SIterator i (PyIterator (head_items p) None) :: List.tl (_steps p))
              (_pipe_id p) None).

(** ** Steps given and steps stored *)

(** The stored step [s'] runs the code of the given step [s] under its
    name: it is [s] or the wrapper made for it. *)
Definition same_function (s' s : Step) : Prop :=
  code_of s' = code_of s /\ get_callable_name s' = get_callable_name s.

(** ** Example objects *)

Module Ex.

Definition empty_world : World := mkWorld ∅ ∅ 100.

Definition numbers : Step := SIterable 1 [PyData 2 1; PyData 3 2].

Definition item_param : Param := mkParam "item" POSITIONAL_OR_KEYWORD false.
Definition meta_param : Param := mkParam "meta" POSITIONAL_OR_KEYWORD true.
Definition meta_kwonly : Param := mkParam "meta" KEYWORD_ONLY true.

(** [def f(item): return item * 10] *)
Definition f_item : Step := SCallable (mkCallable 4 "f" [item_param] 1 false).
(** [def g(item, meta=None): return item] *)
Definition g_item_meta : Step :=
  SCallable (mkCallable 5 "g" [item_param; meta_param] 2 false).
(** [def h(item, *, meta=None): return item if item % 2 == 0 else None] *)
Definition h_item_meta : Step :=
  SCallable (mkCallable 6 "h" [item_param; meta_kwonly] 3 false).
(** [def boom(item, meta=None): return item + "x"], a [TypeError] of its own *)
Definition boom : Step :=
  SCallable (mkCallable 7 "boom" [item_param; meta_param] 4 false).
(** [def fail(item, meta=None): raise ValueError] *)
Definition fail : Step :=
  SCallable (mkCallable 8 "fail" [item_param; meta_param] 5 false).
(** [def defer(item, meta=None): return square(item)], an awaitable *)
Definition defer : Step :=
  SCallable (mkCallable 9 "defer" [item_param; meta_param] 6 false).
(** [def two(a, b, meta=None)], which cannot be called with one item *)
Definition two_items : Step :=
  SCallable (mkCallable 12 "two" [mkParam "a" POSITIONAL_OR_KEYWORD false;
                                  mkParam "b" POSITIONAL_OR_KEYWORD false;
                                  meta_param] 2 false).
(** [def producer(): yield 1; yield 2] *)
Definition producer : Step := SCallable (mkCallable 10 "producer" [] 7 false).

(** The user code of the examples.  Of the iterators, the ones about to
    yield the objects 8 and 9 are generators, and the second raises when it
    is closed there. *)
Definition env : Env :=
  mkEnv
    (fun code a => Ok (SIterator a (PyIterator [PyData 2 1; PyData 3 2] None)))
    (fun code item meta =>
       match code, item with
       | 1%nat, PyData o v => Ok (PyData o (v * 10))
       | 3%nat, PyData o v => if Z.even v then Ok item else Ok PyNone
       | 4%nat, _ => Raise (TypeError "unsupported operand type(s) for +: 'int' and 'str'")
       | 5%nat, _ => Raise (UserError 1)
       | 6%nat, PyData o v => Ok (PyAwaitable (Z.to_nat v))
       | 8%nat, _ => Raise KeyboardInterrupt
       | _, _ => Ok item
       end)
    (fun fid => Ok (PyData (1000 + fid) (Z.of_nat fid)))
    (fun fid => Ok (PyData (2000 + fid) (Z.of_nat fid * Z.of_nat fid)))
    (fun fid t => S fid)
    (fun gen_ =>
       match gen_ with
       | PyIterator (PyData 8 _ :: _) _ => Some None
       | PyIterator (PyData 9 _ :: _) _ => Some (Some (UserError 3))
       | _ => None
       end).

(** [Pipe("p", [producer])] at address 100, before and after [evaluate_gen]. *)
Definition producer_pipe : Pipe := mkPipe "p" 0 [producer] ("p", 100%nat) None.
Definition producer_world : World := mkWorld {[ 100%nat := producer_pipe ]} ∅ 101.
Definition produced : Step := SIterator 101 (PyIterator [PyData 2 1; PyData 3 2] None).
Definition produced_pipe : Pipe := mkPipe "p" 0 [produced] ("p", 100%nat) None.
Definition produced_world : World := mkWorld {[ 100%nat := produced_pipe ]} ∅ 102.

(** A transformer at address 101 whose parent, at address 100, has no step. *)
Definition no_steps : Pipe := mkPipe "empty" 0 [] ("empty", 100%nat) None.
Definition unbound : Pipe := mkPipe "t" 0 [g_item_meta] ("t", 101%nat) (Some 100%nat).
Definition unbound_world : World :=
  mkWorld (<[ 101%nat := unbound ]> {[ 100%nat := no_steps ]}) ∅ 102.

(** An iterator over one pipe at address 100 with the given steps, whose
    head iterator, still to yield [items], is the only source. *)
Definition head_of (items : list PyObj) : Step := SIterator 11 (PyIterator items None).
Definition running (items : list PyObj) (steps : list Step) (max_par : Z)
  : PipeIterator :=
  set_sources [mkSourceItem (PyIterator items None) 0 100 None]
    (PipeIterator_init
       (mkWorld {[ 100%nat := mkPipe "numbers" 0 (head_of items :: steps)
                                 ("numbers", 100%nat) None ]} ∅ 101)
       max_par 5).

Definition one : PyObj := PyData 2 1.
Definition two : PyObj := PyData 3 2.
Definition three : PyObj := PyData 4 3.

(** Source [[1, 2, 3]] through [defer], with room for two futures. *)
Definition deferring : PipeIterator := running [one; two; three] [defer] 2.

(** A transaction that is released without an error of its own. *)
Definition transaction : ContextManager := mkContextManager 60 None.

(** Source [[1]] through [fail], resp. an exhausted source, inside the
    transaction. *)
Definition failing : PipeIterator :=
  set_context (Some transaction) (running [one] [fail] 20).
Definition finished : PipeIterator :=
  set_context (Some transaction) (running [] [g_item_meta] 20).

(** [Pipe("numbers", [[None, 1]])]: a resource that yields [None] first. *)
Definition yields_None : PipeIterator := running [PyNone; one] [] 20.

(** [Pipe("numbers", [numbers, g])] at address 100. *)
Definition resource : Pipe :=
  mkPipe "numbers" 0 [numbers; g_item_meta] ("numbers", 100%nat) None.
Definition resource_world : World := mkWorld {[ 100%nat := resource ]} ∅ 101.

(** A transformer of [resource] at address 101 into which [h] was inserted
    at index 0: its generator [g] is at index 1. *)
Definition transformer : Pipe :=
  mkPipe "t" 1 [h_item_meta; g_item_meta] ("t", 101%nat) (Some 100%nat).
Definition transformer_world : World :=
  mkWorld (<[ 101%nat := transformer ]> {[ 100%nat := resource ]}) ∅ 102.

(** A fork with three edges that copies the items. *)
Definition three_edges : ForkPipe :=
  mkForkPipe [(100%nat, -1); (101%nat, -1); (102%nat, 0)] true.
Definition fork_world : World := mkWorld ∅ {[ 50%nat := three_edges ]} 200.

End Ex.

(** ** An iterator at a fork *)

(** A resource at address 100 whose head iterator is followed by [f],
    wrapped to take the meta, and by a fork to the transformer [g, f] at
    address 101 and, as from [from_pipes] with [yield_parents], to the
    resource itself; the head iterator, still to yield [1, 2], is the only
    source. *)
Definition forked_world : World :=
  mkWorld (<[ 101%nat := mkPipe "t" 0 [Ex.g_item_meta; wrap_meta 13 Ex.f_item]
                           ("t", 101%nat) (Some 100%nat) ]>
             {[ 100%nat := mkPipe "r" 0 [Ex.head_of [Ex.one; Ex.two];
                                          wrap_meta 13 Ex.f_item; SForkPipe 50]
                             ("r", 100%nat) None ]})
          {[ 50%nat := mkForkPipe [(101%nat, -1); (100%nat, 2)] false ]} 102.
Definition forked : PipeIterator :=
  set_sources [mkSourceItem (PyIterator [Ex.one; Ex.two] None) 0 100 None]
    (PipeIterator_init forked_world 20 5).

(** * Properties *)

(** ** Running the monad *)

Lemma bind_ok {S A B} (m : M S A) (k : A -> M S B) s a s' :
  m s = (Ok a, s') -> bind m k s = k a s'.
Proof. unfold bind. intros ->. reflexivity. Qed.

Lemma bind_raise {S A B} (m : M S A) (k : A -> M S B) s e s' :
  m s = (Raise e, s') -> bind m k s = (Raise e, s').
Proof. unfold bind. intros ->. reflexivity. Qed.

Lemma get_pipe_ok w a p : pipes w !! a = Some p -> get_pipe a w = (Ok p, w).
Proof. unfold get_pipe. intros ->. reflexivity. Qed.

Lemma update_pipe_lookup w a f p :
  pipes w !! a = Some p ->
  pipes (snd (update_pipe a f w)) !! a = Some (f p).
Proof.
  intros H. unfold update_pipe, modify. simpl.
  rewrite lookup_alter_eq, H. reflexivity.
Qed.

(** ** Python list indexing *)

Lemma in_range_spec {A} (l : list A) i :
  in_range l i = true <->
  - Z.of_nat (length l) <= i < Z.of_nat (length l).
Proof.
  unfold in_range, norm_index. destruct (Z.ltb_spec i 0);
    rewrite andb_true_iff, Z.leb_le, Z.ltb_lt; lia.
Qed.

Lemma norm_index_lt {A} (l : list A) i :
  in_range l i = true -> (Z.to_nat (norm_index l i) < length l)%nat.
Proof.
  intros H. pose proof (proj1 (in_range_spec l i) H).
  unfold norm_index. destruct (Z.ltb_spec i 0); lia.
Qed.

Lemma pop_in_range {A} (l : list A) i :
  in_range l i = true ->
  exists x, l !! Z.to_nat (norm_index l i) = Some x /\
            pop l i = Ok (x, delete (Z.to_nat (norm_index l i)) l).
Proof.
  intros H. unfold pop. rewrite H.
  destruct (lookup_lt_is_Some_2 l _ (norm_index_lt l i H)) as [x Hx].
  exists x. rewrite Hx. auto.
Qed.

Lemma pop_out_of_range {A} (l : list A) i :
  in_range l i = false -> pop l i = Raise IndexError.
Proof. intros H. unfold pop. rewrite H. reflexivity. Qed.

Lemma getitem_in_range {A} (l : list A) i x :
  getitem l i = Ok x <->
  in_range l i = true /\ l !! Z.to_nat (norm_index l i) = Some x.
Proof.
  unfold getitem. destruct (in_range l i); [|split; [discriminate|intros [? _]; discriminate]].
  destruct (l !! _); split; intros H; try discriminate; try tauto.
  - inversion H; auto.
  - destruct H as [_ H]. inversion H; auto.
  - destruct H as [_ H]. discriminate.
Qed.

(** ** The store *)

Lemma update_pipe_eq w a f p :
  pipes w !! a = Some p ->
  update_pipe a f w = (Ok tt, mkWorld (<[a := f p]> (pipes w)) (forks w) (next_id w)).
Proof.
  intros H. unfold update_pipe, modify. do 2 f_equal.
  apply map_eq. intros i. destruct (decide (a = i)) as [->|Hne].
  - rewrite lookup_alter_eq, lookup_insert_eq, H. reflexivity.
  - rewrite lookup_alter_ne, lookup_insert_ne by done. reflexivity.
Qed.

Lemma with_pipe_lookup w a p : pipes (with_pipe w a p) !! a = Some p.
Proof. apply lookup_insert_eq. Qed.

Lemma with_pipe_twice w a p q : with_pipe (with_pipe w a p) a q = with_pipe w a q.
Proof. unfold with_pipe. simpl. rewrite insert_insert_eq. reflexivity. Qed.

Lemma update_pipe_with w a f p :
  pipes w !! a = Some p -> update_pipe a f w = (Ok tt, with_pipe w a (f p)).
Proof. apply update_pipe_eq. Qed.

(** ** [remove_step] *)

Lemma remove_step_at_gen w self p :
  pipes w !! self = Some p ->
  exists msg, remove_step self (_gen_idx p) w = (Raise (CreatePipeException (name p) msg), w).
Proof.
  intros H. unfold remove_step. rewrite (bind_ok _ _ _ _ _ (get_pipe_ok _ _ _ H)).
  rewrite Z.eqb_refl. eexists. reflexivity.
Qed.

Lemma remove_step_before_gen w self p index :
  pipes w !! self = Some p ->
  index < _gen_idx p ->
  in_range (_steps p) index = true ->
  remove_step self index w =
    (Ok tt, with_pipe w self
              (mkPipe (name p) (_gen_idx p - 1)
                 (delete (Z.to_nat (norm_index (_steps p) index)) (_steps p))
                 (_pipe_id p) (parent p))).
Proof.
  intros H Hlt Hr. unfold remove_step.
  rewrite (bind_ok _ _ _ _ _ (get_pipe_ok _ _ _ H)).
  destruct (Z.eqb_spec index (_gen_idx p)); [lia|].
  destruct (pop_in_range _ _ Hr) as (x & _ & Hpop).
  unfold lift at 1. rewrite (bind_ok _ _ w (x, _) w) by (rewrite Hpop; reflexivity).
  rewrite (bind_ok _ _ _ _ _ (update_pipe_with _ _ _ _ H)).
  destruct (Z.ltb_spec index (_gen_idx p)); [|lia].
  rewrite (update_pipe_with _ _ _ _ (with_pipe_lookup _ _ _)).
  rewrite with_pipe_twice. reflexivity.
Qed.

Lemma remove_step_out_of_range w self p index :
  pipes w !! self = Some p ->
  index <> _gen_idx p ->
  in_range (_steps p) index = false ->
  remove_step self index w = (Raise IndexError, w).
Proof.
  intros H Hne Hr. unfold remove_step.
  rewrite (bind_ok _ _ _ _ _ (get_pipe_ok _ _ _ H)).
  destruct (Z.eqb_spec index (_gen_idx p)); [lia|].
  apply bind_raise. unfold lift. rewrite (pop_out_of_range _ _ Hr). reflexivity.
Qed.

(** C9. [remove_step(index)] with [index] equal to [_gen_idx] raises
    [CreatePipeException] and leaves the whole store, hence the step list and
    [_gen_idx], unchanged; with [index] strictly less than [_gen_idx] and
    designating a step of the list, it removes exactly that step and
    decrements [_gen_idx] by one. *)
Theorem remove_step_guard_and_shift w self p :
  pipes w !! self = Some p ->
  (exists msg,
     remove_step self (_gen_idx p) w = (Raise (CreatePipeException (name p) msg), w)) /\
  (forall index,
     index < _gen_idx p ->
     - len p <= index < len p ->
     remove_step self index w =
       (Ok tt, with_pipe w self
                 (mkPipe (name p) (_gen_idx p - 1)
                    (delete (Z.to_nat (norm_index (_steps p) index)) (_steps p))
                    (_pipe_id p) (parent p)))).
Proof.
  intros H. split.
  - apply remove_step_at_gen, H.
  - intros index Hlt Hr. apply remove_step_before_gen; auto.
    apply in_range_spec, Hr.
Qed.

Example resource_world_built :
  Pipe_init "numbers" [Ex.numbers; Ex.g_item_meta] None Ex.empty_world
  = (Ok 100%nat, Ex.resource_world).
Proof. vm_compute. reflexivity. Qed.

Example transformer_world_built :
  (let! t := Pipe_init "t" [Ex.g_item_meta] (Some 100%nat) in
   insert_step t Ex.h_item_meta 0) Ex.resource_world
  = (Ok tt, Ex.transformer_world).
Proof. vm_compute. reflexivity. Qed.

Lemma remove_step_guard_and_shift_witness :
  remove_step 101 0 Ex.transformer_world
  = (Ok tt, with_pipe Ex.transformer_world 101
              (mkPipe "t" 0 [Ex.g_item_meta] ("t", 101%nat) (Some 100%nat))).
Proof.
  apply (proj2 (remove_step_guard_and_shift Ex.transformer_world 101 Ex.transformer
                  eq_refl) 0); unfold len; simpl; lia.
Defined.

(** ** Edits of a pipe and its generator step *)

Ltac munfold :=
  unfold get_pipe, get_fork, update_pipe, update_fork, fresh, new_pipe, new_fork in *;
  unfold bind, ret, raise, lift, get, put, modify, try_except in *.

Lemma wrap_keeps_objects self n s w r w' :
  _wrap_transform_step_meta self n s w = (r, w') ->
  pipes w' = pipes w /\ forks w' = forks w.
Proof.
  unfold _wrap_transform_step_meta. munfold. intros H.
  repeat (case_match; simplify_eq/=); auto.
Qed.

Lemma gen_is_gen_of w self g : gen_is w self g -> gen_of w self = Ok g.
Proof. intros (p & Hp & _ & Hg). unfold gen_of. rewrite Hp. exact Hg. Qed.

Lemma gen_nonneg_lookup (p : Pipe) g :
  0 <= _gen_idx p ->
  gen p = Ok g <->
  _steps p !! Z.to_nat (_gen_idx p) = Some g.
Proof.
  intros H0. unfold gen. rewrite getitem_in_range.
  unfold in_range, norm_index. destruct (Z.ltb_spec (_gen_idx p) 0); [lia|].
  split; [tauto|]. intros Hl. split; [|exact Hl].
  apply lookup_lt_Some in Hl. rewrite andb_true_iff, Z.leb_le, Z.ltb_lt. lia.
Qed.

Lemma gen_is_alter w w' self g f :
  pipes w' = alter f self (pipes w) ->
  (forall p, 0 <= _gen_idx p -> gen p = Ok g -> 0 <= _gen_idx (f p) /\ gen (f p) = Ok g) ->
  gen_is w self g -> gen_is w' self g.
Proof.
  intros Hw Hf (p & Hp & H0 & Hg). exists (f p). rewrite Hw, lookup_alter_eq, Hp.
  split; [reflexivity|]. apply Hf; assumption.
Qed.

Lemma gen_is_same_pipes w w' self g :
  pipes w' = pipes w -> gen_is w self g -> gen_is w' self g.
Proof. intros Hw (p & Hp & H). exists p. rewrite Hw. auto. Qed.

Lemma append_keeps_gen_pipe (p : Pipe) g s :
  0 <= _gen_idx p -> gen p = Ok g ->
  0 <= _gen_idx (set_steps (_steps p ++ [s]) p) /\
  gen (set_steps (_steps p ++ [s]) p) = Ok g.
Proof.
  intros H0 Hg. split; [exact H0|].
  apply gen_nonneg_lookup in Hg; [|exact H0].
  apply gen_nonneg_lookup; [exact H0|]. simpl.
  rewrite lookup_app_l; [exact Hg|]. eapply lookup_lt_Some, Hg.
Qed.

Lemma append_step_keeps_gen w self g s :
  gen_is w self g -> gen_is (snd (append_step self s w)) self g.
Proof.
  intros Hgen. pose proof Hgen as (p & Hp & H0 & Hg).
  unfold append_step. rewrite (bind_ok _ _ _ _ _ (get_pipe_ok _ _ _ Hp)).
  destruct ((length (_steps p) =? 0)%nat && negb (has_parent p)).
  - unfold _verify_head_step. munfold.
    destruct (_ && _); simpl; [exact Hgen|].
    eapply gen_is_alter; [reflexivity| |exact Hgen].
    intros. apply append_keeps_gen_pipe; assumption.
  - unfold bind at 1.
    destruct (_wrap_transform_step_meta _ _ _ _) as [[s'|e] w1] eqn:E;
      apply wrap_keeps_objects in E as [E1 E2]; simpl.
    + eapply gen_is_alter; [reflexivity| |eapply gen_is_same_pipes; eauto].
      intros. apply append_keeps_gen_pipe; assumption.
    + eapply gen_is_same_pipes; eauto.
Qed.

Lemma insert_pos_nonneg {A} (l : list A) i :
  0 <= i -> insert_pos l i = Nat.min (Z.to_nat i) (length l).
Proof. intros H. unfold insert_pos. destruct (Z.ltb_spec i 0); lia. Qed.

Lemma lookup_py_insert_before {A} (l : list A) (n : nat) x (k : nat) :
  (n <= k)%nat -> (n <= length l)%nat ->
  (take n l ++ x :: drop n l) !! S k = l !! k.
Proof.
  intros Hnk Hn. rewrite lookup_app_r; rewrite length_take; [|lia].
  replace (S k - n `min` length l)%nat with (S (k - n)) by lia.
  simpl. rewrite lookup_drop. f_equal. lia.
Qed.

Lemma lookup_py_insert_after {A} (l : list A) (n : nat) x (k : nat) :
  (k < n)%nat -> (n <= length l)%nat ->
  (take n l ++ x :: drop n l) !! k = l !! k.
Proof.
  intros Hkn Hn. rewrite lookup_app_l by (rewrite length_take; lia).
  apply lookup_take_lt, Hkn.
Qed.

Lemma insert_keeps_gen_pipe (p : Pipe) g s index :
  0 <= index -> 0 <= _gen_idx p -> gen p = Ok g ->
  let p' := set_steps (Py.insert (_steps p) index s) p in
  let p'' := if index <=? _gen_idx p then set_gen_idx (_gen_idx p' + 1) p' else p' in
  0 <= _gen_idx p'' /\ gen p'' = Ok g.
Proof.
  intros Hi H0 Hg. apply gen_nonneg_lookup in Hg; [|exact H0].
  pose proof (lookup_lt_Some _ _ _ Hg) as Hlen.
  simpl. unfold Py.insert. rewrite (insert_pos_nonneg _ _ Hi).
  destruct (Z.leb_spec index (_gen_idx p)).
  - split; [simpl; lia|]. apply gen_nonneg_lookup; simpl; [lia|].
    replace (Z.to_nat (_gen_idx p + 1)) with (S (Z.to_nat (_gen_idx p))) by lia.
    rewrite lookup_py_insert_before; [exact Hg|lia|lia].
  - split; [simpl; lia|]. apply gen_nonneg_lookup; simpl; [lia|].
    rewrite lookup_py_insert_after; [exact Hg|lia|lia].
Qed.

Lemma insert_step_keeps_gen w self g s index :
  0 <= index ->
  gen_is w self g -> gen_is (snd (insert_step self s index w)) self g.
Proof.
  intros Hi Hgen. pose proof Hgen as (p & Hp & H0 & Hg).
  unfold insert_step. rewrite (bind_ok _ _ _ _ _ (get_pipe_ok _ _ _ Hp)).
  destruct (length (_steps p) =? 0)%nat; [apply append_step_keeps_gen, Hgen|].
  destruct ((index =? 0) && negb (has_parent p)); [exact Hgen|].
  unfold ret at 1. unfold bind at 1. unfold bind at 1.
  destruct (_wrap_transform_step_meta _ _ _ _) as [[s'|e] w1] eqn:E;
    apply wrap_keeps_objects in E as [E1 E2]; simpl;
    [|eapply gen_is_same_pipes; eauto].
  pose proof (insert_keeps_gen_pipe p g s' index Hi H0 Hg) as Hk. simpl in Hk.
  munfold. simpl. destruct (index <=? _gen_idx p); unfold gen_is; simpl;
    eexists; rewrite !lookup_alter_eq, E1, Hp; (split; [reflexivity|exact Hk]).
Qed.

Lemma remove_keeps_gen_pipe (p : Pipe) g index :
  0 <= index -> index <> _gen_idx p -> in_range (_steps p) index = true ->
  0 <= _gen_idx p -> gen p = Ok g ->
  let p' := set_steps (delete (Z.to_nat (norm_index (_steps p) index)) (_steps p)) p in
  let p'' := if index <? _gen_idx p then set_gen_idx (_gen_idx p' - 1) p' else p' in
  0 <= _gen_idx p'' /\ gen p'' = Ok g.
Proof.
  intros Hi Hne Hr H0 Hg. apply gen_nonneg_lookup in Hg; [|exact H0].
  simpl. unfold norm_index. destruct (Z.ltb_spec index 0); [lia|].
  destruct (Z.ltb_spec index (_gen_idx p)).
  - split; [simpl; lia|]. apply gen_nonneg_lookup; simpl; [lia|].
    rewrite list_lookup_delete_ge by lia.
    replace (S (Z.to_nat (_gen_idx p - 1))) with (Z.to_nat (_gen_idx p)) by lia.
    exact Hg.
  - split; [simpl; lia|]. apply gen_nonneg_lookup; simpl; [lia|].
    rewrite list_lookup_delete_lt by lia. exact Hg.
Qed.

Lemma remove_step_keeps_gen w self g index :
  0 <= index ->
  gen_is w self g -> gen_is (snd (remove_step self index w)) self g.
Proof.
  intros Hi Hgen. pose proof Hgen as (p & Hp & H0 & Hg).
  unfold remove_step. rewrite (bind_ok _ _ _ _ _ (get_pipe_ok _ _ _ Hp)).
  destruct (Z.eqb_spec index (_gen_idx p)); [exact Hgen|].
  destruct (in_range (_steps p) index) eqn:Hr.
  - destruct (pop_in_range _ _ Hr) as (x & _ & Hpop).
    pose proof (remove_keeps_gen_pipe p g index Hi n Hr H0 Hg) as Hk. simpl in Hk.
    munfold. rewrite Hpop. simpl. destruct (index <? _gen_idx p); unfold gen_is; simpl;
      eexists; rewrite !lookup_alter_eq, Hp; (split; [reflexivity|exact Hk]).
  - munfold. rewrite (pop_out_of_range _ _ Hr). exact Hgen.
Qed.

(** X23. With non-negative indices every call of [append_step],
    [insert_step] and [remove_step] keeps the generator step: a call
    either raises and changes nothing, or shifts [_gen_idx] along with the
    step it designates.  [remove_step] never removes the generator. *)
Theorem edits_keep_gen w self g ops :
  Forall op_index_nonneg ops ->
  gen_is w self g ->
  gen_of (run_ops self ops w) self = Ok g.
Proof.
  intros Hops. revert w. induction Hops as [|o ops Ho _ IH]; intros w Hgen.
  - apply gen_is_gen_of, Hgen.
  - simpl. apply IH. destruct o; simpl in *.
    + apply append_step_keeps_gen, Hgen.
    + apply insert_step_keeps_gen; assumption.
    + apply remove_step_keeps_gen; assumption.
Qed.

Lemma edits_keep_gen_witness :
  gen_of (run_ops 100 [OpAppend Ex.f_item; OpInsert Ex.h_item_meta 1; OpRemove 2; OpRemove 0]
            Ex.resource_world) 100
  = Ok Ex.numbers.
Proof.
  apply (edits_keep_gen Ex.resource_world 100 Ex.numbers
           [OpAppend Ex.f_item; OpInsert Ex.h_item_meta 1; OpRemove 2; OpRemove 0]).
  - repeat constructor; simpl; lia.
  - exists Ex.resource. split_and!; [reflexivity|simpl; lia|reflexivity].
Defined.

(** C5. The specification states that no sequence of [append_step],
    [insert_step] and [remove_step] calls changes the step returned by [gen].
    Here the code is
    run on [Pipe("numbers", [numbers, g]).insert_step(f, -1)]: the list
    inserts [f] before the last step, that is after the generator, yet
    [_gen_idx] is increased because [-1 <= 0]; [gen] was [numbers] and is the
    wrapped [f] afterwards. *)
Theorem insert_step_negative_index_moves_gen :
  gen_of Ex.resource_world 100 = Ok Ex.numbers /\
  fst (insert_step 100 Ex.f_item (-1) Ex.resource_world) = Ok tt /\
  gen_of (snd (insert_step 100 Ex.f_item (-1) Ex.resource_world)) 100
    = Ok (wrap_meta 101 Ex.f_item) /\
  gen_of (run_ops 100 [OpInsert Ex.f_item (-1)] Ex.resource_world) 100
    <> gen_of Ex.resource_world 100.
Proof. vm_compute. repeat split; try reflexivity. discriminate. Qed.

(** ** [fork] *)

Lemma tail_nonempty (p : Pipe) :
  _steps p <> [] -> exists s, tail p = Ok s /\ last (_steps p) = Some s.
Proof.
  intros Hne. destruct (last (_steps p)) as [s|] eqn:Hl.
  - exists s. split; [|reflexivity]. unfold tail. apply getitem_in_range.
    rewrite last_lookup in Hl. pose proof (lookup_lt_Some _ _ _ Hl) as Hlt.
    split.
    + apply in_range_spec. lia.
    + unfold norm_index. simpl. rewrite <- Hl. f_equal. lia.
  - apply last_None in Hl. contradiction.
Qed.

Lemma tail_append (p : Pipe) s :
  tail (set_steps (_steps p ++ [s]) p) = Ok s.
Proof.
  destruct (tail_nonempty (set_steps (_steps p ++ [s]) p)) as (s' & Ht & Hl).
  - simpl. intros H. apply app_eq_nil in H as [_ H]. discriminate.
  - simpl in Hl. rewrite last_snoc in Hl. congruence.
Qed.

Lemma edges_to_elem child (f : ForkPipe) :
  child ∈ (fst <$> _pipes f) <-> (0 < edges_to child f)%nat.
Proof.
  unfold edges_to. induction (_pipes f) as [|[c s] l IH]; simpl.
  - split; [intros H; inversion H|lia].
  - rewrite elem_of_cons, filter_cons. simpl. destruct (decide (c = child)); simpl.
    + split; [lia|auto].
    + rewrite IH. split; [intros [->|H]; [contradiction|exact H]|auto].
Qed.

Lemma edges_to_snoc child (f : ForkPipe) step cof :
  edges_to child (mkForkPipe (_pipes f ++ [(child, step)]) cof)
  = S (edges_to child f).
Proof.
  unfold edges_to. simpl. rewrite filter_app, length_app, filter_cons. simpl.
  rewrite decide_True by reflexivity. simpl. lia.
Qed.

(** [fork] on a pipe whose tail is a fork that already leads to [child]. *)
Lemma fork_present w self p r f child step cof :
  pipes w !! self = Some p -> _steps p <> [] ->
  tail p = Ok (SForkPipe r) -> forks w !! r = Some f ->
  child ∈ (fst <$> _pipes f) ->
  fork self child step cof w = (Ok tt, w).
Proof.
  intros Hp Hne Ht Hf Hin. unfold fork.
  rewrite (bind_ok _ _ _ _ _ (get_pipe_ok _ _ _ Hp)).
  assert (Hlen : (length (_steps p) =? 0)%nat = false)
    by (destruct (_steps p); [contradiction|reflexivity]).
  rewrite Hlen. unfold ForkPipeM.has_pipe. munfold. rewrite Ht, Hf.
  rewrite bool_decide_eq_true_2 by exact Hin. reflexivity.
Qed.

Lemma pipe_never_eq_edge pipe l : existsb (ForkPipeM.pipe_eq_edge pipe) l = false.
Proof. induction l; simpl; auto. Qed.

(** [add_pipe] appends the edge, whatever the list holds. *)
Lemma add_pipe_appends w r f pipe step :
  forks w !! r = Some f ->
  ForkPipeM.add_pipe r pipe step w =
    (Ok tt, with_fork w r (mkForkPipe (_pipes f ++ [(pipe, step)]) (copy_on_fork f))).
Proof.
  intros Hf. unfold ForkPipeM.add_pipe. munfold. rewrite Hf, pipe_never_eq_edge.
  simpl. unfold with_fork. do 2 f_equal.
  apply map_eq. intros i. destruct (decide (r = i)) as [->|Hne'].
  - rewrite lookup_alter_eq, lookup_insert_eq, Hf. reflexivity.
  - rewrite lookup_alter_ne, lookup_insert_ne by done. reflexivity.
Qed.

(** [fork] on a pipe whose tail is a fork that does not lead to [child]. *)
Lemma fork_absent w self p r f child step cof :
  pipes w !! self = Some p -> _steps p <> [] ->
  tail p = Ok (SForkPipe r) -> forks w !! r = Some f ->
  child ∉ (fst <$> _pipes f) ->
  fork self child step cof w =
    (Ok tt, with_fork w r (mkForkPipe (_pipes f ++ [(child, step)]) (copy_on_fork f))).
Proof.
  intros Hp Hne Ht Hf Hin. unfold fork.
  rewrite (bind_ok _ _ _ _ _ (get_pipe_ok _ _ _ Hp)).
  assert (Hlen : (length (_steps p) =? 0)%nat = false)
    by (destruct (_steps p); [contradiction|reflexivity]).
  rewrite Hlen. unfold lift at 1. rewrite (bind_ok _ _ w (SForkPipe r) w)
    by (rewrite Ht; reflexivity).
  assert (Hhas : ForkPipeM.has_pipe r child w = (Ok false, w)).
  { unfold ForkPipeM.has_pipe. munfold. rewrite Hf.
    rewrite bool_decide_eq_false_2 by exact Hin. reflexivity. }
  rewrite (bind_ok _ _ _ _ _ Hhas). simpl. apply add_pipe_appends, Hf.
Qed.

(** A [ForkPipe] is admitted as a transform step as it is. *)
Lemma wrap_fork_step w self p n r :
  pipes w !! self = Some p ->
  (length (_steps p) =? 0)%nat = false ->
  _wrap_transform_step_meta self n (SForkPipe r) w = (Ok (SForkPipe r), w).
Proof.
  intros Hp Hlen. unfold _wrap_transform_step_meta.
  rewrite (bind_ok _ _ _ _ _ (get_pipe_ok _ _ _ Hp)).
  simpl. unfold is_empty. rewrite Hlen. reflexivity.
Qed.

(** [fork] on a pipe whose tail is not a fork. *)
Lemma fork_new w self p s child step cof :
  pipes w !! self = Some p -> _steps p <> [] ->
  tail p = Ok s -> is_ForkPipe s = false ->
  fork self child step cof w =
    (Ok tt,
     mkWorld (<[self := set_steps (_steps p ++ [SForkPipe (next_id w)]) p]> (pipes w))
             (<[next_id w := mkForkPipe [(child, step)] cof]> (forks w))
             (S (next_id w))).
Proof.
  intros Hp Hne Ht Hnf. unfold fork.
  rewrite (bind_ok _ _ _ _ _ (get_pipe_ok _ _ _ Hp)).
  assert (Hlen : (length (_steps p) =? 0)%nat = false)
    by (destruct (_steps p); [contradiction|reflexivity]).
  rewrite Hlen.
  assert (Hinit : ForkPipeM.init child step cof w =
            (Ok (next_id w),
             mkWorld (pipes w) (<[next_id w := mkForkPipe [(child, step)] cof]> (forks w))
                     (S (next_id w)))).
  { unfold ForkPipeM.init. unfold bind at 1, new_fork at 1.
    rewrite (bind_ok _ _ _ _ _ (add_pipe_appends _ (next_id w) (mkForkPipe [] cof) _ _
                                  (lookup_insert_eq _ _ _))).
    unfold ret, with_fork. simpl. rewrite insert_insert_eq. reflexivity. }
  assert (Happ : forall w0, pipes w0 = pipes w ->
            append_step self (SForkPipe (next_id w)) w0 =
            (Ok tt, mkWorld (<[self := set_steps (_steps p ++ [SForkPipe (next_id w)]) p]>
                               (pipes w0)) (forks w0) (next_id w0))).
  { intros w0 Hw0. unfold append_step.
    assert (Hp0 : pipes w0 !! self = Some p) by (rewrite Hw0; exact Hp).
    rewrite (bind_ok _ _ _ _ _ (get_pipe_ok _ _ _ Hp0)).
    rewrite Hlen. simpl andb. cbv iota.
    rewrite (bind_ok _ _ _ _ _ (wrap_fork_step _ _ _ _ _ Hp0 Hlen)).
    rewrite (update_pipe_eq _ _ _ _ Hp0). reflexivity. }
  unfold lift at 1. rewrite (bind_ok _ _ w s w) by (rewrite Ht; reflexivity).
  destruct s; try discriminate;
    rewrite (bind_ok _ _ _ _ _ Hinit), Happ by reflexivity; reflexivity.
Qed.

(** C6. [fork] is idempotent per child.  On a non-empty pipe, after
    [fork(child, ...)] a second [fork(child, ...)] changes nothing: the tail is
    one fork step holding exactly one edge to [child] (when the tail was a fork
    already, it is that same fork, which is assumed not to hold two edges to
    [child] beforehand).  When the tail was not a fork, the first call appends
    a new fork whose only edge is [(child, child_step)], with the given
    [copy_on_fork]. *)
Theorem fork_twice_single_edge w self p child step cof step' cof' :
  pipes w !! self = Some p ->
  _steps p <> [] ->
  (forall r, tail p = Ok (SForkPipe r) ->
     exists f, forks w !! r = Some f /\ (edges_to child f <= 1)%nat) ->
  exists w1 p1 r f1,
    fork self child step cof w = (Ok tt, w1) /\
    fork self child step' cof' w1 = (Ok tt, w1) /\
    pipes w1 !! self = Some p1 /\
    tail p1 = Ok (SForkPipe r) /\
    forks w1 !! r = Some f1 /\
    edges_to child f1 = 1%nat /\
    (forall s, tail p = Ok s -> is_ForkPipe s = false ->
       _steps p1 = _steps p ++ [SForkPipe r] /\
       f1 = mkForkPipe [(child, step)] cof) /\
    (forall s, tail p = Ok s -> is_ForkPipe s = true -> _steps p1 = _steps p).
Proof.
  intros Hp Hne Hwf. destruct (tail_nonempty p Hne) as (s & Ht & _).
  destruct (is_ForkPipe s) eqn:Hs.
  - destruct s as [| | |r|]; try discriminate.
    destruct (Hwf r Ht) as (f & Hf & Hle).
    destruct (decide (child ∈ (fst <$> _pipes f))) as [Hin|Hnin].
    + exists w, p, r, f.
      rewrite !(fork_present w self p r f) by assumption.
      split_and!; try assumption; try reflexivity.
      * apply edges_to_elem in Hin. lia.
      * intros s Hs' Hnf. rewrite Ht in Hs'. inversion Hs'; subst. discriminate.
    + set (f1 := mkForkPipe (_pipes f ++ [(child, step)]) (copy_on_fork f)).
      exists (with_fork w r f1), p, r, f1.
      rewrite (fork_absent w self p r f) by assumption. fold f1.
      assert (Hf1 : forks (with_fork w r f1) !! r = Some f1) by apply lookup_insert_eq.
      assert (Hin1 : child ∈ (fst <$> _pipes f1)).
      { apply edges_to_elem. unfold f1. rewrite edges_to_snoc. lia. }
      rewrite (fork_present (with_fork w r f1) self p r f1) by assumption.
      split_and!; try assumption; try reflexivity.
      * unfold f1. rewrite edges_to_snoc.
        assert (~ (0 < edges_to child f)%nat) by (rewrite <- edges_to_elem; exact Hnin).
        lia.
      * intros s Hs' Hnf. rewrite Ht in Hs'. inversion Hs'; subst. discriminate.
  - set (r := next_id w).
    set (p1 := set_steps (_steps p ++ [SForkPipe r]) p).
    set (f1 := mkForkPipe [(child, step)] cof).
    set (w1 := mkWorld (<[self := p1]> (pipes w)) (<[r := f1]> (forks w)) (S r)).
    exists w1, p1, r, f1.
    rewrite (fork_new w self p s) by assumption. fold r p1 f1 w1.
    assert (Hp1 : pipes w1 !! self = Some p1) by apply lookup_insert_eq.
    assert (Hf1 : forks w1 !! r = Some f1) by apply lookup_insert_eq.
    assert (Ht1 : tail p1 = Ok (SForkPipe r)) by apply tail_append.
    assert (Hne1 : _steps p1 <> []).
    { simpl. intros H. apply app_eq_nil in H as [_ H]. discriminate. }
    assert (Hin1 : child ∈ (fst <$> _pipes f1)).
    { simpl. apply list_elem_of_singleton. reflexivity. }
    rewrite (fork_present w1 self p1 r f1) by assumption.
    split_and!; try assumption; try reflexivity.
    + unfold edges_to, f1. simpl. rewrite filter_cons. simpl.
      rewrite decide_True by reflexivity. reflexivity.
    + intros s' Hs' Hf'. split; reflexivity.
    + intros s' Hs' Hf'. rewrite Ht in Hs'. inversion Hs'; subst. congruence.
Qed.

Lemma fork_twice_single_edge_witness :
  exists w1 p1 r f1,
    fork 100 101 (-1) false Ex.transformer_world = (Ok tt, w1) /\
    fork 100 101 (-1) false w1 = (Ok tt, w1) /\
    pipes w1 !! 100%nat = Some p1 /\
    tail p1 = Ok (SForkPipe r) /\
    forks w1 !! r = Some f1 /\
    edges_to 101 f1 = 1%nat /\
    (forall s, tail Ex.resource = Ok s -> is_ForkPipe s = false ->
       _steps p1 = _steps Ex.resource ++ [SForkPipe r] /\
       f1 = mkForkPipe [(101%nat, -1)] false) /\
    (forall s, tail Ex.resource = Ok s -> is_ForkPipe s = true ->
       _steps p1 = _steps Ex.resource).
Proof.
  apply (fork_twice_single_edge Ex.transformer_world 100 Ex.resource 101 (-1) false
           (-1) false).
  - reflexivity.
  - simpl. discriminate.
  - intros r Hr. vm_compute in Hr. discriminate.
Defined.

(** ** [ForkPipe.__call__] *)

Lemma carried_mono cof i item it w1 w2 w0 w3 :
  (next_id w0 <= next_id w1)%nat -> (next_id w2 <= next_id w3)%nat ->
  carried cof i item it w1 w2 -> carried cof i item it w0 w3.
Proof.
  unfold carried. intros H1 H2. destruct (_ || _); [auto|].
  intros (a & Ha & ->). exists a. split; [lia|reflexivity].
Qed.

Lemma call_from_spec cof edges : forall i0 item meta w,
  exists l w',
    ForkPipeM.call_from cof i0 edges item meta w = (Ok l, w') /\
    length l = length edges /\
    pipes w' = pipes w /\ forks w' = forks w /\
    (next_id w <= next_id w')%nat /\
    forall k pipe step,
      edges !! k = Some (pipe, step) ->
      exists it, l !! k = Some (ResolvablePipeItem it step pipe meta) /\
                 carried cof (i0 + k) item it w w'.
Proof.
  induction edges as [|[pipe step] rest IH]; intros i0 item meta w.
  - exists [], w. simpl. split_and!; try reflexivity. intros k ? ? Hk. inversion Hk.
  - simpl. destruct ((i0 =? 0)%nat || negb cof) eqn:Hc.
    + destruct (IH (S i0) item meta w) as (l & w' & Hrun & Hlen & Hp & Hf & Hn & Hk).
      exists (ResolvablePipeItem item step pipe meta :: l), w'.
      munfold. rewrite Hrun. simpl. split_and!; auto.
      intros [|k] pipe' step' Hl; simpl in *.
      * inversion Hl; subst. eexists. split; [reflexivity|].
        unfold carried. rewrite Nat.add_0_r, Hc. reflexivity.
      * destruct (Hk k pipe' step' Hl) as (it & Hit & Hcar). exists it.
        split; [exact Hit|]. replace (i0 + S k)%nat with (S i0 + k)%nat by lia.
        exact Hcar.
    + set (w1 := mkWorld (pipes w) (forks w) (S (next_id w))).
      destruct (IH (S i0) item meta w1) as (l & w' & Hrun & Hlen & Hp & Hf & Hn & Hk).
      exists (ResolvablePipeItem (ForkPipeM.copy (next_id w) item) step pipe meta :: l), w'.
      munfold. simpl. fold w1. rewrite Hrun. simpl in *. split_and!; auto; try lia.
      intros [|k] pipe' step' Hl; simpl in *.
      * inversion Hl; subst. eexists. split; [reflexivity|].
        unfold carried. rewrite Nat.add_0_r, Hc. exists (next_id w). split; [lia|reflexivity].
      * destruct (Hk k pipe' step' Hl) as (it & Hit & Hcar). exists it.
        split; [exact Hit|]. replace (i0 + S k)%nat with (S i0 + k)%nat by lia.
        eapply carried_mono; [| |exact Hcar]; simpl; lia.
Qed.


Example fork_call_three_edges :
  fst (ForkPipeM.call 50 (PyData 7 42) (Some 1) Ex.fork_world)
  = Ok (PyIterator [ResolvablePipeItem (PyData 7 42) (-1) 100 (Some 1);
                    ResolvablePipeItem (PyData 200 42) (-1) 101 (Some 1);
                    ResolvablePipeItem (PyData 201 42) 0 102 (Some 1)] None).
Proof. vm_compute. reflexivity. Qed.


(** ** [evaluate_gen] *)

Lemma set_steps_same (p : Pipe) : set_steps (_steps p) p = p.
Proof. destruct p; reflexivity. Qed.

Lemma update_pipe_same w self p :
  pipes w !! self = Some p ->
  update_pipe self (set_steps (_steps p)) w = (Ok tt, w).
Proof.
  intros Hp. rewrite (update_pipe_eq _ _ _ _ Hp), set_steps_same.
  rewrite insert_id by exact Hp. destruct w; reflexivity.
Qed.

Lemma is_data_bound_parentless w self p :
  pipes w !! self = Some p -> parent p = None ->
  is_data_bound self w = (Ok (negb (is_empty p)), w).
Proof.
  intros Hp Hpar. unfold is_data_bound.
  change recursion_limit with (S 999). simpl. rewrite Hp, Hpar. reflexivity.
Qed.

(** On a parentless pipe whose step 0 is the generator and an iterator,
    [evaluate_gen] writes the same object back. *)
Lemma evaluate_gen_on_iterator env w self p g :
  pipes w !! self = Some p -> parent p = None -> _gen_idx p = 0 ->
  gen p = Ok g -> is_Iterator g = true ->
  evaluate_gen env self w = (Ok tt, w).
Proof.
  intros Hp Hpar Hidx Hg Hit. unfold evaluate_gen.
  rewrite (bind_ok _ _ _ _ _ (is_data_bound_parentless _ _ _ Hp Hpar)).
  rewrite (bind_ok _ _ _ _ _ (get_pipe_ok _ _ _ Hp)).
  assert (Hl : _steps p !! 0%nat = Some g).
  { apply gen_nonneg_lookup in Hg; rewrite Hidx in *; [exact Hg|lia]. }
  assert (Hne : is_empty p = false).
  { unfold is_empty. apply lookup_lt_Some in Hl. apply Nat.eqb_neq. lia. }
  rewrite Hne. cbn [negb].
  unfold lift at 1. rewrite (bind_ok _ _ w g w) by (rewrite Hg; reflexivity).
  unfold has_parent. rewrite Hpar. cbn [negb].
  destruct g; try discriminate. simpl.
  assert (Hset : setitem (_steps p) 0 (SIterator oid it) = Ok (_steps p)).
  { unfold setitem. assert (Hr : in_range (_steps p) 0 = true).
    { apply in_range_spec. apply lookup_lt_Some in Hl. lia. }
    rewrite Hr. unfold norm_index. simpl. rewrite list_insert_id by exact Hl.
    reflexivity. }
  munfold. rewrite Hset. apply (update_pipe_same _ _ _ Hp).
Qed.

Lemma evaluate_gen_keeps_fields env self w r w' p :
  pipes w !! self = Some p ->
  evaluate_gen env self w = (r, w') ->
  exists p', pipes w' !! self = Some p' /\
             parent p' = parent p /\ _gen_idx p' = _gen_idx p.
Proof.
  intros Hp H. unfold evaluate_gen in H. unfold bind at 1 in H.
  unfold is_data_bound in H.
  destruct (is_data_bound_rec recursion_limit w self) as [b|e];
    [|inversion H; subst; eauto].
  unfold call_noargs, iter in H. munfold. rewrite Hp in H.
  repeat (case_match; simplify_eq/=);
    rewrite ?lookup_alter_eq, ?Hp; simpl; eauto.
Qed.

(** C10. [evaluate_gen] is idempotent on a parentless pipe: once a
    successful call has installed an iterator as the head (step 0, the
    generator step of a parentless pipe), a second call leaves the store, hence
    the step list, unchanged. *)
Theorem evaluate_gen_idempotent env w self p w1 p1 g1 :
  pipes w !! self = Some p -> parent p = None -> _gen_idx p = 0 ->
  evaluate_gen env self w = (Ok tt, w1) ->
  pipes w1 !! self = Some p1 -> gen p1 = Ok g1 -> is_Iterator g1 = true ->
  evaluate_gen env self w1 = (Ok tt, w1).
Proof.
  intros Hp Hpar Hidx Hrun Hp1 Hg1 Hit.
  destruct (evaluate_gen_keeps_fields _ _ _ _ _ _ Hp Hrun) as (p' & Hp' & Hpar' & Hidx').
  rewrite Hp1 in Hp'. inversion Hp'; subst p'.
  eapply evaluate_gen_on_iterator; eauto; congruence.
Qed.

Example producer_evaluated :
  evaluate_gen Ex.env 100 Ex.producer_world = (Ok tt, Ex.produced_world).
Proof. vm_compute. reflexivity. Qed.

Lemma evaluate_gen_idempotent_witness :
  evaluate_gen Ex.env 100 Ex.produced_world = (Ok tt, Ex.produced_world).
Proof.
  apply (evaluate_gen_idempotent Ex.env Ex.producer_world 100 Ex.producer_pipe
           Ex.produced_world Ex.produced_pipe Ex.produced);
    vm_compute; reflexivity.
Defined.

(** ** [clone_pipes] *)

(** C4. The specification states that after [clone_pipes(S)] no pipe
    reachable through a clone's parent chain is an original; so it is when
    every parent has steps ([clone_pipes_parents_with_steps] below).  Here
    the code is run on
    [S = [t]], where [t], at address 101, is a transformer whose parent, at
    address 100, has no step yet: the test [if not clone.parent] takes the
    empty parent for no parent (a pipe has a [__len__]), the loop breaks, and
    the clone of [t], at address 102, keeps the original pipe 100 as parent. *)
Theorem clone_pipes_keeps_empty_parent :
  fst (clone_pipes 10 [101%nat] Ex.unbound_world) = Ok (Some [102%nat]) /\
  parent <$> pipes (snd (clone_pipes 10 [101%nat] Ex.unbound_world)) !! 102%nat
    = Some (Some 100%nat) /\
  pipes Ex.unbound_world !! 100%nat = Some Ex.no_steps /\
  pipes (snd (clone_pipes 10 [101%nat] Ex.unbound_world)) !! 100%nat
    = Some Ex.no_steps.
Proof. vm_compute. repeat split; reflexivity. Qed.

(** *** [clone_pipes] when every parent has steps *)

Section CloneProof.
Context (w0 : World) (rank : addr -> nat).
Context (Halloc : allocated w0) (Hpar : parents_have_steps w0 rank).

Lemma original_parent_old (a : addr) p (q : addr) :
  pipes w0 !! a = Some p -> parent p = Some q -> (q < next_id w0)%nat.
Proof.
  intros Ha Hq. destruct (Hpar a p q Ha Hq) as (pq & Hpq & _).
  apply Halloc. eauto.
Qed.

Lemma settled_clone_of w pairs c o : settled w0 w pairs c o -> clone_of w0 w pairs c o.
Proof.
  intros (pc & po & H1 & H2 & H3 & H4 & H5 & H6 & H7).
  exists pc, po. split_and!; auto.
  destruct (parent po) as [q|] eqn:E.
  - destruct H7 as (c' & G1 & G2). right. eauto.
  - left. exact H7.
Qed.

Lemma clone_of_fresh w pairs c o : clone_of w0 w pairs c o -> (next_id w0 <= c)%nat.
Proof. intros (pc & po & H1 & H2 & H3 & _). exact H3. Qed.

Lemma clone_of_exists w pairs c o : clone_of w0 w pairs c o -> is_Some (pipes w !! c).
Proof. intros (pc & po & H1 & _). eauto. Qed.

Lemma clone_of_origin w pairs c o : clone_of w0 w pairs c o -> is_Some (pipes w0 !! o).
Proof. intros (pc & po & H1 & H2 & _). eauto. Qed.

(** A clone whose parent is a fresh object is settled. *)
Lemma clone_of_fresh_parent w pairs c o pc q :
  clone_of w0 w pairs c o -> pipes w !! c = Some pc -> parent pc = Some q ->
  (next_id w0 <= q)%nat -> settled w0 w pairs c o.
Proof.
  intros (pc' & po & H1 & H2 & H3 & H4 & H5 & H6 & H7) Hc Hq Hfresh.
  rewrite Hc in H1. inversion H1; subst pc'.
  exists pc, po. split_and!; auto.
  destruct H7 as [H7|(q0 & c0 & G1 & G2 & G3)].
  - rewrite Hq in H7. symmetry in H7.
    pose proof (original_parent_old _ _ _ H2 H7). lia.
  - rewrite G1. eauto.
Qed.

(** A clone whose parent is an original is not settled yet: its original
    has that parent. *)
Lemma clone_of_old_parent w pairs T c o pc q :
  clone_inv w0 w pairs T ->
  clone_of w0 w pairs c o -> pipes w !! c = Some pc -> parent pc = Some q ->
  (q < next_id w0)%nat ->
  exists po, pipes w0 !! o = Some po /\ parent po = Some q.
Proof.
  intros (_ & _ & _ & _ & I4 & _) (pc' & po & H1 & H2 & H3 & H4 & H5 & H6 & H7) Hc Hq Hold.
  rewrite Hc in H1. inversion H1; subst pc'.
  exists po. split; [exact H2|].
  destruct H7 as [H7|(q0 & c0 & G1 & G2 & G3)].
  - congruence.
  - apply I4 in G2. apply clone_of_fresh in G2. rewrite Hq in G3. inversion G3; subst. lia.
Qed.

Lemma clone_of_no_parent w pairs c o pc :
  clone_of w0 w pairs c o -> pipes w !! c = Some pc -> parent pc = None ->
  settled w0 w pairs c o.
Proof.
  intros (pc' & po & H1 & H2 & H3 & H4 & H5 & H6 & H7) Hc Hq.
  rewrite Hc in H1. inversion H1; subst pc'.
  exists pc, po. split_and!; auto.
  destruct H7 as [H7|(q0 & c0 & G1 & G2 & G3)]; [|congruence].
  rewrite <- H7, Hq. reflexivity.
Qed.

Lemma clone_inv_weaken w pairs (T T' : addr -> Prop) :
  (forall c, T c -> T' c) -> clone_inv w0 w pairs T -> clone_inv w0 w pairs T'.
Proof.
  intros HT (I0 & I1 & I2 & I3 & I4 & I5 & I6). split_and!; auto.
  intros c o Hc. destruct (I5 c o Hc); auto.
Qed.


Lemma clone_of_mono w pairs pairs2 c o :
  (forall k v, pairs !! k = Some v -> pairs2 !! k = Some v) ->
  clone_of w0 w pairs c o -> clone_of w0 w pairs2 c o.
Proof.
  intros Hsub (pc & po & H1 & H2 & H3 & H4 & H5 & H6 & H7).
  exists pc, po. split_and!; auto.
  destruct H7 as [H7|(q0 & c0 & G1 & G2 & G3)]; [left; exact H7|right].
  exists q0, c0. auto.
Qed.

Lemma settled_mono w pairs pairs2 c o :
  (forall k v, pairs !! k = Some v -> pairs2 !! k = Some v) ->
  settled w0 w pairs c o -> settled w0 w pairs2 c o.
Proof.
  intros Hsub (pc & po & H1 & H2 & H3 & H4 & H5 & H6 & H7).
  exists pc, po. split_and!; auto.
  destruct (parent po); [|exact H7]. destruct H7 as (c' & G1 & G2). eauto.
Qed.

Lemma clone_of_same_pipe w w2 pairs c o :
  pipes w2 !! c = pipes w !! c ->
  clone_of w0 w pairs c o -> clone_of w0 w2 pairs c o.
Proof.
  intros Heq (pc & po & H1 & H2). exists pc, po. rewrite Heq. auto.
Qed.

Lemma settled_same_pipe w w2 pairs c o :
  pipes w2 !! c = pipes w !! c ->
  settled w0 w pairs c o -> settled w0 w2 pairs c o.
Proof.
  intros Heq (pc & po & H1 & H2). exists pc, po. rewrite Heq. auto.
Qed.

Lemma clone_run w (q : addr) pq :
  pipes w !! q = Some pq -> _clone q true w = (Ok (next_id w), cloned w pq).
Proof.
  intros Hq. unfold _clone. rewrite (bind_ok _ _ _ _ _ (get_pipe_ok _ _ _ Hq)).
  unfold bind at 1, new_pipe at 1.
  erewrite (bind_ok _ _ _ tt); [|apply update_pipe_eq; apply lookup_insert_eq].
  erewrite (bind_ok _ _ _ tt); [|apply update_pipe_eq; apply lookup_insert_eq].
  unfold ret, cloned. simpl. rewrite !insert_insert_eq. reflexivity.
Qed.

Lemma alloc_clone_inv w pairs T (q : addr) pq :
  clone_inv w0 w pairs T -> pipes w0 !! q = Some pq ->
  clone_inv w0 (cloned w pq) pairs (fun c => T c \/ c = next_id w) /\
  clone_of w0 (cloned w pq) pairs (next_id w) q /\
  (forall c o, clone_of w0 w pairs c o -> clone_of w0 (cloned w pq) pairs c o) /\
  (forall c pc, pipes (cloned w pq) !! c = Some pc -> parent pc <> Some (next_id w)).
Proof.
  intros (I0 & I1 & I2 & I3 & I4 & I5 & I6) Hq.
  assert (Hnew : pipes w !! next_id w = None).
  { destruct (pipes w !! next_id w) eqn:E; [|reflexivity].
    assert (next_id w < next_id w)%nat by (apply I1; eauto). lia. }
  assert (Hold : forall c, c <> next_id w -> pipes (cloned w pq) !! c = pipes w !! c).
  { intros c Hc. simpl. apply lookup_insert_ne. auto. }
  assert (Hstab : forall c o, clone_of w0 w pairs c o -> clone_of w0 (cloned w pq) pairs c o).
  { intros c o Hc. apply (clone_of_same_pipe w); [|exact Hc].
    apply Hold. intros ->. apply clone_of_exists in Hc. rewrite Hnew in Hc.
    destruct Hc; discriminate. }
  assert (Hqold : (q < next_id w0)%nat) by (apply Halloc; eauto).
  assert (Hc' : clone_of w0 (cloned w pq) pairs (next_id w) q).
  { eexists _, pq. split; [apply lookup_insert_eq|]. split_and!; auto. }
  split_and!; auto.
  - split_and!.
    + simpl. lia.
    + intros a Ha. simpl in *. destruct (decide (a = next_id w)) as [->|Hne]; [lia|].
      rewrite lookup_insert_ne in Ha by auto. apply I1 in Ha. lia.
    + intros a Ha. rewrite Hold by lia. apply I2, Ha.
    + intros c Hc Hex. destruct (decide (c = next_id w)) as [->|Hne]; [eauto|].
      rewrite Hold in Hex by auto. destruct (I3 c Hc Hex) as (o & Ho). eauto.
    + intros k v Hk. apply Hstab, I4, Hk.
    + intros c o Hc. destruct (decide (c = next_id w)) as [->|Hne]; [left; right; reflexivity|].
      assert (Hc0 : clone_of w0 w pairs c o).
      { apply (clone_of_same_pipe (cloned w pq)); [symmetry; apply Hold, Hne|exact Hc]. }
      destruct (I5 c o Hc0) as [Ht|Hs]; [left; left; exact Ht|right].
      apply (settled_same_pipe w); [apply Hold, Hne|exact Hs].
    + intros c pc p' Hc Hp'. destruct (decide (c = next_id w)) as [->|Hne].
      * simpl in Hc. rewrite lookup_insert_eq in Hc. inversion Hc; subst pc. simpl in Hp'.
        destruct (Hpar q pq p' Hq Hp') as (pp & Hpp & _).
        assert (p' < next_id w0)%nat by (apply Halloc; eauto).
        rewrite Hold by lia. rewrite I2 by lia. eauto.
      * rewrite Hold in Hc by auto. destruct (I6 c pc p' Hc Hp') as [pp Hpp].
        assert (p' < next_id w)%nat by (apply I1; eauto).
        rewrite Hold by lia. eauto.
  - intros c pc Hc Hp'. destruct (decide (c = next_id w)) as [->|Hne].
    + simpl in Hc. rewrite lookup_insert_eq in Hc. inversion Hc; subst pc. simpl in Hp'.
      pose proof (original_parent_old _ _ _ Hq Hp'). lia.
    + rewrite Hold in Hc by auto. destruct (I6 c pc _ Hc Hp') as [pp Hpp].
      rewrite Hnew in Hpp. discriminate.
Qed.

Lemma insert_pair_inv w pairs T (q c' : addr) :
  clone_inv w0 w pairs T -> pairs !! q = None ->
  clone_of w0 w pairs c' q ->
  (forall c pc, pipes w !! c = Some pc -> parent pc <> Some c') ->
  clone_inv w0 w (<[q := c']> pairs) T.
Proof.
  intros (I0 & I1 & I2 & I3 & I4 & I5 & I6) Hq Hc' Hnop.
  assert (Hsub : forall k v, pairs !! k = Some v -> <[q := c']> pairs !! k = Some v).
  { intros k v Hk. rewrite lookup_insert_ne; [exact Hk|]. intros ->. congruence. }
  split_and!; auto.
  - intros c Hc Hex. destruct (I3 c Hc Hex) as (o & Ho). exists o.
    eapply clone_of_mono; eauto.
  - intros k v Hk. destruct (decide (q = k)) as [->|Hne].
    + rewrite lookup_insert_eq in Hk. inversion Hk; subst. eapply clone_of_mono; eauto.
    + rewrite lookup_insert_ne in Hk by auto. eapply clone_of_mono; eauto.
  - intros c o Hc.
    assert (Hc0 : clone_of w0 w pairs c o).
    { destruct Hc as (pc & po & H1 & H2 & H3 & H4 & H5 & H6 & H7).
      exists pc, po. split_and!; auto.
      destruct H7 as [H7|(q0 & c0 & G1 & G2 & G3)]; [left; exact H7|right].
      exists q0, c0. split_and!; auto.
      destruct (decide (q = q0)) as [->|Hne].
      - rewrite lookup_insert_eq in G2. inversion G2; subst c0.
        exfalso. eapply Hnop; eauto.
      - rewrite lookup_insert_ne in G2 by auto. exact G2. }
    destruct (I5 c o Hc0) as [Ht|Hs]; [left; exact Ht|right].
    eapply settled_mono; eauto.
Qed.

Lemma fix_parent_inv w pairs T (x : addr) px (q c' : addr) :
  clone_inv w0 w pairs T ->
  pipes w !! x = Some px -> (next_id w0 <= x)%nat ->
  parent px = Some q -> (q < next_id w0)%nat ->
  pairs !! q = Some c' ->
  clone_inv w0 (with_pipe w x (set_parent (Some c') px)) pairs (fun c => T c /\ c <> x) /\
  (forall c o, clone_of w0 w pairs c o ->
               clone_of w0 (with_pipe w x (set_parent (Some c') px)) pairs c o).
Proof.
  intros Hinv Hx Hfresh Hq Hqold Hpair.
  pose proof Hinv as (I0 & I1 & I2 & I3 & I4 & I5 & I6).
  set (w2 := with_pipe w x (set_parent (Some c') px)).
  assert (Hold : forall c, c <> x -> pipes w2 !! c = pipes w !! c).
  { intros c Hc. simpl. apply lookup_insert_ne. auto. }
  assert (Hx2 : pipes w2 !! x = Some (set_parent (Some c') px)) by apply lookup_insert_eq.
  assert (Hc'fresh : (next_id w0 <= c')%nat) by (eapply clone_of_fresh, I4, Hpair).
  assert (Hstab : forall c o, clone_of w0 w pairs c o -> clone_of w0 w2 pairs c o).
  { intros c o Hc. destruct (decide (c = x)) as [->|Hne].
    - destruct (clone_of_old_parent w pairs T x o px q Hinv Hc Hx Hq Hqold) as (po & Hpo & Hpq).
      destruct Hc as (pc & po' & H1 & H2 & H3 & H4 & H5 & H6 & _).
      rewrite Hx in H1. inversion H1; subst pc. rewrite Hpo in H2. inversion H2; subst po'.
      exists (set_parent (Some c') px), po. split_and!; auto.
      right. exists q, c'. auto.
    - apply (clone_of_same_pipe w); [apply Hold, Hne|exact Hc]. }
  split; [|exact Hstab]. split_and!.
  - exact I0.
  - intros a Ha. apply I1. destruct (decide (a = x)) as [->|Hne]; [eauto|].
    rewrite Hold in Ha by auto. exact Ha.
  - intros a Ha. rewrite Hold by lia. apply I2, Ha.
  - intros c Hc Hex. destruct (decide (c = x)) as [->|Hne].
    + destruct (I3 x Hfresh ltac:(eauto)) as (o & Ho). eauto.
    + rewrite Hold in Hex by auto. destruct (I3 c Hc Hex) as (o & Ho). eauto.
  - intros k v Hk. apply Hstab, I4, Hk.
  - intros c o Hc. destruct (decide (c = x)) as [->|Hne].
    + right. eapply clone_of_fresh_parent; eauto.
    + assert (Hc0 : clone_of w0 w pairs c o).
      { apply (clone_of_same_pipe w2); [symmetry; apply Hold, Hne|exact Hc]. }
      destruct (I5 c o Hc0) as [Ht|Hs]; [left; auto|right].
      apply (settled_same_pipe w); [apply Hold, Hne|exact Hs].
  - intros c pc p' Hc Hp'.
    assert (Hex : forall a, is_Some (pipes w !! a) -> is_Some (pipes w2 !! a)).
    { intros a Ha. destruct (decide (a = x)) as [->|Hne]; [rewrite Hx2; eauto|].
      rewrite Hold by auto. exact Ha. }
    apply Hex. destruct (decide (c = x)) as [->|Hne].
    + rewrite Hx2 in Hc. inversion Hc; subst pc. simpl in Hp'. inversion Hp'; subst p'.
      eapply clone_of_exists, I4, Hpair.
    + rewrite Hold in Hc by auto. eapply I6; eauto.
Qed.

Lemma truth_parent w (a : addr) p :
  pipes w !! a = Some p -> truth (Some a) w = (Ok (negb (len p =? 0)), w).
Proof. intros Ha. unfold truth. rewrite (bind_ok _ _ _ _ _ (get_pipe_ok _ _ _ Ha)). reflexivity. Qed.

Lemma len_steps p : _steps p <> [] -> negb (len p =? 0) = true.
Proof.
  intros Hs. unfold len. destruct (_steps p); [congruence|].
  simpl length. destruct (Z.eqb_spec (Z.of_nat (S (length l))) 0); [lia|reflexivity].
Qed.

(** The first [break]: the clone has no parent. *)
Lemma clone_walk_no_parent fuel pairs (x : addr) w px :
  pipes w !! x = Some px -> parent px = None ->
  clone_walk (S fuel) pairs x w = (Ok (Some pairs), w).
Proof.
  intros Hx Hp. simpl. rewrite (bind_ok _ _ _ _ _ (get_pipe_ok _ _ _ Hx)), Hp.
  reflexivity.
Qed.

(** Both [break]s: the parent is a value of the dictionary. *)
Lemma clone_walk_parent_cloned fuel (pairs : gmap addr addr) (x : addr) w px (q : addr) pq :
  pipes w !! x = Some px -> parent px = Some q -> pipes w !! q = Some pq ->
  q ∈ (map_img pairs : gset addr) ->
  clone_walk (S fuel) pairs x w = (Ok (Some pairs), w).
Proof.
  intros Hx Hp Hq Himg. simpl. rewrite (bind_ok _ _ _ _ _ (get_pipe_ok _ _ _ Hx)), Hp.
  rewrite (bind_ok _ _ _ _ _ (truth_parent _ _ _ Hq)).
  destruct (negb (len pq =? 0)); [|reflexivity]. cbn [negb].
  rewrite bool_decide_eq_true_2 by exact Himg. reflexivity.
Qed.

(** One turn of the loop that does not [break]. *)
Lemma clone_walk_turn fuel (pairs : gmap addr addr) (x : addr) w px (q : addr) pq :
  pipes w !! x = Some px -> parent px = Some q -> pipes w !! q = Some pq ->
  _steps pq <> [] -> q ∉ (map_img pairs : gset addr) -> x <> next_id w ->
  clone_walk (S fuel) pairs x w =
  match pairs !! q with
  | Some c' => clone_walk fuel pairs c' (with_pipe w x (set_parent (Some c') px))
  | None =>
      clone_walk fuel (<[q := next_id w]> pairs) (next_id w)
        (with_pipe (cloned w pq) x (set_parent (Some (next_id w)) px))
  end.
Proof.
  intros Hx Hp Hq Hs Himg Hne. simpl.
  rewrite (bind_ok _ _ _ _ _ (get_pipe_ok _ _ _ Hx)), Hp.
  rewrite (bind_ok _ _ _ _ _ (truth_parent _ _ _ Hq)), (len_steps _ Hs). cbn [negb].
  rewrite bool_decide_eq_false_2 by exact Himg.
  destruct (pairs !! q) as [c'|] eqn:E.
  - unfold bind at 1, ret at 1. rewrite E.
    rewrite (bind_ok _ _ _ _ _ (update_pipe_with _ _ _ _ Hx)). reflexivity.
  - erewrite bind_ok; [|erewrite bind_ok; [reflexivity|apply clone_run, Hq]].
    rewrite lookup_insert_eq.
    erewrite bind_ok; [reflexivity|]. apply update_pipe_with.
    simpl. rewrite lookup_insert_ne by auto. exact Hx.
Qed.

Lemma clone_walk_spec fuel : forall w pairs T (x o : addr),
  clone_inv w0 w pairs T -> clone_of w0 w pairs x o -> (rank o < fuel)%nat ->
  exists pairs' w',
    clone_walk fuel pairs x w = (Ok (Some pairs'), w') /\
    clone_inv w0 w' pairs' (fun c => T c /\ c <> x) /\
    (forall k v, pairs !! k = Some v -> pairs' !! k = Some v) /\
    (forall c o, clone_of w0 w pairs c o -> clone_of w0 w' pairs' c o).
Proof.
  induction fuel as [|fuel IH]; intros w pairs T x o Hinv Hx Hrank; [lia|].
  pose proof Hinv as (I0 & I1 & I2 & I3 & I4 & I5 & I6).
  assert (Hbreak : (forall o', clone_of w0 w pairs x o' -> settled w0 w pairs x o') ->
                   clone_inv w0 w pairs (fun c => T c /\ c <> x)).
  { intros Hs. split_and!; try assumption.
    intros c o' Hc. destruct (decide (c = x)) as [->|Hne]; [right; apply Hs, Hc|].
    destruct (I5 c o' Hc); auto. }
  destruct (clone_of_exists _ _ _ _ Hx) as [px Hpx].
  destruct (parent px) as [q|] eqn:Hq.
  2:{ exists pairs, w. rewrite (clone_walk_no_parent _ _ _ _ _ Hpx Hq).
      split_and!; auto. apply Hbreak. intros o' Ho'.
      eapply clone_of_no_parent; eauto. }
  destruct (I6 _ _ _ Hpx Hq) as [pq Hpq].
  destruct (le_lt_dec (next_id w0) q) as [Hfresh|Hold].
  - (* the parent is a clone already *)
    assert (Himg : q ∈ (map_img pairs : gset addr)).
    { destruct Hx as (pc & po & H1 & H2 & H3 & H4 & H5 & H6 & H7).
      assert (pc = px) by congruence. subst pc.
      destruct H7 as [H7|(q0 & c0 & G1 & G2 & G3)].
      - rewrite Hq in H7. symmetry in H7.
        pose proof (original_parent_old _ _ _ H2 H7). lia.
      - assert (q = c0) by congruence. subst c0.
        apply elem_of_map_img. eauto. }
    exists pairs, w. rewrite (clone_walk_parent_cloned _ _ _ _ _ _ _ Hpx Hq Hpq Himg).
    split_and!; auto. apply Hbreak. intros o' Ho'.
    eapply clone_of_fresh_parent; eauto.
  - (* the parent is an original *)
    destruct (clone_of_old_parent _ _ _ _ _ _ _ Hinv Hx Hpx Hq Hold) as (po & Hpo & Hpoq).
    destruct (Hpar _ _ _ Hpo Hpoq) as (pq0 & Hpq0 & Hsteps & Hrk).
    assert (pq0 = pq) by (pose proof (I2 q Hold); congruence). subst pq0.
    assert (Himg : q ∉ (map_img pairs : gset addr)).
    { intros Hin. apply elem_of_map_img in Hin as [k Hk].
      apply I4, clone_of_fresh in Hk. lia. }
    assert (Hxlt : (x < next_id w)%nat) by (apply I1; eauto).
    assert (Hxfresh : (next_id w0 <= x)%nat) by (eapply clone_of_fresh, Hx).
    rewrite (clone_walk_turn fuel _ _ _ _ _ _ Hpx Hq Hpq Hsteps Himg) by lia.
    destruct (pairs !! q) as [c'|] eqn:E.
    + destruct (fix_parent_inv _ _ _ _ _ _ _ Hinv Hpx Hxfresh Hq Hold E) as [Hinv2 Hstab2].
      assert (Hc' : clone_of w0 (with_pipe w x (set_parent (Some c') px)) pairs c' q)
        by (apply Hstab2, I4, E).
      destruct (IH _ _ _ _ _ Hinv2 Hc' ltac:(lia)) as (pairs' & w' & Hrun & Hinv' & Hsub & Hstab').
      exists pairs', w'. split_and!; auto.
      eapply clone_inv_weaken; [|exact Hinv']. simpl. tauto.
    + destruct (alloc_clone_inv _ _ _ _ _ Hinv Hpq0) as (Hinv1 & Hc1 & Hstab1 & Hnop).
      pose proof (insert_pair_inv _ _ _ _ _ Hinv1 E Hc1 Hnop) as Hinv1'.
      assert (Hsub1 : forall k v, pairs !! k = Some v -> <[q := next_id w]> pairs !! k = Some v).
      { intros k v Hk. rewrite lookup_insert_ne; [exact Hk|]. intros ->. congruence. }
      assert (Hpx1 : pipes (cloned w pq) !! x = Some px).
      { simpl. rewrite lookup_insert_ne by lia. exact Hpx. }
      destruct (fix_parent_inv _ _ _ _ _ _ (next_id w) Hinv1' Hpx1 Hxfresh Hq Hold
                  ltac:(apply lookup_insert_eq)) as [Hinv2 Hstab2].
      pose proof Hinv1' as (_ & _ & _ & _ & I4' & _).
      assert (Hc' : clone_of w0 (with_pipe (cloned w pq) x (set_parent (Some (next_id w)) px))
                      (<[q := next_id w]> pairs) (next_id w) q).
      { apply Hstab2, I4'. apply lookup_insert_eq. }
      destruct (IH _ _ _ _ _ Hinv2 Hc' ltac:(lia)) as (pairs' & w' & Hrun & Hinv' & Hsub & Hstab').
      exists pairs', w'. split_and!; auto.
      * eapply clone_inv_weaken; [|exact Hinv']. simpl. tauto.
      * intros c o' Hc. apply Hstab', Hstab2. eapply clone_of_mono; [exact Hsub1|].
        apply Hstab1, Hc.
Qed.

Lemma clone_fix_parents_spec fuel cs : forall w pairs T,
  clone_inv w0 w pairs T ->
  (forall c : addr, c ∈ cs -> exists o, clone_of w0 w pairs c o /\ (rank o < fuel)%nat) ->
  exists pairs' w',
    clone_fix_parents fuel pairs cs w = (Ok (Some pairs'), w') /\
    clone_inv w0 w' pairs' (fun c => T c /\ c ∉ cs) /\
    (forall k v, pairs !! k = Some v -> pairs' !! k = Some v) /\
    (forall c o, clone_of w0 w pairs c o -> clone_of w0 w' pairs' c o).
Proof.
  induction cs as [|x cs IH]; intros w pairs T Hinv Hcs.
  - exists pairs, w. split_and!; auto.
    eapply clone_inv_weaken; [|exact Hinv]. intros c Hc. split; [exact Hc|].
    apply not_elem_of_nil.
  - destruct (Hcs x ltac:(left)) as (o & Hx & Hrank).
    destruct (clone_walk_spec fuel _ _ _ _ _ Hinv Hx Hrank)
      as (pairs1 & w1 & Hrun1 & Hinv1 & Hsub1 & Hstab1).
    destruct (IH w1 pairs1 _ Hinv1) as (pairs' & w' & Hrun & Hinv' & Hsub & Hstab).
    { intros c Hc. destruct (Hcs c ltac:(right; exact Hc)) as (o' & Ho' & Hr). eauto. }
    exists pairs', w'. split_and!; auto.
    + simpl. rewrite (bind_ok _ _ _ _ _ Hrun1). exact Hrun.
    + eapply clone_inv_weaken; [|exact Hinv']. simpl. intros c [[Ht Hne] Hnin].
      split; [exact Ht|]. rewrite not_elem_of_cons. auto.
Qed.

(** The start: no clone yet, and an empty dictionary. *)
Lemma clone_inv_start : clone_inv w0 w0 ∅ (fun _ => False).
Proof.
  assert (Hno : forall c o, ~ clone_of w0 w0 ∅ c o).
  { intros c o Hc. pose proof (clone_of_fresh _ _ _ _ Hc).
    apply clone_of_exists, Halloc in Hc. lia. }
  split_and!.
  - lia.
  - exact Halloc.
  - reflexivity.
  - intros c Hc Hex. apply Halloc in Hex. lia.
  - intros q c' Hq. rewrite lookup_empty in Hq. discriminate.
  - intros c o Hc. destruct (Hno _ _ Hc).
  - intros c pc q Hc Hq. destruct (Hpar _ _ _ Hc Hq) as (pq & Hpq & _). eauto.
Qed.

(** The list comprehension that clones the pipes of the argument. *)
Lemma clone_all_spec os : forall w T,
  clone_inv w0 w ∅ T ->
  (forall o : addr, o ∈ os -> is_Some (pipes w0 !! o)) ->
  exists cs w1,
    list_comp os (fun p => _clone p true) w = (Ok cs, w1) /\
    clone_inv w0 w1 ∅ (fun c => T c \/ c ∈ cs) /\
    Forall2 (clone_of w0 w1 ∅) cs os /\
    (forall c o, clone_of w0 w ∅ c o -> clone_of w0 w1 ∅ c o) /\
    (forall c : addr, is_Some (pipes w1 !! c) -> is_Some (pipes w !! c) \/ c ∈ cs).
Proof.
  induction os as [|o os IH]; intros w T Hinv Hos.
  - exists [], w. split_and!; auto.
    eapply clone_inv_weaken; [|exact Hinv]. auto.
  - destruct (Hos o ltac:(left)) as [po Hpo].
    pose proof Hinv as (I0 & I1 & I2 & I3 & I4 & I5 & I6).
    assert (Hpw : pipes w !! o = Some po).
    { rewrite I2; [exact Hpo|]. apply Halloc. eauto. }
    destruct (alloc_clone_inv _ _ _ _ _ Hinv Hpo) as (Hinv1 & Hc1 & Hstab1 & _).
    destruct (IH _ _ Hinv1) as (cs & w1 & Hrun & Hinv' & Hall & Hstab & Hfresh).
    { intros o' Ho'. apply Hos. right. exact Ho'. }
    exists (next_id w :: cs), w1. split_and!.
    + simpl. rewrite (bind_ok _ _ _ _ _ (clone_run _ _ _ Hpw)).
      rewrite (bind_ok _ _ _ _ _ Hrun). reflexivity.
    + eapply clone_inv_weaken; [|exact Hinv']. simpl. intros c [[Ht| ->]|Hin].
      * left. exact Ht.
      * right. left.
      * right. right. exact Hin.
    + constructor; [apply Hstab, Hc1|exact Hall].
    + intros c o' Hc. apply Hstab, Hstab1, Hc.
    + intros c Hc. destruct (Hfresh c Hc) as [Hex|Hin]; [|right; right; exact Hin].
      destruct (decide (c = next_id w)) as [->|Hne]; [right; left|left].
      simpl in Hex. rewrite lookup_insert_ne in Hex by auto. exact Hex.
Qed.

Lemma dict_of_pairs_from (l : list (addr * addr)) : forall (m : gmap addr addr) k v,
  foldl (fun m kv => <[fst kv := snd kv]> m) m l !! k = Some v ->
  m !! k = Some v \/ (k, v) ∈ l.
Proof.
  induction l as [|[k0 v0] l IH]; intros m k v H; simpl in H; [left; exact H|].
  destruct (IH _ _ _ H) as [Hm|Hin]; [|right; right; exact Hin].
  simpl in Hm. destruct (decide (k0 = k)) as [->|Hne].
  - rewrite lookup_insert_eq in Hm. inversion Hm; subst. right. left.
  - rewrite lookup_insert_ne in Hm by auto. left. exact Hm.
Qed.

Lemma dict_of_pairs_lookup l (k v : addr) :
  dict_of_pairs l !! k = Some v -> (k, v) ∈ l.
Proof.
  intros H. destruct (dict_of_pairs_from _ _ _ _ H) as [Hm|Hin]; [|exact Hin].
  rewrite lookup_empty in Hm. discriminate.
Qed.

Lemma Forall2_zip_elem {A B} (R : A -> B -> Prop) (l : list A) (k : list B) a b :
  Forall2 R l k -> (b, a) ∈ zip k l -> R a b.
Proof.
  intros H. revert a b. induction H as [|x y l k Hxy H IH]; intros a b Hin; simpl in Hin.
  - apply elem_of_nil in Hin. destruct Hin.
  - apply elem_of_cons in Hin as [Heq|Hin]; [inversion Heq; subst; exact Hxy|].
    apply IH, Hin.
Qed.

(** X24. [clone_pipes] on a store in which every parent has steps: the call
    returns one clone per pipe of [os], leaves every original as it is, and
    every new object is the clone of an original, with the clone of the
    parent of its original as parent: the clone that [cloned_pairs] holds for
    that parent, the same for all, and a new object itself. *)
Theorem clone_pipes_parents_with_steps fuel (os : list addr) :
  (forall o : addr, o ∈ os -> is_Some (pipes w0 !! o) /\ (rank o < fuel)%nat) ->
  exists cs w' cloned_pairs,
    clone_pipes fuel os w0 = (Ok (Some cs), w') /\
    (forall a : addr, (a < next_id w0)%nat -> pipes w' !! a = pipes w0 !! a) /\
    Forall2 (settled w0 w' cloned_pairs) cs os /\
    (forall c : addr, (next_id w0 <= c)%nat -> is_Some (pipes w' !! c) ->
       exists o, settled w0 w' cloned_pairs c o) /\
    (forall (q c' : addr), cloned_pairs !! q = Some c' ->
       (next_id w0 <= c')%nat /\ settled w0 w' cloned_pairs c' q).
Proof.
  intros Hos.
  destruct (clone_all_spec os _ _ clone_inv_start) as (cs & w1 & Hrun1 & Hinv1 & Hall & _ & Hnew).
  { intros o Ho. apply Hos, Ho. }
  set (d := dict_of_pairs (zip os cs)).
  assert (Hsub0 : forall k v, (∅ : gmap addr addr) !! k = Some v -> d !! k = Some v).
  { intros k v Hk. rewrite lookup_empty in Hk. discriminate. }
  assert (Hinvd : clone_inv w0 w1 d (fun c => c ∈ cs)).
  { pose proof Hinv1 as (I0 & I1 & I2 & I3 & I4 & I5 & I6). split_and!; try assumption.
    - intros c Hc Hex. destruct (I3 c Hc Hex) as (o & Ho). exists o.
      eapply clone_of_mono; eauto.
    - intros q c' Hq. apply dict_of_pairs_lookup in Hq.
      eapply clone_of_mono; [exact Hsub0|].
      eapply (Forall2_zip_elem (clone_of w0 w1 ∅)); eauto.
    - intros c o Hc. left. pose proof (clone_of_fresh _ _ _ _ Hc) as Hf.
      destruct (Hnew c (clone_of_exists _ _ _ _ Hc)) as [Hex|Hin]; [|exact Hin].
      apply Halloc in Hex. lia. }
  destruct (clone_fix_parents_spec fuel cs _ _ _ Hinvd)
    as (pairs' & w' & Hrun & Hinv' & Hsub & Hstab).
  { intros c Hc. apply list_elem_of_lookup in Hc as [i Hi].
    destruct (Forall2_lookup_l _ _ _ _ _ Hall Hi) as (o & Ho & Hco).
    exists o. split; [eapply clone_of_mono; eauto|].
    apply Hos. eapply list_elem_of_lookup_2, Ho. }
  pose proof Hinv' as (I0 & I1 & I2 & I3 & I4 & I5 & I6).
  assert (Hset : forall c o, clone_of w0 w' pairs' c o -> settled w0 w' pairs' c o).
  { intros c o Hc. destruct (I5 c o Hc) as [[Hin Hnin]|Hs]; [contradiction|exact Hs]. }
  exists cs, w', pairs'. split_and!.
  - unfold clone_pipes. rewrite (bind_ok _ _ _ _ _ Hrun1). fold d.
    rewrite (bind_ok _ _ _ _ _ Hrun). reflexivity.
  - intros a Ha. apply I2. lia.
  - eapply Forall2_impl; [exact Hall|]. intros c o Hc.
    apply Hset, Hstab. eapply clone_of_mono; eauto.
  - intros c Hc Hex. destruct (I3 c Hc Hex) as (o & Ho). eauto.
  - intros q c' Hq. split; [eapply clone_of_fresh, I4, Hq|apply Hset, I4, Hq].
Qed.

End CloneProof.

(** The store of the transformer example satisfies the hypotheses, with the
    distance to address 100 as rank. *)
Lemma transformer_world_allocated : allocated Ex.transformer_world.
Proof.
  intros a [p Hp]. simpl in *.
  destruct (decide (a = 101%nat)) as [->|H1]; [lia|].
  rewrite lookup_insert_ne in Hp by auto.
  destruct (decide (a = 100%nat)) as [->|H0]; [lia|].
  rewrite lookup_singleton_ne in Hp by auto. discriminate.
Qed.

Lemma transformer_world_parents :
  parents_have_steps Ex.transformer_world (fun a => (a - 100)%nat).
Proof.
  intros a p q Hp Hq. simpl in Hp.
  destruct (decide (a = 101%nat)) as [->|H1].
  - rewrite lookup_insert_eq in Hp. inversion Hp; subst p. inversion Hq; subst q.
    exists Ex.resource. split_and!; [reflexivity|discriminate|simpl; lia].
  - rewrite lookup_insert_ne in Hp by auto.
    destruct (decide (a = 100%nat)) as [->|H0].
    + rewrite lookup_singleton_eq in Hp. inversion Hp; subst p. discriminate.
    + rewrite lookup_singleton_ne in Hp by auto. discriminate.
Qed.

(** [clone_pipes([t])] for the transformer [t] of the example: its clone has
    the clone of the resource as parent. *)
Lemma clone_pipes_parents_with_steps_witness :
  exists cs w' cloned_pairs,
    clone_pipes 2 [101%nat] Ex.transformer_world = (Ok (Some cs), w') /\
    (forall a : addr, (a < 102)%nat -> pipes w' !! a = pipes Ex.transformer_world !! a) /\
    Forall2 (settled Ex.transformer_world w' cloned_pairs) cs [101%nat] /\
    (forall c : addr, (102 <= c)%nat -> is_Some (pipes w' !! c) ->
       exists o, settled Ex.transformer_world w' cloned_pairs c o) /\
    (forall (q c' : addr), cloned_pairs !! q = Some c' ->
       (102 <= c')%nat /\ settled Ex.transformer_world w' cloned_pairs c' q).
Proof.
  apply (clone_pipes_parents_with_steps Ex.transformer_world (fun a => (a - 100)%nat)
           transformer_world_allocated transformer_world_parents 2 [101%nat]).
  intros o Ho. apply list_elem_of_singleton in Ho as ->. split; [|simpl; lia].
  exists Ex.transformer. reflexivity.
Defined.

Example clone_pipes_transformer_run :
  fst (clone_pipes 2 [101%nat] Ex.transformer_world) = Ok (Some [102%nat]) /\
  parent <$> pipes (snd (clone_pipes 2 [101%nat] Ex.transformer_world)) !! 102%nat
    = Some (Some 103%nat) /\
  parent <$> pipes (snd (clone_pipes 2 [101%nat] Ex.transformer_world)) !! 103%nat
    = Some None.
Proof. vm_compute. repeat split; reflexivity. Qed.

(** ** The dispatcher: scenarios *)

(** Source [[1, 2]] through [f]: the first item comes out as 10. *)
Example linear_pipe_first_item :
  fst (PipeIterator_next Ex.env 10
         (Ex.running [Ex.one; Ex.two] [Ex.g_item_meta; wrap_meta 13 Ex.f_item] 20))
  = Ok (Some (mkPipeItem (PyData 2 10) 2 100 None)).
Proof. vm_compute. reflexivity. Qed.

(** Source [[1, 2]] through the filter [h]: 1 is dropped and 2 comes out. *)
Example filter_drops_odd :
  fst (PipeIterator_next Ex.env 10 (Ex.running [Ex.one; Ex.two] [Ex.h_item_meta] 20))
  = Ok (Some (mkPipeItem Ex.two 1 100 None)).
Proof. vm_compute. reflexivity. Qed.

(** An exhausted iterator stops. *)
Example exhausted_stops :
  fst (PipeIterator_next Ex.env 10 (Ex.running [] [Ex.g_item_meta] 20))
  = Raise StopIteration.
Proof. vm_compute. reflexivity. Qed.

(** ** Invoking a step *)

Lemma invoke_step_ok env p step pi s v s' :
  call_step env step (pi_item pi) (pi_meta pi) s = (Ok v, s') ->
  invoke_step env p step pi s =
    (Ok (match v with
         | DataItemWithMeta m data => (data, m)
         | _ => (v, pi_meta pi)
         end), s').
Proof.
  intros H. unfold invoke_step, try_except, bind. rewrite H.
  destruct v; reflexivity.
Qed.

Lemma invoke_step_raise env p step pi s e s' :
  call_step env step (pi_item pi) (pi_meta pi) s = (Raise e, s') ->
  invoke_step env p step pi s =
    (Raise (if is_TypeError e
            then InvalidStepFunctionArguments (name p) (get_callable_name step)
                   (signature step) (str_exn e)
            else e), s').
Proof.
  intros H. unfold invoke_step, try_except, bind. rewrite H.
  destruct (is_TypeError e); reflexivity.
Qed.

(** C3, as the code has it.  When the call [step(item, meta=meta)] raises
    [e], the dispatcher raises [InvalidStepFunctionArguments] exactly when [e]
    is a [TypeError], whether it comes from a signature mismatch of the call
    or from the step's own code; a signature mismatch always is a [TypeError];
    any other exception is re-raised unchanged. *)
Theorem invoke_step_wraps_every_TypeError env p step pi s e s' :
  call_step env step (pi_item pi) (pi_meta pi) s = (Raise e, s') ->
  (is_TypeError e = true ->
     invoke_step env p step pi s =
       (Raise (InvalidStepFunctionArguments (name p) (get_callable_name step)
                 (signature step) (str_exn e)), s')) /\
  (is_TypeError e = false -> invoke_step env p step pi s = (Raise e, s')) /\
  (forall c msg, step = SCallable c -> bind_item_meta (c_params c) = Some msg ->
     e = TypeError msg).
Proof.
  intros H. pose proof (invoke_step_raise env p step pi s e s' H) as Hr.
  split_and!.
  - intros He. rewrite He in Hr. exact Hr.
  - intros He. rewrite He in Hr. exact Hr.
  - intros c msg -> Hb. simpl in H. rewrite Hb in H. inversion H. reflexivity.
Qed.

Lemma invoke_step_wraps_every_TypeError_witness :
  invoke_step Ex.env Ex.resource Ex.fail (mkPipeItem Ex.one 0 100 None)
    (Ex.running [] [Ex.fail] 20)
  = (Raise (UserError 1), Ex.running [] [Ex.fail] 20).
Proof.
  apply (proj1 (proj2 (invoke_step_wraps_every_TypeError Ex.env Ex.resource Ex.fail
                         (mkPipeItem Ex.one 0 100 None) (Ex.running [] [Ex.fail] 20)
                         (UserError 1) (Ex.running [] [Ex.fail] 20) eq_refl)));
    reflexivity.
Defined.

(** C3, as the specification states it, fails: the call of [boom] binds its arguments
    (no signature mismatch), the body raises a [TypeError] of its own, and the
    dispatcher does not re-raise it unchanged but raises
    [InvalidStepFunctionArguments], from [invoke_step] and from [__next__]. *)
Lemma body_TypeError_is_wrapped :
  bind_item_meta (signature Ex.boom) = None /\
  step_body Ex.env 4 Ex.one None
    = Raise (TypeError "unsupported operand type(s) for +: 'int' and 'str'") /\
  fst (invoke_step Ex.env Ex.resource Ex.boom (mkPipeItem Ex.one 0 100 None)
         (Ex.running [] [Ex.boom] 20))
    = Raise (InvalidStepFunctionArguments "numbers" "boom" (signature Ex.boom)
               "unsupported operand type(s) for +: 'int' and 'str'") /\
  fst (PipeIterator_next Ex.env 10 (Ex.running [Ex.one] [Ex.boom] 20))
    = Raise (InvalidStepFunctionArguments "numbers" "boom" (signature Ex.boom)
               "unsupported operand type(s) for +: 'int' and 'str'") /\
  fst (PipeIterator_next Ex.env 10 (Ex.running [Ex.one] [Ex.boom] 20))
    <> Raise (TypeError "unsupported operand type(s) for +: 'int' and 'str'").
Proof. vm_compute. split_and!; try reflexivity. discriminate. Qed.

(** ** What the parts of [__next__] leave untouched *)

Global Instance frame_preorder : PreOrder frame.
Proof.
  split.
  - intros s. unfold frame. auto.
  - intros a b c (H1 & H2 & H3 & H4) (G1 & G2 & G3 & G4). unfold frame.
    split_and!; try congruence. lia.
Qed.

Global Instance same_futures_preorder : PreOrder same_futures.
Proof.
  split.
  - intros s. split; reflexivity.
  - intros a b c [H1 H2] [G1 G2]. split; [etransitivity; eauto|congruence].
Qed.

Section Preserves.
Context (R : PipeIterator -> PipeIterator -> Prop) `{!PreOrder R}.

Lemma preserves_ret {A} (a : A) : preserves R (ret a).
Proof. intros s r s' H. inversion H. reflexivity. Qed.

Lemma preserves_raise {A} e : preserves R (raise (A := A) e).
Proof. intros s r s' H. inversion H. reflexivity. Qed.

Lemma preserves_lift {A} (x : Res A) : preserves R (lift x).
Proof. intros s r s' H. inversion H. reflexivity. Qed.

Lemma preserves_get : preserves R get.
Proof. intros s r s' H. inversion H. reflexivity. Qed.

Lemma preserves_modify f : (forall s, R s (f s)) -> preserves R (modify f).
Proof. intros Hf s r s' H. inversion H. apply Hf. Qed.

Lemma preserves_bind {A B} (m : M PipeIterator A) (k : A -> M PipeIterator B) :
  preserves R m -> (forall a, preserves R (k a)) -> preserves R (bind m k).
Proof.
  intros Hm Hk s r s' H. unfold bind in H.
  destruct (m s) as [[a|e] s1] eqn:E.
  - etransitivity; [eapply Hm; eauto|eapply Hk; eauto].
  - inversion H; subst. eapply Hm; eauto.
Qed.

Lemma preserves_try {A} (m : M PipeIterator A) h :
  preserves R m -> (forall e, preserves R (h e)) -> preserves R (try_except m h).
Proof.
  intros Hm Hh s r s' H. unfold try_except in H.
  destruct (m s) as [[a|e] s1] eqn:E.
  - inversion H; subst. eapply Hm; eauto.
  - etransitivity; [eapply Hm; eauto|eapply Hh; eauto].
Qed.

Lemma preserves_in_world {A} (m : M World A) :
  (forall s w, R s (set_world w s)) -> preserves R (in_world m).
Proof.
  intros Hw s r s' H. unfold in_world in H.
  destruct (m (world s)) as [r0 w']. inversion H. apply Hw.
Qed.

End Preserves.

(** Takes a computation apart, down to its updates of the state. *)
Ltac pres :=
  repeat match goal with
    | |- preserves _ (bind _ _) => apply preserves_bind; [try tc_solve| |intros ?]
    | |- preserves _ (ret _) => apply preserves_ret; tc_solve
    | |- preserves _ (raise _) => apply preserves_raise; tc_solve
    | |- preserves _ (lift _) => apply preserves_lift; tc_solve
    | |- preserves _ get => apply preserves_get; tc_solve
    | |- preserves _ (try_except _ _) => apply preserves_try; [try tc_solve| |intros ?]
    | |- preserves _ (modify _) => apply preserves_modify; intros ?
    | |- preserves _ (in_world _) => apply preserves_in_world; intros ? ?
    | |- preserves _ (if ?b then _ else _) => destruct b
    | |- preserves _ (match ?x with _ => _ end) => destruct x
    | |- preserves _ (let _ := _ in _) => cbv zeta
    end.

Ltac frame_leaf :=
  try (unfold same_futures, frame; simpl; split_and!; (reflexivity || lia)).

Lemma sleep_same_futures : preserves same_futures sleep.
Proof. unfold sleep. pres. frame_leaf. Qed.

Lemma call_step_same_futures env step item meta :
  preserves same_futures (call_step env step item meta).
Proof. unfold call_step. pres; frame_leaf. Qed.

Lemma invoke_step_same_futures env p step pi :
  preserves same_futures (invoke_step env p step pi).
Proof.
  unfold invoke_step. pres; try apply call_step_same_futures; frame_leaf.
Qed.

Lemma get_source_item_same_futures depth :
  preserves same_futures (_get_source_item_rec depth).
Proof.
  induction depth as [|d IH]; simpl; pres; try exact IH; frame_leaf.
Qed.

Lemma submit_same_futures env item : preserves same_futures (submit env item).
Proof. unfold submit. pres; frame_leaf. Qed.

(** ** The list of futures *)

Lemma first_done_spec t l : forall i,
  0 <= i ->
  (first_done t l i = -1 /\ ~ some_done t l) \/
  (i <= first_done t l i < i + Z.of_nat (length l) /\ some_done t l).
Proof.
  unfold some_done. induction l as [|f l IH]; intros i Hi; simpl.
  - left. split; [reflexivity|]. intros H. inversion H.
  - destruct (done t (fi_item f)) eqn:Hd.
    + right. split; [lia|]. constructor. exact Hd.
    + destruct (IH (i + 1)) as [[H1 H2]|[H1 H2]]; [lia| |].
      * left. split; [exact H1|]. intros H. inversion H; subst; [congruence|auto].
      * right. split; [lia|]. apply Exists_cons_tl. exact H2.
Qed.

Lemma done_mono t t' f : (t <= t')%nat -> done t f = true -> done t' f = true.
Proof.
  unfold done. intros Ht. rewrite !orb_true_iff, !Nat.leb_le. intros [H|H]; [auto|right; lia].
Qed.

Lemma some_done_mono t t' l : (t <= t')%nat -> some_done t l -> some_done t' l.
Proof.
  unfold some_done. intros Ht H. eapply Exists_impl; [exact H|].
  intros f. apply done_mono, Ht.
Qed.

Lemma some_done_app t l l' : some_done t l -> some_done t (l ++ l').
Proof. unfold some_done. intros H. apply Exists_app. left. exact H. Qed.

Lemma in_flight_le s : (in_flight s <= length (_futures s))%nat.
Proof. unfold in_flight. apply length_filter. Qed.

Lemma in_flight_lt s :
  some_done (now s) (_futures s) -> (in_flight s < length (_futures s))%nat.
Proof.
  unfold in_flight, some_done. induction (_futures s) as [|f l IH]; intros H.
  - inversion H.
  - rewrite filter_cons. simpl. inversion H as [? ? Hd|? ? Hl]; subst.
    + rewrite decide_False by congruence.
      pose proof (length_filter (fun f => done (now s) (fi_item f) = false) l). lia.
    + specialize (IH Hl). destruct (decide _); simpl; lia.
Qed.

Lemma cap_inv_in_flight s m :
  cap_inv s m -> Z.of_nat (in_flight s) <= max_parallel_items s.
Proof.
  intros [H|(H1 & _ & H2)].
  - pose proof (in_flight_le s). lia.
  - pose proof (in_flight_lt s H2). lia.
Qed.

(** [_resolve_futures] only pops, and pops when a future is done. *)
Lemma resolve_futures_shrinks d : forall s r s',
  _resolve_futures_rec d s = (r, s') ->
  frame s s' /\ now s' = now s /\
  (length (_futures s') <= length (_futures s))%nat /\
  (d <> O -> some_done (now s) (_futures s) ->
   (length (_futures s') < length (_futures s))%nat).
Proof.
  induction d as [|d IH]; intros s r s' H.
  - inversion H; subst. split_and!; try reflexivity. congruence.
  - simpl in H. unfold bind at 1, get at 1 in H.
    destruct (length (_futures s) =? 0)%nat eqn:Hlen.
    { inversion H; subst. split_and!; try reflexivity.
      intros _ Hd. apply Nat.eqb_eq in Hlen. destruct (_futures s'); [inversion Hd|discriminate]. }
    unfold bind at 1, _next_future at 1 in H.
    destruct (first_done_spec (now s) (_futures s) 0) as [[Hf Hnd]|[Hf Hd]]; [lia| |].
    { rewrite Hf in H. simpl in H. inversion H; subst.
      split_and!; try reflexivity. intros _ Hd. contradiction. }
    destruct (Z.eqb_spec (first_done (now s) (_futures s) 0) (-1)); [lia|].
    assert (Hr : in_range (_futures s) (first_done (now s) (_futures s) 0) = true)
      by (apply in_range_spec; lia).
    destruct (pop_in_range _ _ Hr) as (f & _ & Hpop).
    unfold bind at 1, lift at 1 in H. rewrite Hpop in H.
    unfold bind at 1, modify at 1 in H. cbn [fst snd] in H.
    set (s1 := set_futures _ s) in H.
    assert (Hs1 : frame s s1 /\ now s1 = now s /\
                  (length (_futures s1) < length (_futures s))%nat).
    { unfold s1, frame. simpl. split_and!; try reflexivity.
      rewrite length_delete; [|apply lookup_lt_is_Some_2, norm_index_lt, Hr].
      apply Nat.eqb_neq in Hlen. lia. }
    destruct Hs1 as (Hfr & Hnow & Hlt).
    destruct (cancelled (fi_item f)).
    + apply IH in H as (G1 & G2 & G3 & _).
      split_and!; first [by etransitivity; eauto|congruence|lia|intros; lia].
    + assert (s' = s1) as ->.
      { destruct (outcome (fi_item f)) as [v|e]; [destruct v|]; inversion H; reflexivity. }
      split_and!; first [assumption|lia|intros; lia].
Qed.

Lemma obtain_item_cap cur s r s' :
  obtain_item cur s = (r, s') ->
  cap_inv s (Running cur) ->
  frame s s' /\ Z.of_nat (length (_futures s')) <= max_parallel_items s' /\
  (forall p, cur = Some p -> r = Ok cur /\ s' = s).
Proof.
  intros H Hinv. destruct cur as [p|]; simpl in H.
  { inversion H; subst. split_and!; [reflexivity| |auto].
    destruct Hinv as [Hi|(_ & Hm & _)]; [exact Hi|discriminate]. }
  unfold bind at 1, get at 1 in H.
  (* the futures *)
  assert (Hres : exists r1 s1,
            (if (0 <? length (_futures s))%nat then _resolve_futures else ret None) s
              = (r1, s1) /\
            frame s s1 /\ Z.of_nat (length (_futures s1)) <= max_parallel_items s1).
  { destruct (0 <? length (_futures s))%nat eqn:Hpos.
    - destruct (_resolve_futures s) as [r1 s1] eqn:E. exists r1, s1.
      split; [reflexivity|]. unfold _resolve_futures in E.
      apply resolve_futures_shrinks in E as (G1 & G2 & G3 & G4).
      split; [exact G1|]. destruct G1 as (Gm & _). rewrite Gm.
      destruct Hinv as [Hi|(Hi & _ & Hd)]; [lia|].
      specialize (G4 ltac:(discriminate) Hd). lia.
    - exists (Ok None), s. split; [reflexivity|]. split; [reflexivity|].
      destruct Hinv as [Hi|(Hi & _ & Hd)]; [exact Hi|].
      apply Nat.ltb_ge in Hpos. destruct (_futures s); [inversion Hd|simpl in Hpos; lia]. }
  destruct Hres as (r1 & s1 & E1 & Hf1 & Hc1).
  unfold bind at 1 in H. rewrite E1 in H.
  destruct r1 as [o1|e]; [|inversion H; subst; split_and!; [auto|auto|discriminate]].
  (* the sources *)
  assert (Hsrc : exists r2 s2,
            (match o1 with None => _get_source_item | Some _ => ret o1 end) s1 = (r2, s2) /\
            same_futures s1 s2).
  { destruct o1.
    - eexists _, _. split; [reflexivity|reflexivity].
    - destruct (_get_source_item s1) as [r2 s2] eqn:E. exists r2, s2.
      split; [reflexivity|]. eapply get_source_item_same_futures, E. }
  destruct Hsrc as (r2 & s2 & E2 & Hf2 & Hfut2).
  unfold bind at 1 in H. rewrite E2 in H.
  assert (Hs2 : frame s s2 /\ Z.of_nat (length (_futures s2)) <= max_parallel_items s2).
  { split; [etransitivity; eauto|]. destruct Hf2 as (Gm & _). rewrite Gm, Hfut2. exact Hc1. }
  destruct Hs2 as (Hfr2 & Hc2).
  destruct r2 as [o2|e]; [|inversion H; subst; split_and!; [auto|auto|discriminate]].
  destruct o2 as [p|].
  { inversion H; subst. split_and!; [auto|auto|discriminate]. }
  unfold bind at 1, get at 1 in H.
  destruct (_ && _).
  { inversion H; subst. split_and!; [auto|auto|discriminate]. }
  unfold bind at 1 in H. destruct (sleep s2) as [r3 s3] eqn:E3.
  pose proof (sleep_same_futures _ _ _ E3) as (Hf3 & Hfut3).
  assert (s' = s3) as -> by (destruct r3; inversion H; reflexivity).
  split_and!; [etransitivity; eauto| |discriminate].
  destruct Hf3 as (Gm & _). rewrite Gm, Hfut3. exact Hc2.
Qed.

(** [process_item] leaves the futures alone, except when it submits a
    deferred item: then there was a free slot or a future that was done. *)
Lemma process_item_futures env p s r s' :
  process_item env p s = (r, s') ->
  frame s s' /\
  (_futures s' = _futures s \/
   (r = Ok (Continue None) /\
    item_is_Awaitable (pi_item p) || item_callable (pi_item p) = true /\
    (Z.of_nat (length (_futures s)) < max_parallel_items s \/
     some_done (now s) (_futures s)) /\
    exists fut, _futures s' =
                _futures s ++ [mkFutureItem fut (pi_step p) (pi_pipe p) (pi_meta p)])).
Proof.
  unfold process_item. intros H.
  destruct (item_is_Iterator (pi_item p)).
  { inversion H; subst. split; [|left; reflexivity]. frame_leaf. }
  destruct (item_is_Awaitable (pi_item p) || item_callable (pi_item p)) eqn:Hdef.
  - unfold bind at 1, get at 1 in H.
    set (free := (Z.of_nat (length (_futures s)) <? max_parallel_items s)
                 || (0 <=? first_done (now s) (_futures s) 0)).
    assert (Hfree : (if Z.of_nat (length (_futures s)) <? max_parallel_items s
                     then ret true
                     else let! idx := _next_future in ret (0 <=? idx)) s
                    = (Ok free, s)).
    { unfold free. destruct (_ <? _); reflexivity. }
    unfold bind at 1 in H. rewrite Hfree in H.
    destruct free eqn:Hf.
    + unfold bind at 1 in H. destruct (submit env (pi_item p) s) as [[fut|e] s1] eqn:E;
        pose proof (submit_same_futures _ _ _ _ _ E) as (Hfr1 & Hfut1).
      * inversion H; subst. split.
        { etransitivity; [exact Hfr1|]. frame_leaf. }
        right. split_and!; [reflexivity|reflexivity| |].
        -- unfold free in Hf. apply orb_true_iff in Hf as [Hf|Hf].
           ++ left. apply Z.ltb_lt, Hf.
           ++ right. apply Z.leb_le in Hf.
              destruct (first_done_spec (now s) (_futures s) 0) as [[G _]|[_ G]];
                [lia|lia|exact G].
        -- exists fut. simpl. rewrite Hfut1. reflexivity.
      * inversion H; subst. split; [exact Hfr1|left; exact Hfut1].
    + unfold bind at 1 in H. destruct (sleep s) as [r1 s1] eqn:E.
      pose proof (sleep_same_futures _ _ _ E) as (Hfr1 & Hfut1).
      assert (s' = s1) as -> by (destruct r1; inversion H; reflexivity).
      split; [exact Hfr1|left; exact Hfut1].
  - match type of H with
    | ?m s = _ => assert (Hp : preserves same_futures m)
    end.
    { pres; try apply invoke_step_same_futures; frame_leaf. }
    apply Hp in H as [H1 H2]. split; [exact H1|left; exact H2].
Qed.

Lemma process_item_cap env p s r s' :
  process_item env p s = (r, s') ->
  Z.of_nat (length (_futures s)) <= max_parallel_items s ->
  frame s s' /\
  match r with
  | Ok (Continue cur') => cap_inv s' (Running cur')
  | _ => Z.of_nat (length (_futures s')) <= max_parallel_items s'
  end.
Proof.
  intros H Hcap. apply process_item_futures in H as (Hfr & Hfut).
  split; [exact Hfr|]. pose proof Hfr as (Hm & _ & _ & Hnow).
  destruct Hfut as [Hsame|(-> & _ & Hgate & fut & Happ)].
  - assert (Z.of_nat (length (_futures s')) <= max_parallel_items s') by (rewrite Hm, Hsame; exact Hcap).
    destruct r as [[cur'|x]|e]; [left| |]; assumption.
  - unfold cap_inv. rewrite Hm, Happ, length_app. simpl.
    destruct Hgate as [Hlt|Hd]; [left; lia|].
    destruct (decide (Z.of_nat (length (_futures s)) < max_parallel_items s));
      [left; lia|right].
    split_and!; [lia|reflexivity|].
    apply some_done_app. eapply some_done_mono; eauto.
Qed.

(** One turn of the loop keeps the bound; when the turn leaves [__next__],
    the list holds at most [max_parallel_items] futures. *)
Lemma loop_body_cap env cur s r s' :
  loop_body env cur s = (r, s') ->
  cap_inv s (Running cur) ->
  frame s s' /\
  match r with
  | Ok (Continue cur') => cap_inv s' (Running cur')
  | _ => Z.of_nat (length (_futures s')) <= max_parallel_items s'
  end.
Proof.
  intros H Hinv. unfold loop_body, bind in H.
  destruct (obtain_item cur s) as [r1 s1] eqn:E1.
  apply obtain_item_cap in E1 as (Hfr1 & Hc1 & _); [|exact Hinv].
  destruct r1 as [[p|]|e].
  - apply process_item_cap in H as (Hfr2 & Hr); [|exact Hc1].
    split; [etransitivity; eauto|exact Hr].
  - inversion H; subst. split; [exact Hfr1|left; exact Hc1].
  - inversion H; subst. split; [exact Hfr1|exact Hc1].
Qed.

(** What [close] leaves: no future in any case; no source and no pool when
    every generator could be closed, and otherwise the exception of the
    first [close] that raised, with the sources and the pools still there. *)
Lemma close_run env s :
  world (close env s).2 = world s /\
  max_parallel_items (close env s).2 = max_parallel_items s /\
  workers (close env s).2 = workers s /\
  _context_manager (close env s).2 = _context_manager s /\
  now (close env s).2 = now s /\
  exits (close env s).2 = exits s /\
  _futures (close env s).2 = [] /\
  match close_generators env (_sources s) with
  | (Ok _, _) =>
      (close env s).1 = Ok tt /\ _sources (close env s).2 = [] /\
      _async_pool (close env s).2 = false /\ _thread_pool (close env s).2 = false
  | (Raise e, l) =>
      (close env s).1 = Raise e /\ _sources (close env s).2 = l /\
      _async_pool (close env s).2 = _async_pool s /\
      _thread_pool (close env s).2 = _thread_pool s
  end.
Proof.
  unfold close, bind, modify. simpl.
  destruct (close_generators env (_sources s)) as [[[]|e] l]; simpl;
    split_and!; reflexivity.
Qed.

Lemma transition_cap env x y :
  transition env x y -> cap_inv (fst x) (snd x) ->
  cap_inv (fst y) (snd y) /\ max_parallel_items (fst y) = max_parallel_items (fst x).
Proof.
  intros Ht Hinv. inversion Ht; subst; simpl in *.
  - split; [|reflexivity]. destruct Hinv as [H|(_ & H & _)]; [left; exact H|discriminate].
  - apply loop_body_cap in H as (Hfr & Hr); [|exact Hinv]. split; [exact Hr|apply Hfr].
  - apply loop_body_cap in H as (Hfr & Hr); [|exact Hinv]. split; [left; exact Hr|apply Hfr].
  - apply loop_body_cap in H as (Hfr & Hr); [|exact Hinv]. split; [left; exact Hr|apply Hfr].
  - destruct (close_run env s) as (_ & Hm & _ & _ & _ & _ & Hf & _).
    split; [|exact Hm]. destruct Hinv as [H|(_ & H & _)]; [|discriminate].
    left. rewrite Hf, Hm. simpl. pose proof (Zle_0_nat (length (_futures s))). lia.
  - split; [|reflexivity]. destruct Hinv as [H|(H1 & H2 & H3)]; [left; exact H|right].
    split_and!; auto. simpl. eapply some_done_mono; [|exact H3]. lia.
Qed.

Lemma same_futures_frame {A} (m : M PipeIterator A) :
  preserves same_futures m -> preserves frame m.
Proof. intros H s r s' E. apply (H s r s' E). Qed.

Lemma resolve_futures_frame d : preserves frame (_resolve_futures_rec d).
Proof. intros s r s' E. apply (resolve_futures_shrinks d s r s' E). Qed.

Lemma obtain_item_frame cur : preserves frame (obtain_item cur).
Proof.
  unfold obtain_item, _resolve_futures, _get_source_item.
  pres; try apply resolve_futures_frame;
    try (apply same_futures_frame, get_source_item_same_futures);
    try (apply same_futures_frame, sleep_same_futures).
Qed.

Lemma process_item_frame env p : preserves frame (process_item env p).
Proof. intros s r s' E. apply (process_item_futures env p s r s' E). Qed.

Lemma loop_body_frame env cur : preserves frame (loop_body env cur).
Proof.
  unfold loop_body. pres; try apply obtain_item_frame; apply process_item_frame.
Qed.

Lemma next_loop_frame env fuel : forall cur, preserves frame (next_loop env fuel cur).
Proof.
  induction fuel as [|n IH]; intros cur; simpl; pres;
    try apply loop_body_frame; apply IH.
Qed.

Lemma transition_frame env x y : transition env x y -> frame (fst x) (fst y).
Proof.
  intros Ht. inversion Ht; subst; simpl; try reflexivity;
    try (eapply loop_body_frame; eassumption); frame_leaf.
  destruct (close_run env s) as (_ & Hm & _ & Hc & Hn & He & _).
  unfold frame. split_and!; auto. lia.
Qed.

Lemma reachable_cap env x :
  reachable env x -> 0 <= max_parallel_items (fst x) -> cap_inv (fst x) (snd x).
Proof.
  induction 1 as [s Hs|x y Hx IH Ht]; intros Hmax.
  - left. simpl. rewrite Hs. simpl. exact Hmax.
  - pose proof (transition_frame env x y Ht) as (Hm & _).
    apply (transition_cap env x y Ht). apply IH. lia.
Qed.

Lemma run_turns_reachable env n : forall cur s,
  reachable env (s, Running cur) -> reachable env (run_turns env n cur s).
Proof.
  induction n as [|n IH]; intros cur s Hr; simpl; [exact Hr|].
  destruct (loop_body env cur s) as [[[cur'|x]|e] s'] eqn:E.
  - apply IH. eapply r_step; [exact Hr|]. apply t_turn, E.
  - eapply r_step; [exact Hr|]. eapply t_return, E.
  - eapply r_step; [exact Hr|]. eapply t_raise, E.
Qed.

(** C1. Through every sequence of [__next__] calls, turns of its loop,
    [close] calls and lapses of time, the futures of the list that are not
    done are at most [max_parallel_items] (a non-negative cap), also between
    the two parts of a turn; and a callable or awaitable item is submitted,
    i.e. the list grows, only when it holds fewer than [max_parallel_items]
    entries or one of its entries is done. *)
Theorem in_flight_never_exceeds_cap env :
  (forall s m,
     reachable env (s, m) -> 0 <= max_parallel_items s ->
     Z.of_nat (in_flight s) <= max_parallel_items s) /\
  (forall s cur r1 s1,
     reachable env (s, Running cur) -> 0 <= max_parallel_items s ->
     obtain_item cur s = (r1, s1) ->
     Z.of_nat (in_flight s1) <= max_parallel_items s) /\
  (forall p s r s',
     process_item env p s = (r, s') -> _futures s' <> _futures s ->
     (Z.of_nat (length (_futures s)) < max_parallel_items s \/
      some_done (now s) (_futures s)) /\
     exists fut, _futures s' =
                 _futures s ++ [mkFutureItem fut (pi_step p) (pi_pipe p) (pi_meta p)]).
Proof.
  split_and!.
  - intros s m Hr Hmax. apply (cap_inv_in_flight s m).
    apply (reachable_cap env (s, m) Hr Hmax).
  - intros s cur r1 s1 Hr Hmax Hob.
    pose proof (reachable_cap env (s, Running cur) Hr Hmax) as Hinv.
    apply obtain_item_cap in Hob as ((Hm & _) & Hc & _); [|exact Hinv].
    pose proof (in_flight_le s1). lia.
  - intros p s r s' H Hne.
    apply process_item_futures in H as (_ & [Hsame|(_ & _ & Hgate & Hfut)]);
      [congruence|]. split; assumption.
Qed.

Example deferring_after_six_turns :
  let x := run_turns Ex.env 6 None Ex.deferring in
  length (_futures (fst x)) = 2%nat /\ in_flight (fst x) = 2%nat /\
  snd x = Running (Some (mkPipeItem (PyAwaitable 3) 1 100 None)).
Proof. vm_compute. split_and!; reflexivity. Qed.

Lemma in_flight_never_exceeds_cap_witness :
  Z.of_nat (in_flight (fst (run_turns Ex.env 6 None Ex.deferring))) <= 2.
Proof.
  apply (proj1 (in_flight_never_exceeds_cap Ex.env)
           (fst (run_turns Ex.env 6 None Ex.deferring))
           (snd (run_turns Ex.env 6 None Ex.deferring))).
  - rewrite <- surjective_pairing. apply run_turns_reachable.
    apply (r_step Ex.env (Ex.deferring, Idle)); [apply r_init; reflexivity|apply t_call].
  - vm_compute. discriminate.
Defined.

(** ** [ManagedPipeIterator.__next__] *)




Example managed_next_on_exhaustion :
  fst (ManagedPipeIterator_next Ex.env 10 Ex.finished) = Raise StopIteration /\
  exits (snd (ManagedPipeIterator_next Ex.env 10 Ex.finished)) = [(60%nat, None)].
Proof. vm_compute. split; reflexivity. Qed.

(** ** Items that are [None] *)

Lemma set_world_same s : set_world (world s) s = s.
Proof. destruct s; reflexivity. Qed.

Lemma in_world_get_pipe s a p :
  pipes (world s) !! a = Some p -> in_world (get_pipe a) s = (Ok p, s).
Proof.
  intros H. unfold in_world. rewrite (get_pipe_ok _ _ _ H), set_world_same. reflexivity.
Qed.

(** When the next step returns [None], the turn ends with no item in hand
    and nothing returned. *)
Lemma process_item_drops env pi s p step v s1 :
  plain (pi_item pi) = true ->
  pipes (world s) !! pi_pipe pi = Some p ->
  pi_step pi <> len p - 1 ->
  getitem (_steps p) (pi_step pi + 1) = Ok step ->
  callable step = true ->
  call_step env step (pi_item pi) (pi_meta pi) s = (Ok v, s1) ->
  drops v = true ->
  process_item env pi s = (Ok (Continue None), s1).
Proof.
  intros Hplain Hp Hstep Hget Hcall Hrun Hdrop. unfold process_item.
  unfold plain in Hplain. apply andb_true_iff in Hplain as [H1 H2].
  apply negb_true_iff in H1, H2. rewrite H1, H2.
  rewrite (bind_ok _ _ _ _ _ (in_world_get_pipe _ _ _ Hp)).
  destruct (Z.eqb_spec (pi_step pi) (len p - 1)); [contradiction|].
  unfold lift at 1. rewrite (bind_ok _ _ s step s) by (rewrite Hget; reflexivity).
  rewrite Hcall. cbn [negb].
  rewrite (bind_ok _ _ _ _ _ (invoke_step_ok env p step pi s v s1 Hrun)).
  destruct v as [| | | | |m d|]; try discriminate; [reflexivity|].
  destruct d; try discriminate. reflexivity.
Qed.

(** Whatever [process_item] keeps in hand for the next turn is not [None]. *)
Lemma process_item_keeps_not_None env pi s pi' s' :
  process_item env pi s = (Ok (Continue (Some pi')), s') ->
  is_None (pi_item pi') = false.
Proof.
  unfold process_item, sleep, _next_future, bind, ret, raise, get, lift, modify.
  intros H.
  repeat (case_match; simplify_eq); try reflexivity.
  - destruct (pi_item pi'); try reflexivity; discriminate.
  - simpl. match goal with H : negb (is_None _) = true |- _ =>
             apply negb_true_iff in H; exact H end.
Qed.

Lemma process_item_returns_it env pi s x s' :
  process_item env pi s = (Ok (Return x), s') -> x = pi.
Proof.
  unfold process_item, sleep, _next_future, bind, ret, raise, get, lift, modify.
  intros H.
  repeat (case_match; simplify_eq); reflexivity.
Qed.

Lemma loop_body_keeps_not_None env cur s pi' s' :
  loop_body env cur s = (Ok (Continue (Some pi')), s') ->
  is_None (pi_item pi') = false.
Proof.
  unfold loop_body, bind. intros H.
  destruct (obtain_item cur s) as [[[pi|]|e] s1]; try discriminate.
  eapply process_item_keeps_not_None, H.
Qed.

Lemma reachable_item_not_None env x :
  reachable env x -> forall pi, snd x = Running (Some pi) -> is_None (pi_item pi) = false.
Proof.
  induction 1 as [s Hs|x y Hx IH Ht]; intros pi Hm; [discriminate|].
  inversion Ht; subst; simpl in *; try discriminate.
  - inversion Hm; subst. eapply loop_body_keeps_not_None; eauto.
  - apply IH, Hm.
Qed.

(** Where the item obtained at the start of a turn comes from. *)
Lemma obtain_item_origin x s s1 :
  obtain_item None s = (Ok (Some x), s1) ->
  _resolve_futures s = (Ok (Some x), s1) \/
  exists s0, _get_source_item s0 = (Ok (Some x), s1).
Proof.
  unfold obtain_item, sleep, bind, ret, raise, get, modify. intros H.
  destruct (0 <? length (_futures s))%nat.
  - destruct (_resolve_futures s) as [[[p|]|e] s0] eqn:E; try discriminate.
    + left. simpl in H. inversion H; subst. reflexivity.
    + right. exists s0.
      destruct (_get_source_item s0) as [[[p|]|e] s2] eqn:E2; try discriminate.
      * inversion H; subst. reflexivity.
      * repeat (case_match; simplify_eq).
  - right. exists s. simpl in H.
    destruct (_get_source_item s) as [[[p|]|e] s2] eqn:E2; try discriminate.
    + inversion H; subst. reflexivity.
    + repeat (case_match; simplify_eq).
Qed.

(** C2, as the code has it.  When a transform returns [None] (as such or as
    the data of a [DataItemWithMeta]) the item is dropped: the turn ends with
    no item in hand and nothing returned.  No item that goes on to a later
    turn is [None].  A [PipeItem] returned by [__next__] is [None] only when
    that [None] was handed over, in the very turn that returns it, by
    [_resolve_futures] or by [_get_source_item], i.e. when it is the result of
    a future or was yielded by a source iterator: such a [None] is not
    filtered. *)
Theorem None_dropped_after_transform_only env :
  (forall pi s p step v s1,
     plain (pi_item pi) = true ->
     pipes (world s) !! pi_pipe pi = Some p ->
     pi_step pi <> len p - 1 ->
     getitem (_steps p) (pi_step pi + 1) = Ok step ->
     callable step = true ->
     call_step env step (pi_item pi) (pi_meta pi) s = (Ok v, s1) ->
     drops v = true ->
     process_item env pi s = (Ok (Continue None), s1)) /\
  (forall s cur pi' s',
     loop_body env cur s = (Ok (Continue (Some pi')), s') ->
     is_None (pi_item pi') = false) /\
  (forall s cur x s',
     reachable env (s, Running cur) ->
     loop_body env cur s = (Ok (Return x), s') ->
     is_None (pi_item x) = true ->
     cur = None /\
     exists s1, obtain_item None s = (Ok (Some x), s1) /\
                (_resolve_futures s = (Ok (Some x), s1) \/
                 exists s0, _get_source_item s0 = (Ok (Some x), s1))).
Proof.
  split_and!.
  - apply process_item_drops.
  - intros s cur pi' s'. apply loop_body_keeps_not_None.
  - intros s cur x s' Hr Hrun Hnone.
    pose proof (reachable_item_not_None env _ Hr) as Hcur. simpl in Hcur.
    unfold loop_body, bind in Hrun.
    destruct (obtain_item cur s) as [[[pi|]|e] s1] eqn:E; try discriminate.
    apply process_item_returns_it in Hrun as ->.
    destruct cur as [p0|].
    + simpl in E. inversion E; subst. rewrite (Hcur pi eq_refl) in Hnone. discriminate.
    + split; [reflexivity|]. exists s1. split; [exact E|].
      apply obtain_item_origin, E.
Qed.

Lemma None_dropped_after_transform_only_witness :
  process_item Ex.env (mkPipeItem Ex.one 0 100 None)
    (Ex.running [Ex.two] [Ex.h_item_meta] 20)
  = (Ok (Continue None), Ex.running [Ex.two] [Ex.h_item_meta] 20).
Proof.
  apply (proj1 (None_dropped_after_transform_only Ex.env)
           (mkPipeItem Ex.one 0 100 None) (Ex.running [Ex.two] [Ex.h_item_meta] 20)
           (mkPipe "numbers" 0 [Ex.head_of [Ex.two]; Ex.h_item_meta]
              ("numbers", 100%nat) None)
           Ex.h_item_meta PyNone (Ex.running [Ex.two] [Ex.h_item_meta] 20));
    try reflexivity.
  simpl. unfold len. simpl. lia.
Defined.

(** C2, as the specification states it, fails: the resource
    [Pipe("numbers", [[None, 1]])] has its head as only step; the source
    iterator yields [None], which [_get_source_item] wraps into a
    [ResolvablePipeItem] that is not [None] itself, and [__next__] returns it:
    a [PipeItem] whose value is [None]. *)
Lemma source_None_is_returned :
  fst (PipeIterator_next Ex.env 10 Ex.yields_None)
    = Ok (Some (mkPipeItem PyNone 0 100 None)) /\
  is_None (pi_item (mkPipeItem PyNone 0 100 None)) = true.
Proof. vm_compute. split; reflexivity. Qed.

(** * Further properties of the code *)

(** ** Edits that fail *)

Lemma append_step_raise_keeps self step w e w' :
  append_step self step w = (Raise e, w') ->
  pipes w' = pipes w /\ forks w' = forks w.
Proof.
  unfold append_step. intros H.
  destruct (pipes w !! self) as [p|] eqn:Hp.
  2:{ unfold bind, get_pipe in H. rewrite Hp in H. inversion H. auto. }
  rewrite (bind_ok _ _ _ _ _ (get_pipe_ok _ _ _ Hp)) in H.
  destruct ((length (_steps p) =? 0)%nat && negb (has_parent p)).
  - unfold bind at 1 in H. unfold bind at 1 in H. unfold lift in H.
    destruct (_verify_head_step p step) as [[]|e0].
    + unfold ret, update_pipe, modify in H. inversion H.
    + inversion H. auto.
  - unfold bind at 1 in H.
    destruct (_wrap_transform_step_meta self (Z.of_nat (length (_steps p))) step w)
      as [[s'|e0] w1] eqn:E.
    + unfold update_pipe, modify in H. inversion H.
    + inversion H; subst. eapply wrap_keeps_objects, E.
Qed.

Lemma insert_step_raise_keeps self step index w e w' :
  insert_step self step index w = (Raise e, w') ->
  pipes w' = pipes w /\ forks w' = forks w.
Proof.
  unfold insert_step. intros H.
  destruct (pipes w !! self) as [p|] eqn:Hp.
  2:{ unfold bind, get_pipe in H. rewrite Hp in H. inversion H. auto. }
  rewrite (bind_ok _ _ _ _ _ (get_pipe_ok _ _ _ Hp)) in H.
  destruct (length (_steps p) =? 0)%nat; [eapply append_step_raise_keeps, H|].
  destruct ((index =? 0) && negb (has_parent p)).
  - unfold bind at 1, raise at 1 in H. inversion H. auto.
  - unfold bind at 1, ret at 1 in H. unfold bind at 1 in H.
    destruct (_wrap_transform_step_meta self index step w) as [[s'|e0] w1] eqn:E.
    + unfold bind, update_pipe, modify, ret in H.
      destruct (index <=? _gen_idx p); inversion H.
    + inversion H; subst. eapply wrap_keeps_objects, E.
Qed.

Lemma remove_step_raise_keeps self index w e w' :
  remove_step self index w = (Raise e, w') -> w' = w.
Proof.
  unfold remove_step. intros H.
  destruct (pipes w !! self) as [p|] eqn:Hp.
  2:{ unfold bind, get_pipe in H. rewrite Hp in H. inversion H. auto. }
  rewrite (bind_ok _ _ _ _ _ (get_pipe_ok _ _ _ Hp)) in H.
  destruct (index =? _gen_idx p).
  - unfold raise in H. inversion H. auto.
  - unfold bind at 1, lift at 1 in H. destruct (pop (_steps p) index) as [x|e0].
    + unfold bind, update_pipe, modify, ret in H.
      destruct (index <? _gen_idx p); inversion H.
    + inversion H. auto.
Qed.

(** X1. An edit of a pipe that raises leaves every pipe and every fork as
    it was: [append_step], [insert_step] and [remove_step] make their checks
    before they touch [_steps] and [_gen_idx]. *)
Theorem failed_edit_changes_no_pipe self o w e w' :
  run_op self o w = (Raise e, w') ->
  pipes w' = pipes w /\ forks w' = forks w.
Proof.
  destruct o as [s|s i|i]; simpl; intros H.
  - eapply append_step_raise_keeps, H.
  - eapply insert_step_raise_keeps, H.
  - apply remove_step_raise_keeps in H. subst. auto.
Qed.

Lemma failed_edit_changes_no_pipe_witness :
  pipes (snd (run_op 100 (OpInsert Ex.f_item 0) Ex.resource_world))
    = pipes Ex.resource_world /\
  forks (snd (run_op 100 (OpInsert Ex.f_item 0) Ex.resource_world))
    = forks Ex.resource_world.
Proof.
  apply (failed_edit_changes_no_pipe 100 (OpInsert Ex.f_item 0) Ex.resource_world
           (CreatePipeException "numbers"
              "You cannot insert a step before head of the resource that is not a transformer")).
  vm_compute. reflexivity.
Defined.

(** ** Steps that a pipe accepts *)

Lemma ensure_transform_step_ok p n s :
  _ensure_transform_step p n s = Ok tt ->
  callable s = true /\ bind_item_meta (signature s) = None.
Proof.
  unfold _ensure_transform_step. destruct (callable s); simpl; [|discriminate].
  destruct (bind_item_meta (signature s)); [|auto].
  destruct (n =? _gen_idx p); [destruct (length (signature s) =? 0)%nat|]; discriminate.
Qed.

Lemma wrap_meta_fields i s :
  callable (wrap_meta i s) = true /\
  code_of (wrap_meta i s) = code_of s /\
  get_callable_name (wrap_meta i s) = get_callable_name s.
Proof. unfold wrap_meta. simpl. auto. Qed.

Lemma wrap_transform_ok self n step w step' w' p :
  pipes w !! self = Some p ->
  _wrap_transform_step_meta self n step w = (Ok step', w') ->
  pipes w' = pipes w /\ forks w' = forks w /\
  callable step' = true /\
  (step' = step \/ step' = wrap_meta (next_id w) step) /\
  (_steps p <> [] -> bind_item_meta (signature step') = None).
Proof.
  intros Hp H.
  destruct (wrap_keeps_objects _ _ _ _ _ _ H) as [Hpipes Hforks].
  split; [exact Hpipes|]. split; [exact Hforks|].
  unfold _wrap_transform_step_meta in H.
  rewrite (bind_ok _ _ _ _ _ (get_pipe_ok _ _ _ Hp)) in H.
  destruct (is_Iterable step || is_Iterator step); [destruct (has_parent p); discriminate|].
  destruct (callable step) eqn:Hcall; [|discriminate]. cbn [negb] in H.
  destruct (length (signature step) =? 0)%nat; [discriminate|].
  unfold bind at 1 in H.
  assert (Hempty : _steps p <> [] -> negb (is_empty p) = true).
  { intros Hne. unfold is_empty. destruct (_steps p); [congruence|reflexivity]. }
  destruct (List.find (fun q => String.eqb (p_name q) "meta") (signature step)) as [m|].
  - destruct (negb (bool_decide (p_kind m = KEYWORD_ONLY)
                    || bool_decide (p_kind m = POSITIONAL_OR_KEYWORD))); [discriminate|].
    unfold ret at 1 in H. unfold bind in H.
    destruct (negb (is_empty p)) eqn:He.
    + unfold lift in H. destruct (_ensure_transform_step p n step) as [[]|e] eqn:E;
        [|discriminate].
      unfold ret in H. inversion H; subst. split_and!; auto.
      intros _. eapply ensure_transform_step_ok, E.
    + unfold ret in H. inversion H; subst. split_and!; auto.
      intros Hne. specialize (Hempty Hne). congruence.
  - destruct (length (signature step) =? 1)%nat.
    + unfold bind at 1, fresh at 1, ret at 1 in H. unfold bind in H.
      destruct (negb (is_empty p)) eqn:He.
      * unfold lift in H.
        destruct (_ensure_transform_step p n (wrap_meta (next_id w) step)) as [[]|e] eqn:E;
          [|discriminate].
        unfold ret in H. inversion H; subst. split_and!; auto.
        intros _. eapply ensure_transform_step_ok, E.
      * unfold ret in H. inversion H; subst. split_and!; auto.
        intros Hne. specialize (Hempty Hne). congruence.
    + unfold ret at 1 in H. unfold bind in H.
      destruct (negb (is_empty p)) eqn:He.
      * unfold lift in H. destruct (_ensure_transform_step p n step) as [[]|e] eqn:E;
          [|discriminate].
        unfold ret in H. inversion H; subst. split_and!; auto.
        intros _. eapply ensure_transform_step_ok, E.
      * unfold ret in H. inversion H; subst. split_and!; auto.
        intros Hne. specialize (Hempty Hne). congruence.
Qed.

(** X2. A step that [append_step] or [insert_step] adds to a pipe that has
    steps already is callable and binds the call [step(item, meta=meta)] that
    the dispatcher makes; it is the step given or the wrapper made for it,
    with the same name and the same code. *)
Theorem added_step_binds self step w w' p :
  pipes w !! self = Some p -> _steps p <> [] ->
  (append_step self step w = (Ok tt, w') ->
   exists step',
     pipes w' !! self = Some (set_steps (_steps p ++ [step']) p) /\
     callable step' = true /\ bind_item_meta (signature step') = None /\
     code_of step' = code_of step /\
     get_callable_name step' = get_callable_name step) /\
  (forall index,
     insert_step self step index w = (Ok tt, w') ->
     exists step' p',
       pipes w' !! self = Some p' /\
       _steps p' = Py.insert (_steps p) index step' /\
       callable step' = true /\ bind_item_meta (signature step') = None /\
       code_of step' = code_of step /\
       get_callable_name step' = get_callable_name step).
Proof.
  intros Hp Hne.
  assert (Hlen : (length (_steps p) =? 0)%nat = false).
  { destruct (_steps p); [congruence|reflexivity]. }
  assert (Hsame : forall step', step' = step \/ step' = wrap_meta (next_id w) step ->
            code_of step' = code_of step /\ get_callable_name step' = get_callable_name step).
  { intros step' [->| ->]; [auto|]. apply wrap_meta_fields. }
  split.
  - intros H. unfold append_step in H.
    rewrite (bind_ok _ _ _ _ _ (get_pipe_ok _ _ _ Hp)), Hlen in H. cbn [andb] in H.
    unfold bind at 1 in H.
    destruct (_wrap_transform_step_meta self (Z.of_nat (length (_steps p))) step w)
      as [[step'|e] w1] eqn:E; [|discriminate].
    destruct (wrap_transform_ok _ _ _ _ _ _ _ Hp E) as (Hpipes & _ & Hc & Hor & Hb).
    assert (Hp1 : pipes w1 !! self = Some p) by (rewrite Hpipes; exact Hp).
    rewrite (update_pipe_with _ _ _ _ Hp1) in H. inversion H; subst.
    exists step'. rewrite with_pipe_lookup. destruct (Hsame _ Hor). split_and!; auto.
  - intros index H. unfold insert_step in H.
    rewrite (bind_ok _ _ _ _ _ (get_pipe_ok _ _ _ Hp)), Hlen in H.
    destruct ((index =? 0) && negb (has_parent p)); [discriminate|].
    unfold bind at 1, ret at 1 in H. unfold bind at 1 in H.
    destruct (_wrap_transform_step_meta self index step w) as [[step'|e] w1] eqn:E;
      [|discriminate].
    destruct (wrap_transform_ok _ _ _ _ _ _ _ Hp E) as (Hpipes & _ & Hc & Hor & Hb).
    assert (Hp1 : pipes w1 !! self = Some p) by (rewrite Hpipes; exact Hp).
    rewrite (bind_ok _ _ _ _ _ (update_pipe_with _ _ _ _ Hp1)) in H.
    destruct (Hsame _ Hor).
    destruct (index <=? _gen_idx p).
    + erewrite update_pipe_with in H by apply with_pipe_lookup.
      inversion H; subst. eexists step', _. rewrite with_pipe_lookup.
      split_and!; auto.
    + unfold ret in H. inversion H; subst. eexists step', _. rewrite with_pipe_lookup.
      split_and!; auto.
Qed.

Lemma added_step_binds_witness :
  exists step',
    pipes (snd (append_step 100 Ex.f_item Ex.resource_world)) !! 100%nat
      = Some (set_steps (_steps Ex.resource ++ [step']) Ex.resource) /\
    callable step' = true /\ bind_item_meta (signature step') = None /\
    code_of step' = code_of Ex.f_item /\
    get_callable_name step' = get_callable_name Ex.f_item.
Proof.
  apply (proj1 (added_step_binds 100 Ex.f_item Ex.resource_world
                  (snd (append_step 100 Ex.f_item Ex.resource_world)) Ex.resource
                  eq_refl ltac:(discriminate))).
  vm_compute. reflexivity.
Defined.

Lemma bind_wrapped_positional prm :
  positional prm = true -> String.eqb (p_name prm) "meta" = false ->
  bind_item_meta ([prm] ++ [mkParam "meta" KEYWORD_ONLY true]) = None /\
  exists msg, bind_item_meta [prm] = Some msg.
Proof.
  unfold positional. intros Hk Hn. destruct prm as [nm k d]. simpl in *.
  destruct k; try discriminate; simpl; rewrite ?Hn, ?andb_false_r; simpl; eauto.
Qed.

Lemma wrap_one_parameter self n w p c prm :
  pipes w !! self = Some p -> _steps p <> [] ->
  c_params c = [prm] -> positional prm = true ->
  String.eqb (p_name prm) "meta" = false ->
  _wrap_transform_step_meta self n (SCallable c) w =
    (Ok (wrap_meta (next_id w) (SCallable c)),
     mkWorld (pipes w) (forks w) (S (next_id w))).
Proof.
  intros Hp Hne Hsig Hpos Hname.
  destruct (bind_wrapped_positional prm Hpos Hname) as [Hw _].
  assert (Hemp : is_empty p = false).
  { unfold is_empty. destruct (_steps p); [congruence|reflexivity]. }
  unfold _wrap_transform_step_meta.
  rewrite (bind_ok _ _ _ _ _ (get_pipe_ok _ _ _ Hp)).
  cbn [is_Iterable is_Iterator callable signature orb negb].
  rewrite Hsig. cbn [length Nat.eqb List.find]. rewrite Hname, Hemp. cbn [negb].
  unfold _ensure_transform_step, bind, fresh, ret, lift.
  cbn [callable wrap_meta signature negb c_params]. rewrite Hsig, Hw.
  reflexivity.
Qed.

(** X3. A function of one positional parameter that is not [meta] is
    stored as a wrapper with a keyword [meta]: the dispatcher's call
    [step(item, meta=meta)] of the wrapper runs the function on the item
    alone, whatever the meta, while the same call of the function itself
    would raise a [TypeError]. *)
Theorem one_parameter_step_runs_without_meta env self w p c prm :
  pipes w !! self = Some p -> _steps p <> [] ->
  c_params c = [prm] -> positional prm = true ->
  String.eqb (p_name prm) "meta" = false ->
  append_step self (SCallable c) w =
    (Ok tt,
     mkWorld (<[self := set_steps (_steps p ++ [wrap_meta (next_id w) (SCallable c)]) p]>
                (pipes w))
             (forks w) (S (next_id w))) /\
  (forall item meta s,
     call_step env (wrap_meta (next_id w) (SCallable c)) item meta s
     = (step_body env (c_code c) item None, s)) /\
  (forall item meta s,
     exists msg, call_step env (SCallable c) item meta s = (Raise (TypeError msg), s)).
Proof.
  intros Hp Hne Hsig Hpos Hname.
  destruct (bind_wrapped_positional prm Hpos Hname) as [Hw [msg Ho]].
  assert (Hlen : (length (_steps p) =? 0)%nat = false).
  { destruct (_steps p); [congruence|reflexivity]. }
  assert (Hemp : is_empty p = false) by exact Hlen.
  split_and!.
  - unfold append_step.
    rewrite (bind_ok _ _ _ _ _ (get_pipe_ok _ _ _ Hp)), Hlen. cbn [andb].
    rewrite (bind_ok _ _ _ _ _ (wrap_one_parameter _ _ _ _ _ _ Hp Hne Hsig Hpos Hname)).
    erewrite update_pipe_eq by exact Hp. reflexivity.
  - intros item meta s. unfold wrap_meta, call_step. simpl. rewrite Hsig, Hw.
    unfold lift. reflexivity.
  - intros item meta s. exists msg. unfold call_step. rewrite Hsig, Ho. reflexivity.
Qed.

Lemma one_parameter_step_runs_without_meta_witness :
  append_step 100 Ex.f_item Ex.resource_world =
    (Ok tt,
     mkWorld (<[100%nat := set_steps (_steps Ex.resource ++ [wrap_meta 101 Ex.f_item])
                             Ex.resource]> (pipes Ex.resource_world))
             (forks Ex.resource_world) 102) /\
  (forall item meta s,
     call_step Ex.env (wrap_meta 101 Ex.f_item) item meta s
     = (step_body Ex.env 1 item None, s)) /\
  (forall item meta s,
     exists msg, call_step Ex.env Ex.f_item item meta s = (Raise (TypeError msg), s)).
Proof.
  apply (one_parameter_step_runs_without_meta Ex.env 100 Ex.resource_world Ex.resource
           (mkCallable 4 "f" [Ex.item_param] 1 false) Ex.item_param);
    first [reflexivity | discriminate].
Defined.

(** ** [replace_gen] *)

(** X4. [replace_gen(g)] on a pipe whose [_gen_idx] designates a step puts
    [g], unchecked, in the place of that step and touches nothing else:
    [gen] returns [g] afterwards, the other steps, the length and
    [_gen_idx] are as before.  On a pipe without steps it raises
    [AssertionError] and changes nothing. *)
Theorem replace_gen_then_gen self g w p :
  pipes w !! self = Some p ->
  (in_range (_steps p) (_gen_idx p) = true ->
   exists p',
     replace_gen self g w = (Ok tt, with_pipe w self p') /\
     gen p' = Ok g /\
     length (_steps p') = length (_steps p) /\
     _gen_idx p' = _gen_idx p /\ name p' = name p /\ parent p' = parent p /\
     forall i, i <> Z.to_nat (norm_index (_steps p) (_gen_idx p)) ->
               _steps p' !! i = _steps p !! i) /\
  (_steps p = [] -> replace_gen self g w = (Raise AssertionError, w)).
Proof.
  intros Hp. split.
  - intros Hr. pose proof (norm_index_lt _ _ Hr) as Hlt.
    assert (Hemp : is_empty p = false).
    { unfold is_empty. destruct (_steps p); [simpl in Hlt; lia|reflexivity]. }
    exists (set_steps (<[Z.to_nat (norm_index (_steps p) (_gen_idx p)) := g]> (_steps p)) p).
    split_and!.
    + unfold replace_gen.
      rewrite (bind_ok _ _ _ _ _ (get_pipe_ok _ _ _ Hp)), Hemp.
      unfold setitem. rewrite Hr. unfold lift, bind at 1.
      apply update_pipe_with, Hp.
    + unfold gen, getitem. simpl.
      assert (Hn : norm_index (<[Z.to_nat (norm_index (_steps p) (_gen_idx p)) := g]> (_steps p))
                     (_gen_idx p) = norm_index (_steps p) (_gen_idx p)).
      { unfold norm_index. rewrite length_insert. reflexivity. }
      assert (Hr' : in_range (<[Z.to_nat (norm_index (_steps p) (_gen_idx p)) := g]> (_steps p))
                      (_gen_idx p) = true).
      { unfold in_range in *. rewrite Hn, length_insert. exact Hr. }
      rewrite Hr', Hn, list_lookup_insert_eq by exact Hlt. reflexivity.
    + simpl. apply length_insert.
    + reflexivity.
    + reflexivity.
    + reflexivity.
    + intros i Hi. simpl. apply list_lookup_insert_ne. auto.
  - intros He. unfold replace_gen.
    rewrite (bind_ok _ _ _ _ _ (get_pipe_ok _ _ _ Hp)). unfold is_empty. rewrite He.
    reflexivity.
Qed.

Lemma replace_gen_then_gen_witness :
  exists p',
    replace_gen 101 Ex.f_item Ex.transformer_world
      = (Ok tt, with_pipe Ex.transformer_world 101 p') /\
    gen p' = Ok Ex.f_item /\
    length (_steps p') = 2%nat /\
    _gen_idx p' = 1 /\ name p' = "t" /\ parent p' = Some 100%nat /\
    forall i, i <> 1%nat -> _steps p' !! i = _steps Ex.transformer !! i.
Proof.
  apply (proj1 (replace_gen_then_gen 101 Ex.f_item Ex.transformer_world Ex.transformer
                  eq_refl)).
  reflexivity.
Defined.

(** ** [fork] with several children *)

(** X5. Two calls of [fork] with different children on a pipe whose last
    step is not a fork append one fork step, which holds the two edges in the
    order of the calls; the fork keeps the [copy_on_fork] of the first call,
    that of the second call is not used. *)
Theorem fork_second_child_joins_fork w self p s c1 s1 cof1 c2 s2 cof2 :
  pipes w !! self = Some p ->
  tail p = Ok s -> is_ForkPipe s = false ->
  c1 <> c2 ->
  (fork self c1 s1 cof1 ;; fork self c2 s2 cof2) w =
    (Ok tt,
     mkWorld (<[self := set_steps (_steps p ++ [SForkPipe (next_id w)]) p]> (pipes w))
             (<[next_id w := mkForkPipe [(c1, s1); (c2, s2)] cof1]> (forks w))
             (S (next_id w))).
Proof.
  intros Hp Ht Hs Hc.
  assert (Hne : _steps p <> []).
  { intros He. unfold tail, getitem in Ht. rewrite He in Ht. discriminate. }
  rewrite (bind_ok _ _ _ _ _ (fork_new _ _ _ _ c1 s1 cof1 Hp Hne Ht Hs)).
  rewrite (fork_absent _ self (set_steps (_steps p ++ [SForkPipe (next_id w)]) p)
             (next_id w) (mkForkPipe [(c1, s1)] cof1) c2 s2 cof2).
  - unfold with_fork. simpl. rewrite insert_insert_eq. reflexivity.
  - simpl. apply lookup_insert_eq.
  - simpl. destruct (_steps p); [congruence|]. discriminate.
  - apply tail_append.
  - simpl. apply lookup_insert_eq.
  - simpl. intros Hin. apply list_elem_of_singleton in Hin. congruence.
Qed.

Lemma fork_second_child_joins_fork_witness :
  (fork 100 101 (-1) true ;; fork 100 100 1 false) Ex.transformer_world =
    (Ok tt,
     mkWorld (<[100%nat := set_steps (_steps Ex.resource ++ [SForkPipe 102]) Ex.resource]>
                (pipes Ex.transformer_world))
             (<[102%nat := mkForkPipe [(101%nat, -1); (100%nat, 1)] true]>
                (forks Ex.transformer_world))
             103).
Proof.
  apply (fork_second_child_joins_fork Ex.transformer_world 100 Ex.resource
           Ex.g_item_meta 101 (-1) true 100 1 false);
    first [reflexivity | discriminate].
Defined.

(** ** [is_data_bound] and [evaluate_gen] *)

Lemma is_data_bound_rec_root w a n r :
  root_of w a n r ->
  forall depth, (n < depth)%nat ->
  is_data_bound_rec depth w a = Ok (negb (is_empty r)).
Proof.
  induction 1 as [a p Hp Hpar|a p q n r Hp Hpar Hroot IH]; intros depth Hd.
  - destruct depth; [lia|]. simpl. rewrite Hp, Hpar. reflexivity.
  - destruct depth; [lia|]. simpl. rewrite Hp, Hpar. apply IH. lia.
Qed.

(** X6. [is_data_bound] of a pipe is decided by the root of its parent
    chain alone: the pipe is bound exactly when the root has steps, whatever
    the steps of the pipe itself and of the pipes in between. *)
Theorem is_data_bound_is_that_of_root w self n r :
  root_of w self n r -> (n < recursion_limit)%nat ->
  is_data_bound self w = (Ok (negb (is_empty r)), w).
Proof.
  intros Hroot Hn. unfold is_data_bound.
  rewrite (is_data_bound_rec_root _ _ _ _ Hroot _ Hn). reflexivity.
Qed.

Lemma transformer_root : root_of Ex.transformer_world 101 1 Ex.resource.
Proof.
  apply (root_up _ 101%nat Ex.transformer 100%nat 0%nat Ex.resource);
    [reflexivity|reflexivity|].
  apply root_here; reflexivity.
Qed.

Lemma is_data_bound_is_that_of_root_witness :
  is_data_bound 101 Ex.transformer_world = (Ok true, Ex.transformer_world).
Proof.
  apply (is_data_bound_is_that_of_root Ex.transformer_world 101 1 Ex.resource
           transformer_root).
  unfold recursion_limit. lia.
Defined.

Lemma gen_ok_not_empty p g : gen p = Ok g -> _steps p <> [] /\ is_empty p = false.
Proof.
  intros H. apply getitem_in_range in H as [Hr _]. apply norm_index_lt in Hr.
  unfold is_empty. destruct (_steps p); [simpl in Hr; lia|]. split; [discriminate|reflexivity].
Qed.

Lemma call_noargs_keeps env g w r w1 :
  call_noargs env g w = (r, w1) -> pipes w1 = pipes w /\ forks w1 = forks w.
Proof.
  unfold call_noargs. intros H.
  destruct g as [| |c| |]; try (inversion H; auto; fail).
  destruct (bind_noargs (c_params c)); [inversion H; auto|].
  unfold bind, fresh, lift in H. inversion H. auto.
Qed.

(** X7. [evaluate_gen] on a resource (no parent) whose generator is
    callable calls it without arguments.  What the call returns is written at
    index 0 of the steps; when the call raises a [TypeError], be it for its
    arguments or from the body of the function, the pipe is left as it was and
    [ParametrizedResourceUnbound] is raised; any other exception goes through
    unchanged. *)
Theorem evaluate_gen_calls_head env self w p g :
  pipes w !! self = Some p -> parent p = None ->
  gen p = Ok g -> callable g = true ->
  (forall it w1,
     call_noargs env g w = (Ok it, w1) ->
     evaluate_gen env self w
     = (Ok tt, with_pipe w1 self (set_steps (<[0%nat := it]> (_steps p)) p))) /\
  (forall e w1,
     call_noargs env g w = (Raise e, w1) ->
     evaluate_gen env self w
     = (Raise (if is_TypeError e
               then ParametrizedResourceUnbound (name p) (get_callable_name g)
                      (signature g) "resource"
               else e), w1) /\
     pipes w1 = pipes w).
Proof.
  intros Hp Hpar Hg Hc.
  destruct (gen_ok_not_empty _ _ Hg) as [Hne Hemp].
  assert (Hhp : has_parent p = false) by (unfold has_parent; rewrite Hpar; reflexivity).
  assert (Hstart :
            evaluate_gen env self w =
            (let! it := try_except (call_noargs env g)
                          (fun e => if is_TypeError e
                                    then raise (ParametrizedResourceUnbound (name p)
                                                  (get_callable_name g) (signature g) "resource")
                                    else raise e) in
             let! l := lift (setitem (_steps p) 0 it) in
             update_pipe self (set_steps l)) w).
  { unfold evaluate_gen.
    rewrite (bind_ok _ _ _ _ _ (is_data_bound_parentless _ _ _ Hp Hpar)).
    rewrite (bind_ok _ _ _ _ _ (get_pipe_ok _ _ _ Hp)), Hemp. cbn [negb].
    unfold lift at 1. unfold bind at 1. rewrite Hg, Hhp, Hc. reflexivity. }
  rewrite Hstart. split.
  - intros it w1 Hcall. destruct (call_noargs_keeps _ _ _ _ _ Hcall) as [Hpipes _].
    unfold bind at 1, try_except. rewrite Hcall.
    assert (Hset : setitem (_steps p) 0 it = Ok (<[0%nat := it]> (_steps p))).
    { unfold setitem, in_range, norm_index. destruct (_steps p); [congruence|]. reflexivity. }
    rewrite Hset. unfold lift, bind. apply update_pipe_with. rewrite Hpipes. exact Hp.
  - intros e w1 Hcall. destruct (call_noargs_keeps _ _ _ _ _ Hcall) as [Hpipes _].
    split; [|exact Hpipes].
    unfold bind at 1, try_except. rewrite Hcall. destruct (is_TypeError e); reflexivity.
Qed.

Lemma evaluate_gen_calls_head_witness :
  evaluate_gen Ex.env 100 Ex.producer_world
  = (Ok tt, with_pipe (mkWorld (pipes Ex.producer_world) ∅ 102) 100
              (set_steps (<[0%nat := Ex.produced]> (_steps Ex.producer_pipe))
                 Ex.producer_pipe)).
Proof.
  apply (proj1 (evaluate_gen_calls_head Ex.env 100 Ex.producer_world Ex.producer_pipe
                  Ex.producer eq_refl eq_refl eq_refl eq_refl)).
  reflexivity.
Defined.

(** X8. [evaluate_gen] on a pipe whose root has no steps raises
    [PipeNotBoundToData], with the name of the pipe and whether it has a
    parent, and changes nothing. *)
Theorem evaluate_gen_unbound env self w p n r :
  pipes w !! self = Some p ->
  root_of w self n r -> (n < recursion_limit)%nat -> _steps r = [] ->
  evaluate_gen env self w = (Raise (PipeNotBoundToData (name p) (has_parent p)), w).
Proof.
  intros Hp Hroot Hn He. unfold evaluate_gen.
  rewrite (bind_ok _ _ _ _ _ (is_data_bound_is_that_of_root _ _ _ _ Hroot Hn)).
  rewrite (bind_ok _ _ _ _ _ (get_pipe_ok _ _ _ Hp)).
  unfold is_empty. rewrite He. reflexivity.
Qed.

Lemma unbound_root : root_of Ex.unbound_world 101 1 Ex.no_steps.
Proof.
  apply (root_up _ 101%nat Ex.unbound 100%nat 0%nat Ex.no_steps);
    [reflexivity|reflexivity|].
  apply root_here; reflexivity.
Qed.

Lemma evaluate_gen_unbound_witness :
  evaluate_gen Ex.env 101 Ex.unbound_world
  = (Raise (PipeNotBoundToData "t" true), Ex.unbound_world).
Proof.
  apply (evaluate_gen_unbound Ex.env 101 Ex.unbound_world Ex.unbound 1 Ex.no_steps
           eq_refl unbound_root); [unfold recursion_limit; lia|reflexivity].
Defined.

Lemma gen_of_no_steps p : _steps p = [] -> gen p = Raise IndexError.
Proof.
  intros He. unfold gen, getitem. rewrite He.
  destruct (in_range (A := Step) [] (_gen_idx p)) eqn:E; [|reflexivity].
  apply in_range_spec in E. simpl in E. lia.
Qed.

(** X9. [evaluate_gen] on a transformer (a pipe with a parent) whose root
    has steps only verifies the generator and never changes the store: it
    succeeds when the generator binds [(item, meta=meta)]; a generator without
    parameters raises [InvalidTransformerGeneratorFunction], one whose
    parameters do not bind raises [ParametrizedResourceUnbound] with the
    signature less its first parameter, and a transformer without steps
    raises [IndexError]. *)
Theorem evaluate_gen_transformer_verifies env self w p q n r :
  pipes w !! self = Some p -> parent p = Some q ->
  root_of w self n r -> (n < recursion_limit)%nat -> _steps r <> [] ->
  (forall g, gen p = Ok g -> callable g = true ->
     bind_item_meta (signature g) = None ->
     evaluate_gen env self w = (Ok tt, w)) /\
  (forall g, gen p = Ok g -> callable g = true -> signature g = [] ->
     evaluate_gen env self w
     = (Raise (InvalidTransformerGeneratorFunction (name p) (get_callable_name g) [] 1), w)) /\
  (forall g msg, gen p = Ok g -> callable g = true -> signature g <> [] ->
     bind_item_meta (signature g) = Some msg ->
     evaluate_gen env self w
     = (Raise (ParametrizedResourceUnbound (name p) (get_callable_name g)
                 (List.tl (signature g)) "transformer"), w)) /\
  (_steps p = [] -> evaluate_gen env self w = (Raise IndexError, w)).
Proof.
  intros Hp Hpar Hroot Hn Hne.
  assert (Hhp : has_parent p = true) by (unfold has_parent; rewrite Hpar; reflexivity).
  assert (Hb : negb (is_empty r) = true).
  { unfold is_empty. destruct (_steps r); [congruence|reflexivity]. }
  assert (Hstart : evaluate_gen env self w =
            (let! g := lift (gen p) in lift (_ensure_transform_step p (_gen_idx p) g)) w).
  { unfold evaluate_gen.
    rewrite (bind_ok _ _ _ _ _ (is_data_bound_is_that_of_root _ _ _ _ Hroot Hn)).
    rewrite (bind_ok _ _ _ _ _ (get_pipe_ok _ _ _ Hp)), Hb. cbn [negb].
    unfold bind, lift. destruct (gen p); [rewrite Hhp|]; reflexivity. }
  rewrite Hstart. unfold bind, lift, _ensure_transform_step. split_and!.
  - intros g Hg Hc Hbind. rewrite Hg, Hc, Hbind. reflexivity.
  - intros g Hg Hc Hsig. rewrite Hg, Hc, Hsig, Z.eqb_refl. reflexivity.
  - intros g msg Hg Hc Hsig Hbind. rewrite Hg, Hc, Hbind, Z.eqb_refl. cbn [negb].
    destruct (signature g); [congruence|]. reflexivity.
  - intros He. rewrite (gen_of_no_steps _ He). reflexivity.
Qed.

Lemma evaluate_gen_transformer_verifies_witness :
  evaluate_gen Ex.env 101 Ex.transformer_world = (Ok tt, Ex.transformer_world).
Proof.
  apply (proj1 (evaluate_gen_transformer_verifies Ex.env 101 Ex.transformer_world
                  Ex.transformer 100 1 Ex.resource eq_refl eq_refl transformer_root
                  ltac:(unfold recursion_limit; lia) ltac:(discriminate))
           Ex.g_item_meta); reflexivity.
Defined.

(** ** Sources *)

Lemma getitem_last {A} (l : list A) x : getitem (l ++ [x]) (-1) = Ok x.
Proof.
  unfold getitem, in_range, norm_index. rewrite length_app. simpl.
  replace (-1 + Z.of_nat (length l + 1)) with (Z.of_nat (length l)) by lia.
  rewrite Nat2Z.id.
  destruct (Z.leb_spec 0 (Z.of_nat (length l))); [|lia].
  destruct (Z.ltb_spec (Z.of_nat (length l)) (Z.of_nat (length l + 1))); [|lia].
  simpl. rewrite lookup_app_r by lia. rewrite Nat.sub_diag. reflexivity.
Qed.

Lemma pop_last {A} (l : list A) x : pop (l ++ [x]) (-1) = Ok (x, l).
Proof.
  unfold pop, in_range, norm_index. rewrite length_app. simpl.
  replace (-1 + Z.of_nat (length l + 1)) with (Z.of_nat (length l)) by lia.
  rewrite Nat2Z.id.
  destruct (Z.leb_spec 0 (Z.of_nat (length l))); [|lia].
  destruct (Z.ltb_spec (Z.of_nat (length l)) (Z.of_nat (length l + 1))); [|lia].
  simpl. rewrite lookup_app_r by lia. rewrite Nat.sub_diag. simpl.
  rewrite delete_middle. rewrite app_nil_r. reflexivity.
Qed.

Lemma insert_last {A} (l : list A) x y :
  <[(length (l ++ [x]) - 1)%nat := y]> (l ++ [x]) = l ++ [y].
Proof.
  rewrite length_app. simpl. replace (length l + 1 - 1)%nat with (length l + 0)%nat by lia.
  rewrite insert_app_r. reflexivity.
Qed.

Lemma length_snoc_eqb {A} (l : list A) x : (length (l ++ [x]) =? 0)%nat = false.
Proof. rewrite length_app. simpl. apply Nat.eqb_neq. lia. Qed.

(** [next] on the newest source yields [x]. *)
Lemma get_source_item_yields depth s ss src x xs fin :
  _sources s = ss ++ [src] ->
  si_item src = PyIterator (x :: xs) fin ->
  _get_source_item_rec (S depth) s
  = (Ok (Some (source_item src x)), set_sources (ss ++ [advanced src xs fin]) s).
Proof.
  intros Hs Hit. simpl. unfold bind at 1, get at 1. rewrite Hs, length_snoc_eqb.
  rewrite getitem_last. unfold lift at 1, bind at 1. rewrite Hit. simpl py_next.
  cbn [fst snd]. rewrite insert_last. unfold bind at 1, modify at 1.
  unfold source_item, advanced. destruct x; reflexivity.
Qed.

(** The newest source is exhausted: it is removed and the next one is tried. *)
Lemma get_source_item_pops depth s ss src :
  _sources s = ss ++ [src] -> exhausted src ->
  _get_source_item_rec (S depth) s = _get_source_item_rec depth (set_sources ss s).
Proof.
  intros Hs Hit. unfold exhausted in Hit. simpl.
  unfold bind at 1, get at 1. rewrite Hs, length_snoc_eqb.
  rewrite getitem_last. unfold lift at 1, bind at 1. rewrite Hit. simpl py_next.
  cbn [fst snd]. rewrite insert_last. unfold bind at 1, modify at 1.
  cbn [is_StopIteration]. unfold bind at 1, get at 1. cbn [_sources set_sources].
  assert (Hsrc : mkSourceItem (PyIterator [] None) (si_step src) (si_pipe src) (si_meta src) = src).
  { destruct src; simpl in *; subst; reflexivity. }
  rewrite Hsrc, pop_last. unfold lift at 1, bind at 1. unfold bind at 1, modify at 1.
  cbn [fst snd]. destruct s; reflexivity.
Qed.

Lemma get_source_item_skips tail : forall depth s ss,
  _sources s = ss ++ tail -> Forall exhausted tail ->
  _get_source_item_rec (length tail + depth) s
  = _get_source_item_rec depth (set_sources ss s).
Proof.
  induction tail as [|src tail IH] using rev_ind; intros depth s ss Hs Hex.
  - rewrite app_nil_r in Hs. simpl. destruct s; simpl in *; subst; reflexivity.
  - apply Forall_app in Hex as [Hex Hsrc]. apply Forall_inv in Hsrc.
    rewrite length_app. simpl.
    replace (length tail + 1 + depth)%nat with (S (length tail + depth)) by lia.
    assert (Hs' : _sources s = (ss ++ tail) ++ [src]) by (rewrite Hs, app_assoc; reflexivity).
    rewrite (get_source_item_pops _ s (ss ++ tail) src Hs' Hsrc).
    rewrite (IH depth _ ss); [|reflexivity|exact Hex].
    destruct s; reflexivity.
Qed.

Lemma get_source_item_none depth s :
  _sources s = [] -> _get_source_item_rec (S depth) s = (Ok None, s).
Proof.
  intros Hs. simpl. unfold bind, get. rewrite Hs. reflexivity.
Qed.

(** X10. [_get_source_item] serves the newest source that still has
    something to yield: the exhausted sources added after it are removed,
    the older ones are left alone, and the item is given the step, the pipe
    and the meta of that source unless it comes with its own.  When every
    source is exhausted the list is emptied and [None] is returned. *)
Theorem get_source_item_serves_newest s ss src tail :
  _sources s = ss ++ src :: tail ->
  Forall exhausted tail -> (length tail < recursion_limit - 1)%nat ->
  (forall x xs fin,
     si_item src = PyIterator (x :: xs) fin ->
     _get_source_item s
     = (Ok (Some (source_item src x)), set_sources (ss ++ [advanced src xs fin]) s)) /\
  (exhausted src -> ss = [] ->
     _get_source_item s = (Ok None, set_sources [] s)).
Proof.
  intros Hs Hex Hlen. unfold _get_source_item.
  assert (Hd : exists d, recursion_limit = (length tail + S (S d))%nat).
  { exists (recursion_limit - length tail - 2)%nat. unfold recursion_limit in *. lia. }
  destruct Hd as [d ->]. split.
  - intros x xs fin Hit.
    assert (Hs' : _sources s = (ss ++ [src]) ++ tail) by (rewrite Hs, <- app_assoc; reflexivity).
    rewrite (get_source_item_skips tail (S (S d)) s (ss ++ [src]) Hs' Hex).
    rewrite (get_source_item_yields _ _ ss src x xs fin); [|reflexivity|exact Hit].
    destruct s; reflexivity.
  - intros Hsrc ->.
    rewrite (get_source_item_skips tail (S (S d)) s [src] Hs Hex).
    rewrite (get_source_item_pops _ _ [] src); [|reflexivity|exact Hsrc].
    rewrite get_source_item_none by reflexivity. destruct s; reflexivity.
Qed.

Lemma get_source_item_serves_newest_witness :
  _get_source_item
    (set_sources [mkSourceItem (PyIterator [Ex.one; Ex.two] None) 0 100 None;
                  mkSourceItem (PyIterator [] None) 1 100 None] Ex.finished)
  = (Ok (Some (mkPipeItem Ex.one 0 100 None)),
     set_sources [mkSourceItem (PyIterator [Ex.two] None) 0 100 None] Ex.finished).
Proof.
  apply (proj1 (get_source_item_serves_newest
                  (set_sources [mkSourceItem (PyIterator [Ex.one; Ex.two] None) 0 100 None;
                                mkSourceItem (PyIterator [] None) 1 100 None] Ex.finished)
                  [] (mkSourceItem (PyIterator [Ex.one; Ex.two] None) 0 100 None)
                  [mkSourceItem (PyIterator [] None) 1 100 None]
                  eq_refl
                  ltac:(repeat constructor)
                  ltac:(unfold recursion_limit; simpl; lia))
           Ex.one [Ex.two] None eq_refl).
Defined.

(** ** The end of the iteration *)

Lemma obtain_item_sources s :
  _futures s = [] ->
  obtain_item None s =
  (let! pipe_item := _get_source_item in
   match pipe_item with
   | None =>
       let! s := get in
       if (length (_futures s) =? 0)%nat && (length (_sources s) =? 0)%nat
       then raise StopIteration
       else sleep ;; ret None
   | Some _ => ret pipe_item
   end) s.
Proof.
  intros Hf. unfold obtain_item. unfold bind at 1, get at 1. rewrite Hf. reflexivity.
Qed.

(** X11. An iterator without futures whose sources are all exhausted is at
    its end: [__next__] raises [StopIteration] and empties the list of
    sources.  So it is after a [close] that returned: every later [__next__]
    raises [StopIteration] and changes nothing. *)
Theorem next_at_the_end_stops env fuel s :
  (_futures s = [] -> Forall exhausted (_sources s) ->
   (length (_sources s) < recursion_limit)%nat ->
   PipeIterator_next env (S fuel) s = (Raise StopIteration, set_sources [] s)) /\
  (fst (close env s) = Ok tt ->
   PipeIterator_next env (S fuel) (snd (close env s))
   = (Raise StopIteration, snd (close env s))).
Proof.
  assert (Hend : forall s, _futures s = [] -> Forall exhausted (_sources s) ->
            (length (_sources s) < recursion_limit)%nat ->
            PipeIterator_next env (S fuel) s = (Raise StopIteration, set_sources [] s)).
  { clear s. intros s Hf Hex Hlen.
    assert (Hget : _get_source_item s = (Ok None, set_sources [] s)).
    { unfold _get_source_item.
      replace recursion_limit
        with (length (_sources s) + S (recursion_limit - length (_sources s) - 1))%nat by lia.
      rewrite (get_source_item_skips (_sources s) _ s [] eq_refl Hex).
      apply get_source_item_none. reflexivity. }
    unfold PipeIterator_next. simpl. unfold loop_body.
    unfold bind at 1. unfold bind at 1. rewrite (obtain_item_sources _ Hf).
    unfold bind at 1. rewrite Hget. unfold bind at 1, get at 1. simpl. rewrite Hf.
    reflexivity. }
  split; [apply Hend|].
  intros Hok.
  destruct (close_run env s) as (_ & _ & _ & _ & _ & _ & Hf & Hcl).
  destruct (close_generators env (_sources s)) as [[[]|e] l].
  2:{ destruct Hcl as (Hr & _). congruence. }
  destruct Hcl as (_ & Hs & _).
  rewrite Hend;
    [|exact Hf|rewrite Hs; constructor|rewrite Hs; simpl; unfold recursion_limit; lia].
  f_equal. rewrite <- Hs. destruct (close env s).2; reflexivity.
Qed.

(** ** An item through the steps of its pipe *)

Lemma plain_tests o :
  plain o = true ->
  item_is_Iterator o = false /\ item_is_Awaitable o || item_callable o = false.
Proof.
  unfold plain. intros H. apply andb_true_iff in H as [H1 H2].
  apply negb_true_iff in H1, H2. auto.
Qed.

(** A plain item at the last step of its pipe is returned. *)
Lemma process_item_last env pi s p :
  plain (pi_item pi) = true ->
  pipes (world s) !! pi_pipe pi = Some p ->
  pi_step pi = len p - 1 ->
  process_item env pi s = (Ok (Return pi), s).
Proof.
  intros Hplain Hp Hstep. destruct (plain_tests _ Hplain) as [H1 H2].
  apply orb_false_iff in H2 as [Ha Hc].
  unfold process_item. rewrite H1, Ha, Hc. cbn [orb].
  rewrite (bind_ok _ _ _ _ _ (in_world_get_pipe _ _ _ Hp)).
  rewrite Hstep, Z.eqb_refl. reflexivity.
Qed.

(** A plain item before the last step goes through the next step. *)
Lemma process_item_advances env pi s p c v :
  plain (pi_item pi) = true ->
  pipes (world s) !! pi_pipe pi = Some p ->
  pi_step pi <> len p - 1 ->
  getitem (_steps p) (pi_step pi + 1) = Ok (SCallable c) ->
  bind_item_meta (c_params c) = None ->
  step_body env (c_code c) (pi_item pi) (if c_drops_meta c then None else pi_meta pi)
    = Ok v ->
  process_item env pi s =
    (Ok (Continue
           (if is_None (fst (unwrap_meta v (pi_meta pi))) then None
            else Some (mkPipeItem (fst (unwrap_meta v (pi_meta pi))) (pi_step pi + 1)
                         (pi_pipe pi) (snd (unwrap_meta v (pi_meta pi)))))), s).
Proof.
  intros Hplain Hp Hstep Hget Hbind Hbody. destruct (plain_tests _ Hplain) as [H1 H2].
  unfold process_item. rewrite H1, H2.
  rewrite (bind_ok _ _ _ _ _ (in_world_get_pipe _ _ _ Hp)).
  destruct (Z.eqb_spec (pi_step pi) (len p - 1)); [contradiction|].
  unfold lift at 1. rewrite (bind_ok _ _ s (SCallable c) s) by (rewrite Hget; reflexivity).
  cbn [callable negb].
  assert (Hcall : call_step env (SCallable c) (pi_item pi) (pi_meta pi) s = (Ok v, s)).
  { unfold call_step. rewrite Hbind, Hbody. reflexivity. }
  rewrite (bind_ok _ _ _ _ _ (invoke_step_ok env p _ pi s v s Hcall)).
  unfold unwrap_meta. destruct v; cbn [fst snd];
    match goal with |- context [is_None ?d] => destruct (is_None d) end; reflexivity.
Qed.

Lemma getitem_drop {A} (l : list A) (k : Z) x rest :
  -1 <= k -> drop (Z.to_nat (k + 1)) l = x :: rest ->
  getitem l (k + 1) = Ok x /\ k + 1 < Z.of_nat (length l) /\
  drop (Z.to_nat (k + 1 + 1)) l = rest.
Proof.
  intros Hk Hd.
  assert (Hx : l !! Z.to_nat (k + 1) = Some x).
  { rewrite <- (Nat.add_0_r (Z.to_nat (k + 1))), <- lookup_drop, Hd. reflexivity. }
  pose proof (lookup_lt_Some _ _ _ Hx) as Hlt.
  split_and!.
  - apply getitem_in_range. unfold in_range, norm_index.
    destruct (Z.ltb_spec (k + 1) 0); [lia|].
    split; [|exact Hx].
    apply andb_true_iff. split; [apply Z.leb_le; lia|apply Z.ltb_lt; lia].
  - lia.
  - replace (Z.to_nat (k + 1 + 1)) with (Z.to_nat (k + 1) + 1)%nat by lia.
    rewrite <- drop_drop, Hd. reflexivity.
Qed.

Lemma next_loop_turn env fuel cur s c s' :
  loop_body env cur s = (Ok c, s') ->
  next_loop env (S fuel) cur s =
  match c with
  | Continue cur' => next_loop env fuel cur' s'
  | Return x => (Ok (Some x), s')
  end.
Proof. intros H. simpl. unfold bind. rewrite H. destruct c; reflexivity. Qed.

Lemma loop_body_in_hand env pi s :
  loop_body env (Some pi) s = process_item env pi s.
Proof. unfold loop_body, obtain_item, bind, ret. reflexivity. Qed.

(** The item in hand goes through the steps that are left. *)
Lemma next_loop_through env rest : forall pi s p,
  pipes (world s) !! pi_pipe pi = Some p ->
  -1 <= pi_step pi ->
  drop (Z.to_nat (pi_step pi + 1)) (_steps p) = rest ->
  pi_step pi < len p ->
  plain (pi_item pi) = true ->
  match through env rest (pi_item pi) (pi_meta pi) with
  | Some (Some (v, m)) =>
      forall fuel, (length rest < fuel)%nat ->
        next_loop env fuel (Some pi) s
        = (Ok (Some (mkPipeItem v (len p - 1) (pi_pipe pi) m)), s)
  | Some None =>
      exists n, (0 < n <= length rest)%nat /\
        forall fuel, next_loop env (n + fuel) (Some pi) s = next_loop env fuel None s
  | None => True
  end.
Proof.
  induction rest as [|step rest IH]; intros pi s p Hp Hk Hdrop Hlt Hplain.
  - simpl. intros fuel Hfuel. destruct fuel as [|fuel]; [simpl in Hfuel; lia|].
    assert (Hlast : pi_step pi = len p - 1).
    { apply drop_nil_inv in Hdrop as Hd. unfold len in *. lia. }
    rewrite (next_loop_turn env fuel _ s (Return pi) s)
      by (rewrite loop_body_in_hand; eapply process_item_last; eauto).
    rewrite <- Hlast. destruct pi; reflexivity.
  - destruct (getitem_drop _ _ _ _ Hk Hdrop) as (Hget & Hlen & Hrest).
    simpl. destruct step as [| |c| |]; try exact I.
    destruct (bind_item_meta (c_params c)) eqn:Hbind; [exact I|].
    destruct (step_body env (c_code c) (pi_item pi)
                (if c_drops_meta c then None else pi_meta pi)) as [v|e] eqn:Hbody;
      [|exact I].
    assert (Hstep : pi_step pi <> len p - 1) by (unfold len; lia).
    pose proof (process_item_advances env pi s p c v Hplain Hp Hstep Hget Hbind Hbody)
      as Hturn.
    destruct (is_None (fst (unwrap_meta v (pi_meta pi)))) eqn:Hnone.
    + exists 1%nat. split; [simpl; lia|]. intros fuel.
      rewrite (next_loop_turn env fuel _ s (Continue None) s)
        by (rewrite loop_body_in_hand; exact Hturn).
      reflexivity.
    + destruct (plain (fst (unwrap_meta v (pi_meta pi)))) eqn:Hpl; [|exact I].
      specialize (IH (mkPipeItem (fst (unwrap_meta v (pi_meta pi))) (pi_step pi + 1)
                        (pi_pipe pi) (snd (unwrap_meta v (pi_meta pi)))) s p).
      cbn [pi_item pi_step pi_pipe pi_meta] in IH.
      specialize (IH Hp ltac:(lia) Hrest ltac:(unfold len; lia) Hpl).
      destruct (through env rest (fst (unwrap_meta v (pi_meta pi)))
                  (snd (unwrap_meta v (pi_meta pi)))) as [[[v' m']|]|]; [| |exact I].
      * intros fuel Hfuel. destruct fuel as [|fuel]; [simpl in Hfuel; lia|].
        rewrite (next_loop_turn env fuel _ s _ s)
          by (rewrite loop_body_in_hand; exact Hturn).
        apply IH. simpl in Hfuel. lia.
      * destruct IH as (n & Hn & IH). exists (S n). split; [simpl; lia|].
        intros fuel. cbn [Nat.add].
        rewrite (next_loop_turn env (n + fuel) _ s _ s)
          by (rewrite loop_body_in_hand; exact Hturn).
        apply IH.
Qed.

(** A turn without an item in hand takes one from the newest source. *)
Lemma next_loop_takes_from_source env fuel s ss src x xs fin :
  _futures s = [] ->
  _sources s = ss ++ [src] ->
  si_item src = PyIterator (x :: xs) fin ->
  next_loop env (S fuel) None s
  = next_loop env (S fuel) (Some (source_item src x))
      (set_sources (ss ++ [advanced src xs fin]) s).
Proof.
  intros Hf Hs Hit.
  assert (Hget : _get_source_item s
                 = (Ok (Some (source_item src x)),
                    set_sources (ss ++ [advanced src xs fin]) s)).
  { unfold _get_source_item. change recursion_limit with (S 999).
    apply get_source_item_yields; assumption. }
  assert (Hbody : loop_body env None s
                  = process_item env (source_item src x)
                      (set_sources (ss ++ [advanced src xs fin]) s)).
  { unfold loop_body. unfold bind at 1. rewrite (obtain_item_sources _ Hf).
    unfold bind at 1. rewrite Hget. reflexivity. }
  cbn [next_loop]. unfold bind. rewrite Hbody, loop_body_in_hand. reflexivity.
Qed.

(** X12. A call of [__next__] on an iterator without futures takes the
    next item of the newest source and applies the steps that follow, in
    order, each to the value and the meta the one before returned.  When the
    last one returns a value, the call returns it at the last step of the
    pipe, and the state differs only by the source, which is advanced; when
    one of them returns [None], the call goes on as if the item had not been
    there. *)
Theorem next_applies_steps_in_order env s ss src x xs fin p :
  _futures s = [] ->
  _sources s = ss ++ [src] ->
  si_item src = PyIterator (x :: xs) fin ->
  pipes (world s) !! pi_pipe (source_item src x) = Some p ->
  -1 <= pi_step (source_item src x) < len p ->
  plain (pi_item (source_item src x)) = true ->
  (forall v m,
     through env (drop (Z.to_nat (pi_step (source_item src x) + 1)) (_steps p))
       (pi_item (source_item src x)) (pi_meta (source_item src x)) = Some (Some (v, m)) ->
     forall fuel, (length (_steps p) < fuel)%nat ->
       PipeIterator_next env fuel s
       = (Ok (Some (mkPipeItem v (len p - 1) (pi_pipe (source_item src x)) m)),
          set_sources (ss ++ [advanced src xs fin]) s)) /\
  (through env (drop (Z.to_nat (pi_step (source_item src x) + 1)) (_steps p))
     (pi_item (source_item src x)) (pi_meta (source_item src x)) = Some None ->
   exists n, (n <= length (_steps p))%nat /\
     forall fuel,
       PipeIterator_next env (S n + fuel) s
       = PipeIterator_next env fuel (set_sources (ss ++ [advanced src xs fin]) s)).
Proof.
  intros Hf Hs Hit Hp [Hk Hlt] Hplain.
  pose proof (next_loop_through env _ (source_item src x)
                (set_sources (ss ++ [advanced src xs fin]) s) p Hp Hk eq_refl Hlt Hplain)
    as Hthrough.
  assert (Hlen : (length (drop (Z.to_nat (pi_step (source_item src x) + 1)) (_steps p))
                  <= length (_steps p))%nat) by (rewrite length_drop; lia).
  split.
  - intros v m Ht fuel Hfuel. rewrite Ht in Hthrough.
    destruct fuel as [|fuel]; [lia|]. unfold PipeIterator_next.
    rewrite (next_loop_takes_from_source env fuel s ss src x xs fin Hf Hs Hit).
    apply Hthrough. lia.
  - intros Ht. rewrite Ht in Hthrough. destruct Hthrough as (n & Hn & Hthrough).
    destruct n as [|n]; [lia|]. exists n. split; [lia|]. intros fuel.
    unfold PipeIterator_next. cbn [Nat.add].
    rewrite (next_loop_takes_from_source env _ s ss src x xs fin Hf Hs Hit).
    apply (Hthrough fuel).
Qed.

Lemma next_applies_steps_in_order_witness :
  PipeIterator_next Ex.env 4
    (Ex.running [Ex.one; Ex.two] [Ex.g_item_meta; wrap_meta 13 Ex.f_item] 20)
  = (Ok (Some (mkPipeItem (PyData 2 10) 2 100 None)),
     set_sources [mkSourceItem (PyIterator [Ex.two] None) 0 100 None]
       (Ex.running [Ex.one; Ex.two] [Ex.g_item_meta; wrap_meta 13 Ex.f_item] 20)).
Proof.
  apply (proj1 (next_applies_steps_in_order Ex.env
                  (Ex.running [Ex.one; Ex.two] [Ex.g_item_meta; wrap_meta 13 Ex.f_item] 20)
                  [] (mkSourceItem (PyIterator [Ex.one; Ex.two] None) 0 100 None)
                  Ex.one [Ex.two] None
                  (mkPipe "numbers" 0
                     (Ex.head_of [Ex.one; Ex.two]
                      :: [Ex.g_item_meta; wrap_meta 13 Ex.f_item])
                     ("numbers", 100%nat) None)
                  eq_refl eq_refl eq_refl eq_refl
                  ltac:(unfold len; simpl; lia) eq_refl)
           (PyData 2 10) None eq_refl 4%nat ltac:(simpl; lia)).
Defined.

Lemma first_done_pending t l1 : forall f l2 i,
  Forall (pending t) l1 -> done t (fi_item f) = true ->
  first_done t (l1 ++ f :: l2) i = i + Z.of_nat (length l1).
Proof.
  induction l1 as [|g l1 IH]; intros f l2 i Hp Hd; simpl.
  - rewrite Hd. lia.
  - inversion Hp as [|? ? Hg Hrest]; subst. unfold pending in Hg. rewrite Hg.
    rewrite IH by assumption. lia.
Qed.

Lemma first_done_none t l : forall i, Forall (pending t) l -> first_done t l i = -1.
Proof.
  induction l as [|g l IH]; intros i Hp; simpl; [reflexivity|].
  inversion Hp as [|? ? Hg Hrest]; subst. unfold pending in Hg. rewrite Hg. apply IH, Hrest.
Qed.

Lemma pop_middle {A} (l1 : list A) x l2 :
  pop (l1 ++ x :: l2) (Z.of_nat (length l1)) = Ok (x, l1 ++ l2).
Proof.
  unfold pop, in_range, norm_index.
  destruct (Z.ltb_spec (Z.of_nat (length l1)) 0); [lia|].
  rewrite length_app. simpl length.
  destruct (Z.leb_spec 0 (Z.of_nat (length l1))); [|lia].
  destruct (Z.ltb_spec (Z.of_nat (length l1)) (Z.of_nat (length l1 + S (length l2)))); [|lia].
  simpl. rewrite Nat2Z.id, list_lookup_middle by reflexivity.
  rewrite delete_middle. reflexivity.
Qed.

Lemma resolve_futures_rec_first_done d s l1 f l2 :
  _futures s = l1 ++ f :: l2 ->
  Forall (pending (now s)) l1 ->
  done (now s) (fi_item f) = true -> cancelled (fi_item f) = false ->
  _resolve_futures_rec (S d) s = (resolved f, set_futures (l1 ++ l2) s).
Proof.
  intros Hf Hp Hd Hc. cbn [_resolve_futures_rec].
  unfold bind at 1, get at 1. rewrite Hf.
  assert (Hlen : (length (l1 ++ f :: l2) =? 0)%nat = false).
  { rewrite length_app. simpl. apply Nat.eqb_neq. lia. }
  rewrite Hlen. unfold bind at 1, _next_future at 1. rewrite Hf.
  rewrite (first_done_pending _ _ _ _ 0 Hp Hd), Z.add_0_l.
  destruct (Z.eqb_spec (Z.of_nat (length l1)) (-1)); [lia|].
  rewrite pop_middle. unfold lift at 1, bind at 1. unfold bind at 1, modify at 1.
  cbn [fst snd]. rewrite Hc. unfold resolved, unwrap_meta.
  destruct (outcome (fi_item f)) as [v|e]; [destruct v|]; reflexivity.
Qed.

Lemma resolve_futures_rec_none d s :
  Forall (pending (now s)) (_futures s) -> _resolve_futures_rec (S d) s = (Ok None, s).
Proof.
  intros Hp. cbn [_resolve_futures_rec]. unfold bind at 1, get at 1.
  destruct (length (_futures s) =? 0)%nat; [reflexivity|].
  unfold bind, _next_future. rewrite (first_done_none _ _ 0 Hp). reflexivity.
Qed.

(** X13. [_resolve_futures] takes the first entry, in the order of the
    list, whose future is done: it is removed from the list, the entries
    before and after it stay; its exception is raised, or its result comes
    back with the step and the pipe of the entry, and with its meta unless
    the result brings one.  When no future is done nothing changes and
    [None] is returned. *)
Theorem resolve_futures_takes_first_done s :
  (forall l1 f l2,
     _futures s = l1 ++ f :: l2 ->
     Forall (pending (now s)) l1 ->
     done (now s) (fi_item f) = true -> cancelled (fi_item f) = false ->
     _resolve_futures s = (resolved f, set_futures (l1 ++ l2) s)) /\
  (Forall (pending (now s)) (_futures s) -> _resolve_futures s = (Ok None, s)).
Proof.
  unfold _resolve_futures. change recursion_limit with (S 999). split.
  - intros l1 f l2. apply resolve_futures_rec_first_done.
  - apply resolve_futures_rec_none.
Qed.

Lemma resolve_futures_takes_first_done_witness :
  _resolve_futures
    (set_now 5 (set_futures [mkFutureItem (mkFuture 9 (Ok Ex.one) false) 0 100 None;
                             mkFutureItem (mkFuture 3 (Ok Ex.two) false) 1 100 (Some 7)]
                  Ex.finished))
  = (Ok (Some (mkPipeItem Ex.two 1 100 (Some 7))),
     set_futures [mkFutureItem (mkFuture 9 (Ok Ex.one) false) 0 100 None]
       (set_now 5 (set_futures [mkFutureItem (mkFuture 9 (Ok Ex.one) false) 0 100 None;
                                mkFutureItem (mkFuture 3 (Ok Ex.two) false) 1 100 (Some 7)]
                     Ex.finished))).
Proof.
  apply (proj1 (resolve_futures_takes_first_done
                  (set_now 5 (set_futures
                     [mkFutureItem (mkFuture 9 (Ok Ex.one) false) 0 100 None;
                      mkFutureItem (mkFuture 3 (Ok Ex.two) false) 1 100 (Some 7)]
                     Ex.finished)))
           [mkFutureItem (mkFuture 9 (Ok Ex.one) false) 0 100 None]
           (mkFutureItem (mkFuture 3 (Ok Ex.two) false) 1 100 (Some 7)) []
           eq_refl ltac:(repeat constructor) eq_refl eq_refl).
Defined.




(** ** Iterators returned by a step *)

(** X15. An item that is an iterator becomes the newest source, with the
    step, the pipe and the meta of the item: what it yields is served before
    what the older sources have left, and goes on from the step that returned
    the iterator. *)
Theorem iterator_item_is_served_next env pi s y ys fin :
  pi_item pi = PyIterator (y :: ys) fin ->
  process_item env pi s
  = (Ok (Continue None),
     set_sources (_sources s ++ [mkSourceItem (PyIterator (y :: ys) fin) (pi_step pi)
                                   (pi_pipe pi) (pi_meta pi)]) s) /\
  _get_source_item
    (set_sources (_sources s ++ [mkSourceItem (PyIterator (y :: ys) fin) (pi_step pi)
                                   (pi_pipe pi) (pi_meta pi)]) s)
  = (Ok (Some (source_item (mkSourceItem (PyIterator (y :: ys) fin) (pi_step pi)
                              (pi_pipe pi) (pi_meta pi)) y)),
     set_sources (_sources s ++ [mkSourceItem (PyIterator ys fin) (pi_step pi)
                                   (pi_pipe pi) (pi_meta pi)]) s).
Proof.
  intros Hit. split.
  - unfold process_item. rewrite Hit. reflexivity.
  - unfold _get_source_item. change recursion_limit with (S 999).
    erewrite get_source_item_yields; [|reflexivity|reflexivity].
    destruct s; reflexivity.
Qed.

Lemma iterator_item_is_served_next_witness :
  process_item Ex.env (mkPipeItem (PyIterator [Ex.two; Ex.three] None) 1 100 (Some 7))
    Ex.finished
  = (Ok (Continue None),
     set_sources (_sources Ex.finished
                  ++ [mkSourceItem (PyIterator [Ex.two; Ex.three] None) 1 100 (Some 7)])
       Ex.finished) /\
  _get_source_item
    (set_sources (_sources Ex.finished
                  ++ [mkSourceItem (PyIterator [Ex.two; Ex.three] None) 1 100 (Some 7)])
       Ex.finished)
  = (Ok (Some (mkPipeItem Ex.two 1 100 (Some 7))),
     set_sources (_sources Ex.finished
                  ++ [mkSourceItem (PyIterator [Ex.three] None) 1 100 (Some 7)])
       Ex.finished).
Proof.
  apply (iterator_item_is_served_next Ex.env
           (mkPipeItem (PyIterator [Ex.two; Ex.three] None) 1 100 (Some 7))
           Ex.finished Ex.two [Ex.three] None eq_refl).
Defined.

(** ** A context manager whose exit raises *)

(** X16. When [__next__] raises an instance of [Exception] and the
    [__exit__] of the context manager raises in its turn,
    [ManagedPipeIterator.__next__] raises the exception of [__exit__] and
    does not reach [close]: the futures and the sources are left as
    [__next__] left them. *)
Theorem managed_next_exit_raises_keeps_open env fuel s ctx e e' s' :
  _context_manager s = Some ctx ->
  cm_exit_raises ctx = Some e' ->
  PipeIterator_next env fuel s = (Raise e, s') ->
  is_Exception e = true ->
  exists s'',
    ManagedPipeIterator_next env fuel s = (Raise e', s'') /\
    exits s'' = exits s ++ [(cm_id ctx, if is_StopIteration e then None else Some e)] /\
    _futures s'' = _futures s' /\ _sources s'' = _sources s' /\
    _async_pool s'' = _async_pool s' /\ _thread_pool s'' = _thread_pool s'.
Proof.
  intros Hctx Hexit Hnext Hexn.
  destruct (next_loop_frame env fuel None s _ s' Hnext) as (_ & Hc & Hex & _).
  unfold ManagedPipeIterator_next, try_except. rewrite Hnext, Hexn.
  unfold bind at 1. unfold bind at 1, get at 1. rewrite Hc, Hctx.
  destruct (is_StopIteration e);
    unfold ctx_exit, bind, modify, raise; rewrite Hexit, Hex;
    eexists; (split; [reflexivity|]); simpl; auto.
Qed.

Lemma managed_next_exit_raises_keeps_open_witness :
  exists s'',
    ManagedPipeIterator_next Ex.env 10
      (set_context (Some (mkContextManager 61 (Some (UserError 2)))) Ex.failing)
    = (Raise (UserError 2), s'') /\
    exits s'' = [] ++ [(61%nat, Some (UserError 1))] /\
    _futures s'' = [] /\
    _sources s'' = [mkSourceItem (PyIterator [] None) 0 100 None] /\
    _async_pool s'' = false /\ _thread_pool s'' = false.
Proof.
  apply (managed_next_exit_raises_keeps_open Ex.env 10
           (set_context (Some (mkContextManager 61 (Some (UserError 2)))) Ex.failing)
           (mkContextManager 61 (Some (UserError 2))) (UserError 1) (UserError 2)
           (set_sources [mkSourceItem (PyIterator [] None) 0 100 None]
              (set_context (Some (mkContextManager 61 (Some (UserError 2)))) Ex.failing))
           eq_refl eq_refl).
  - vm_compute. reflexivity.
  - reflexivity.
Defined.

(** ** [full_pipe] *)

Lemma new_pipe_empty nm w :
  Pipe_init nm [] None w
  = (Ok (next_id w),
     mkWorld (<[next_id w := mkPipe nm 0 [] (nm, next_id w) None]> (pipes w))
             (forks w) (S (next_id w))).
Proof. reflexivity. Qed.

Lemma full_pipe_check_ok p w :
  gen_verified p ->
  ((if has_parent p then
      let! g := lift (gen p) in lift (_ensure_transform_step p (_gen_idx p) g)
    else lift (ensure_gen_bound p)) : M World unit) w = (Ok tt, w).
Proof.
  unfold gen_verified, has_parent. destruct (parent p).
  - intros (g & Hg & Hok). unfold bind, lift. rewrite Hg, Hok. reflexivity.
  - intros Hok. unfold lift. rewrite Hok. reflexivity.
Qed.

Lemma full_pipe_rec_spec w0 : forall self l,
  ancestry w0 self l ->
  Forall gen_verified l ->
  forall depth w,
  (length l <= depth)%nat ->
  allocated w ->
  (forall a : addr, is_Some (pipes w0 !! a) -> pipes w !! a = pipes w0 !! a) ->
  exists r w',
    full_pipe_rec depth self w = (Ok r, w') /\
    (next_id w <= r < next_id w')%nat /\
    allocated w' /\
    (forall a : addr, (a < next_id w)%nat -> pipes w' !! a = pipes w !! a) /\
    exists p, head l = Some p /\
      pipes w' !! r = Some (mkPipe (name p) 0 (concat (reverse (_steps <$> l)))
                              (name p, r) None).
Proof.
  induction 1 as [a p Hp Hpar|a p q l Hp Hpar Hanc IH];
    intros Hver depth w Hdepth Halloc Hsame.
  - destruct depth as [|depth]; [simpl in Hdepth; lia|].
    apply Forall_inv in Hver.
    assert (Hpw : pipes w !! a = Some p) by (rewrite Hsame; eauto).
    cbn [full_pipe_rec].
    rewrite (bind_ok _ _ _ _ _ (get_pipe_ok _ _ _ Hpw)).
    rewrite (bind_ok _ _ _ _ _ (full_pipe_check_ok p w Hver)).
    rewrite Hpar.
    rewrite (bind_ok _ _ w (_steps p) w)
      by (rewrite (bind_ok _ _ _ _ _ (get_pipe_ok _ _ _ Hpw)); reflexivity).
    rewrite (bind_ok _ _ _ _ _ (get_pipe_ok _ _ _ Hpw)).
    rewrite (bind_ok _ _ _ _ _ (new_pipe_empty (name p) w)).
    erewrite bind_ok by (apply update_pipe_eq; apply lookup_insert_eq).
    eexists _, _. split; [reflexivity|]. simpl. split_and!.
    + lia.
    + lia.
    + intros b Hb. simpl in *. rewrite insert_insert_eq in Hb.
      destruct (decide (b = next_id w)) as [->|Hne]; [lia|].
      rewrite lookup_insert_ne in Hb by auto. apply Halloc in Hb. lia.
    + intros b Hb. rewrite insert_insert_eq, lookup_insert_ne by lia. reflexivity.
    + exists p. split; [reflexivity|]. rewrite insert_insert_eq, lookup_insert_eq.
      rewrite app_nil_r. reflexivity.
  - destruct depth as [|depth]; [simpl in Hdepth; lia|].
    apply Forall_cons in Hver as [Hv Hver].
    assert (Hpw : pipes w !! a = Some p) by (rewrite Hsame; eauto).
    destruct (IH Hver depth w ltac:(simpl in Hdepth; lia) Halloc Hsame)
      as (fp & w1 & Hrun & Hfp & Halloc1 & Hold1 & pq & Hhead & Hfpw).
    assert (Hpw1 : pipes w1 !! a = Some p).
    { rewrite Hold1; [exact Hpw|]. apply Halloc. eauto. }
    cbn [full_pipe_rec].
    rewrite (bind_ok _ _ _ _ _ (get_pipe_ok _ _ _ Hpw)).
    rewrite (bind_ok _ _ _ _ _ (full_pipe_check_ok p w Hv)).
    rewrite Hpar.
    erewrite (bind_ok _ _ w _ _).
    2:{ rewrite (bind_ok _ _ _ _ _ Hrun).
        rewrite (bind_ok _ _ _ _ _ (get_pipe_ok _ _ _ Hfpw)).
        rewrite (bind_ok _ _ _ _ _ (get_pipe_ok _ _ _ Hpw1)).
        erewrite bind_ok by (apply update_pipe_with; exact Hfpw).
        reflexivity. }
    assert (Hne : a <> fp).
    { assert (a < next_id w)%nat by (apply Halloc; eauto). lia. }
    erewrite bind_ok
      by (apply get_pipe_ok; simpl; rewrite lookup_insert_ne by auto; exact Hpw1).
    rewrite (bind_ok _ _ _ _ _ (new_pipe_empty (name p) _)).
    erewrite bind_ok by (apply update_pipe_eq; apply lookup_insert_eq).
    eexists _, _. split; [reflexivity|]. simpl. split_and!.
    + lia.
    + lia.
    + intros b Hb. simpl in *. rewrite insert_insert_eq in Hb.
      destruct (decide (b = next_id w1)) as [->|Hne1]; [lia|].
      rewrite lookup_insert_ne in Hb by auto.
      destruct (decide (b = fp)) as [->|Hne2]; [lia|].
      rewrite lookup_insert_ne in Hb by auto. apply Halloc1 in Hb. lia.
    + intros b Hb. rewrite insert_insert_eq, !lookup_insert_ne by lia. apply Hold1, Hb.
    + exists p. split; [reflexivity|]. rewrite insert_insert_eq, lookup_insert_eq.
      rewrite reverse_cons, concat_app. simpl.
      rewrite app_nil_r. reflexivity.
Qed.

(** X17. [full_pipe] of a pipe whose generator, and those of its
    ancestors, pass the test makes a new pipe without parent, with the name
    of the pipe and with the steps of the whole chain, those of the root
    first and its own last; its [_gen_idx] is 0.  The pipes that were there
    are left as they were. *)
Theorem full_pipe_joins_the_chain w self l :
  allocated w ->
  ancestry w self l -> Forall gen_verified l ->
  (length l <= recursion_limit)%nat ->
  exists r w' p,
    full_pipe self w = (Ok r, w') /\
    (next_id w <= r)%nat /\
    head l = Some p /\
    pipes w' !! r = Some (mkPipe (name p) 0 (concat (reverse (_steps <$> l)))
                            (name p, r) None) /\
    forall a : addr, (a < next_id w)%nat -> pipes w' !! a = pipes w !! a.
Proof.
  intros Halloc Hanc Hver Hlen.
  destruct (full_pipe_rec_spec w self l Hanc Hver recursion_limit w Hlen Halloc
              ltac:(reflexivity))
    as (r & w' & Hrun & Hr & _ & Hold & p & Hhead & Hrw).
  exists r, w', p. split_and!; auto. lia.
Qed.

Lemma transformer_ancestry :
  ancestry Ex.transformer_world 101 [Ex.transformer; Ex.resource].
Proof.
  apply (ancestry_up _ 101%nat Ex.transformer 100%nat); [reflexivity|reflexivity|].
  apply ancestry_root; reflexivity.
Qed.

Lemma full_pipe_joins_the_chain_witness :
  exists r w' p,
    full_pipe 101 Ex.transformer_world = (Ok r, w') /\
    (102 <= r)%nat /\
    head [Ex.transformer; Ex.resource] = Some p /\
    pipes w' !! r
      = Some (mkPipe (name p) 0
                (concat (reverse (_steps <$> [Ex.transformer; Ex.resource])))
                (name p, r) None) /\
    forall a : addr, (a < 102)%nat -> pipes w' !! a = pipes Ex.transformer_world !! a.
Proof.
  apply (full_pipe_joins_the_chain Ex.transformer_world 101 [Ex.transformer; Ex.resource]
           transformer_world_allocated transformer_ancestry).
  - repeat constructor. exists Ex.g_item_meta. split; reflexivity.
  - unfold recursion_limit. simpl. lia.
Defined.

Lemma full_pipe_check_state p w r w' :
  ((if has_parent p then
      let! g := lift (gen p) in lift (_ensure_transform_step p (_gen_idx p) g)
    else lift (ensure_gen_bound p)) : M World unit) w = (r, w') -> w' = w.
Proof.
  unfold bind, lift. intros H.
  destruct (has_parent p); [destruct (gen p)|]; inversion H; reflexivity.
Qed.

Lemma full_pipe_rec_ok_keeps depth : forall self w r w',
  full_pipe_rec depth self w = (Ok r, w') ->
  is_Some (pipes w' !! r) /\
  forall a : addr, is_Some (pipes w !! a) -> is_Some (pipes w' !! a).
Proof.
  induction depth as [|depth IH]; intros self w r w' H; [discriminate|].
  cbn [full_pipe_rec] in H.
  destruct (pipes w !! self) as [p|] eqn:Hp.
  2:{ unfold bind, get_pipe in H. rewrite Hp in H. discriminate. }
  rewrite (bind_ok _ _ _ _ _ (get_pipe_ok _ _ _ Hp)) in H.
  unfold bind at 1 in H.
  match type of H with context [match ?c w with _ => _ end] =>
    destruct (c w) as [[[]|e0] w0] eqn:Hcheck end; [|discriminate].
  apply full_pipe_check_state in Hcheck. subst w0.
  destruct (parent p) as [q|].
  - unfold bind at 1 in H. unfold bind at 1 in H.
    destruct (full_pipe_rec depth q w) as [[fp|e1] w1] eqn:E; [|discriminate].
    destruct (IH _ _ _ _ E) as [[pp Hfp] Hkeep].
    destruct (Hkeep self ltac:(eauto)) as [p1 Hp1].
    rewrite (bind_ok _ _ _ _ _ (get_pipe_ok _ _ _ Hfp)) in H.
    rewrite (bind_ok _ _ _ _ _ (get_pipe_ok _ _ _ Hp1)) in H.
    rewrite (bind_ok _ _ _ _ _ (update_pipe_with _ _ _ _ Hfp)) in H.
    unfold ret at 1 in H.
    destruct (decide (fp = self)) as [->|Hne].
    + erewrite bind_ok in H by (apply get_pipe_ok, with_pipe_lookup).
      rewrite (bind_ok _ _ _ _ _ (new_pipe_empty _ _)) in H.
      erewrite bind_ok in H by (apply update_pipe_eq; apply lookup_insert_eq).
      inversion H; subst. simpl. split.
      * apply lookup_insert_is_Some'. left. reflexivity.
      * intros a Ha. unfold with_pipe; simpl.
        repeat (apply lookup_insert_is_Some'; right). apply Hkeep, Ha.
    + erewrite bind_ok in H
        by (apply get_pipe_ok; simpl; rewrite lookup_insert_ne by auto; exact Hp1).
      rewrite (bind_ok _ _ _ _ _ (new_pipe_empty _ _)) in H.
      erewrite bind_ok in H by (apply update_pipe_eq; apply lookup_insert_eq).
      inversion H; subst. simpl. split.
      * apply lookup_insert_is_Some'. left. reflexivity.
      * intros a Ha. unfold with_pipe; simpl.
        repeat (apply lookup_insert_is_Some'; right). apply Hkeep, Ha.
  - rewrite (bind_ok _ _ w (_steps p) w) in H
      by (rewrite (bind_ok _ _ _ _ _ (get_pipe_ok _ _ _ Hp)); reflexivity).
    rewrite (bind_ok _ _ _ _ _ (get_pipe_ok _ _ _ Hp)) in H.
    rewrite (bind_ok _ _ _ _ _ (new_pipe_empty _ _)) in H.
    erewrite bind_ok in H by (apply update_pipe_eq; apply lookup_insert_eq).
    inversion H; subst. simpl. split.
    + apply lookup_insert_is_Some'. left. reflexivity.
    + intros a Ha. repeat (apply lookup_insert_is_Some'; right). exact Ha.
Qed.

Lemma full_pipe_rec_raise depth : forall self w e w',
  full_pipe_rec depth self w = (Raise e, w') -> w' = w.
Proof.
  induction depth as [|depth IH]; intros self w e w' H; [inversion H; reflexivity|].
  cbn [full_pipe_rec] in H.
  destruct (pipes w !! self) as [p|] eqn:Hp.
  2:{ unfold bind, get_pipe in H. rewrite Hp in H. inversion H. reflexivity. }
  rewrite (bind_ok _ _ _ _ _ (get_pipe_ok _ _ _ Hp)) in H.
  unfold bind at 1 in H.
  match type of H with context [match ?c w with _ => _ end] =>
    destruct (c w) as [[[]|e0] w0] eqn:Hcheck end;
    apply full_pipe_check_state in Hcheck; subst w0; [|inversion H; reflexivity].
  destruct (parent p) as [q|].
  - unfold bind at 1 in H. unfold bind at 1 in H.
    destruct (full_pipe_rec depth q w) as [[fp|e1] w1] eqn:E.
    + destruct (full_pipe_rec_ok_keeps _ _ _ _ _ E) as [[pp Hfp] Hkeep].
      destruct (Hkeep self ltac:(eauto)) as [p1 Hp1].
      rewrite (bind_ok _ _ _ _ _ (get_pipe_ok _ _ _ Hfp)) in H.
      rewrite (bind_ok _ _ _ _ _ (get_pipe_ok _ _ _ Hp1)) in H.
      rewrite (bind_ok _ _ _ _ _ (update_pipe_with _ _ _ _ Hfp)) in H.
      unfold ret at 1 in H.
      destruct (decide (fp = self)) as [->|Hne].
      * erewrite bind_ok in H by (apply get_pipe_ok, with_pipe_lookup).
        rewrite (bind_ok _ _ _ _ _ (new_pipe_empty _ _)) in H.
        erewrite bind_ok in H by (apply update_pipe_eq; apply lookup_insert_eq).
        discriminate.
      * erewrite bind_ok in H
          by (apply get_pipe_ok; simpl; rewrite lookup_insert_ne by auto; exact Hp1).
        rewrite (bind_ok _ _ _ _ _ (new_pipe_empty _ _)) in H.
        erewrite bind_ok in H by (apply update_pipe_eq; apply lookup_insert_eq).
        discriminate.
    + apply IH in E. inversion H; subst. reflexivity.
  - rewrite (bind_ok _ _ w (_steps p) w) in H
      by (rewrite (bind_ok _ _ _ _ _ (get_pipe_ok _ _ _ Hp)); reflexivity).
    rewrite (bind_ok _ _ _ _ _ (get_pipe_ok _ _ _ Hp)) in H.
    rewrite (bind_ok _ _ _ _ _ (new_pipe_empty _ _)) in H.
    erewrite bind_ok in H by (apply update_pipe_eq; apply lookup_insert_eq).
    discriminate.
Qed.

(** X18. [full_pipe] that raises has changed nothing: the generators of
    the whole chain are tested on the way up, before the first new pipe is
    made on the way back. *)
Theorem full_pipe_failure_changes_nothing self w e w' :
  full_pipe self w = (Raise e, w') -> w' = w.
Proof. apply full_pipe_rec_raise. Qed.

Lemma full_pipe_failure_changes_nothing_witness :
  snd (full_pipe 101 Ex.unbound_world) = Ex.unbound_world.
Proof.
  apply (full_pipe_failure_changes_nothing 101 Ex.unbound_world IndexError).
  unfold full_pipe. change recursion_limit with (S (S 998)). reflexivity.
Defined.

(** ** [from_pipe] *)

(** [evaluate_gen] on a resource whose head is a sequence. *)
Lemma evaluate_gen_sequence env w self p oid items rest :
  pipes w !! self = Some p -> parent p = None -> _gen_idx p = 0 ->
  _steps p = SIterable oid items :: rest ->
  evaluate_gen env self w
  = (Ok tt,
     mkWorld (<[self := set_steps (SIterator (next_id w) (PyIterator items None) :: rest) p]>
                (pipes w))
             (forks w) (S (next_id w))).
Proof.
  intros Hp Hpar Hidx Hsteps. unfold evaluate_gen.
  rewrite (bind_ok _ _ _ _ _ (is_data_bound_parentless _ _ _ Hp Hpar)).
  rewrite (bind_ok _ _ _ _ _ (get_pipe_ok _ _ _ Hp)).
  unfold is_empty, has_parent, gen. rewrite Hsteps, Hpar, Hidx. cbn [length Nat.eqb negb].
  unfold lift at 1, bind at 1. cbn [getitem in_range norm_index].
  simpl. unfold bind, fresh, ret, lift, setitem. simpl.
  erewrite update_pipe_eq by exact Hp. reflexivity.
Qed.

Lemma clone_and_evaluate env w r pr oid items rest mp wk :
  allocated w ->
  pipes w !! r = Some pr -> parent pr = None ->
  _steps pr = SIterable oid items :: rest ->
  (let! pipe := _clone r true in
   evaluate_gen env pipe ;;
   let! p := get_pipe pipe in
   let! g := lift (gen p) in
   match g with
   | SIterator _ it =>
       let! w := get in
       ret (set_sources [mkSourceItem it 0 pipe None] (PipeIterator_init w mp wk))
   | _ => raise AssertionError
   end) w
  = (Ok (set_sources [mkSourceItem (PyIterator items None) 0 (next_id w) None]
           (PipeIterator_init
              (mkWorld
                 (<[next_id w := mkPipe (name pr) 0
                                   (SIterator (S (next_id w)) (PyIterator items None) :: rest)
                                   (_pipe_id pr) None]> (pipes w))
                 (forks w) (S (S (next_id w)))) mp wk)),
     mkWorld
       (<[next_id w := mkPipe (name pr) 0
                         (SIterator (S (next_id w)) (PyIterator items None) :: rest)
                         (_pipe_id pr) None]> (pipes w))
       (forks w) (S (S (next_id w)))).
Proof.
  intros Halloc Hr Hpar Hsteps.
  rewrite (bind_ok _ _ _ _ _ (clone_run _ _ _ Hr)).
  erewrite bind_ok.
  2:{ apply (evaluate_gen_sequence env (cloned w pr) (next_id w)
               (mkPipe (name pr) 0 (_steps pr) (_pipe_id pr) (parent pr)) oid items rest).
      - apply lookup_insert_eq.
      - exact Hpar.
      - reflexivity.
      - exact Hsteps. }
  erewrite bind_ok by (apply get_pipe_ok; apply lookup_insert_eq).
  unfold gen, set_steps. simpl. unfold bind, lift, get, ret. simpl.
  rewrite insert_insert_eq, Hpar. reflexivity.
Qed.

(** X19. [from_pipe] of a pipe whose chain of parents passes the tests of
    [full_pipe] and starts, at the root, with a sequence, makes an iterator
    with no future and one source, over the items of that sequence: the
    source belongs to a new pipe without parent, whose steps are those of the
    whole chain, with a new iterator in the place of the sequence.  The pipes
    that were there are left as they were, the sequence included, so the call
    can be made again. *)
Theorem from_pipe_iterates_the_root env w a l oid items rest mp wk :
  allocated w ->
  ancestry w a l -> Forall gen_verified l ->
  (length l <= recursion_limit)%nat ->
  (forall pq, l !! 1%nat = Some pq -> _steps pq <> []) ->
  concat (reverse (_steps <$> l)) = SIterable oid items :: rest ->
  exists it w' c i pc,
    from_pipe env a mp wk w = (Ok it, w') /\
    it = set_sources [mkSourceItem (PyIterator items None) 0 c None]
           (PipeIterator_init w' mp wk) /\
    (next_id w <= c)%nat /\
    pipes w' !! c = Some pc /\
    parent pc = None /\ _gen_idx pc = 0 /\
    _steps pc = SIterator i (PyIterator items None) :: rest /\
    forall b : addr, (b < next_id w)%nat -> pipes w' !! b = pipes w !! b.
Proof.
  intros Halloc Hanc Hver Hlen Hq Hsteps. unfold from_pipe.
  inversion Hanc as [a0 p Hp Hpar|a0 p q l' Hp Hpar Hanc']; subst.
  - (* a resource *)
    rewrite (bind_ok _ _ _ _ _ (get_pipe_ok _ _ _ Hp)), Hpar.
    unfold truth. unfold bind at 1, ret at 1. unfold bind at 1, ret at 1.
    simpl in Hsteps. rewrite app_nil_r in Hsteps.
    rewrite (clone_and_evaluate env w a p oid items rest mp wk Halloc Hp Hpar Hsteps).
    eexists _, _, (next_id w), _, _. split; [reflexivity|]. simpl. split_and!.
    + reflexivity.
    + lia.
    + apply lookup_insert_eq.
    + reflexivity.
    + reflexivity.
    + reflexivity.
    + intros b Hb. apply lookup_insert_ne. lia.
  - (* a transformer *)
    assert (Hpq : exists pq, pipes w !! q = Some pq /\ head l' = Some pq).
    { inversion Hanc'; subst; eauto. }
    destruct Hpq as (pq & Hpq & Hhead).
    assert (Hne : _steps pq <> []).
    { apply Hq. destruct l'; simpl in *; congruence. }
    rewrite (bind_ok _ _ _ _ _ (get_pipe_ok _ _ _ Hp)), Hpar.
    rewrite (bind_ok _ _ _ _ _ (truth_parent _ _ _ Hpq)), (len_steps _ Hne).
    destruct (full_pipe_rec_spec w a (p :: l') Hanc Hver recursion_limit w Hlen Halloc
                ltac:(reflexivity))
      as (r & w1 & Hrun & Hr & Halloc1 & Hold & p0 & Hhead0 & Hrw).
    simpl in Hhead0. inversion Hhead0; subst p0.
    unfold full_pipe. rewrite (bind_ok _ _ _ _ _ Hrun).
    rewrite (clone_and_evaluate env w1 r _ oid items rest mp wk Halloc1 Hrw eq_refl Hsteps).
    eexists _, _, (next_id w1), _, _. split; [reflexivity|]. simpl. split_and!.
    + reflexivity.
    + lia.
    + apply lookup_insert_eq.
    + reflexivity.
    + reflexivity.
    + reflexivity.
    + intros b Hb. rewrite lookup_insert_ne by lia. apply Hold, Hb.
Qed.

Lemma from_pipe_iterates_the_root_witness :
  exists it w' c i pc,
    from_pipe Ex.env 101 20 5 Ex.transformer_world = (Ok it, w') /\
    it = set_sources [mkSourceItem (PyIterator [PyData 2 1; PyData 3 2] None) 0 c None]
           (PipeIterator_init w' 20 5) /\
    (102 <= c)%nat /\
    pipes w' !! c = Some pc /\
    parent pc = None /\ _gen_idx pc = 0 /\
    _steps pc = SIterator i (PyIterator [PyData 2 1; PyData 3 2] None)
                :: [Ex.g_item_meta; Ex.h_item_meta; Ex.g_item_meta] /\
    forall b : addr, (b < 102)%nat -> pipes w' !! b = pipes Ex.transformer_world !! b.
Proof.
  apply (from_pipe_iterates_the_root Ex.env Ex.transformer_world 101
           [Ex.transformer; Ex.resource] 1 [PyData 2 1; PyData 3 2]
           [Ex.g_item_meta; Ex.h_item_meta; Ex.g_item_meta] 20 5
           transformer_world_allocated transformer_ancestry).
  - repeat constructor. exists Ex.g_item_meta. split; reflexivity.
  - unfold recursion_limit. simpl. lia.
  - intros pq Hpq. inversion Hpq; subst. discriminate.
  - reflexivity.
Defined.

Example from_pipes_transformer_run :
  let r := from_pipes Ex.env 5 [100%nat; 101%nat] true 20 5 false Ex.transformer_world in
  (_sources <$> (match fst r with Ok (Some it) => Some it | _ => None end))
  = Some [mkSourceItem (PyIterator [PyData 2 1; PyData 3 2] None) 0 102 None] /\
  (_steps <$> pipes (snd r) !! 102%nat)
  = Some [SIterator 105 (PyIterator [PyData 2 1; PyData 3 2] None); Ex.g_item_meta;
          SForkPipe 104] /\
  forks (snd r) !! 104%nat = Some (mkForkPipe [(103%nat, -1); (102%nat, 2)] false) /\
  (parent <$> pipes (snd r) !! 103%nat) = Some (Some 102%nat).
Proof. vm_compute. split_and!; reflexivity. Qed.

(** ** [from_pipes] on resources *)

Lemma in_world_run {A} (m : M World A) s r w' :
  m (world s) = (r, w') -> in_world m s = (r, set_world w' s).
Proof. intros H. unfold in_world. rewrite H. reflexivity. Qed.

Lemma clone_list_spec os : forall ps w,
  allocated w ->
  Forall2 (fun o p => pipes w !! o = Some p /\ sequence_resource p) os ps ->
  exists w1,
    list_comp os (fun p => _clone p true) w = (Ok (seq (next_id w) (length os)), w1) /\
    next_id w1 = (next_id w + length os)%nat /\
    allocated w1 /\
    (forall b : addr, (b < next_id w)%nat -> pipes w1 !! b = pipes w !! b) /\
    Forall2 (fresh_clone w1) (seq (next_id w) (length os)) ps.
Proof.
  induction os as [|o os IH]; intros ps w Halloc Hall.
  - inversion Hall; subst. exists w. simpl. split_and!; auto.
  - inversion Hall as [|? p ? ps' [Hp [Hpar Hseq]] Hrest]; subst.
    assert (Halloc1 : allocated (cloned w p)).
    { intros b Hb. simpl in *. destruct (decide (b = next_id w)) as [->|Hne]; [lia|].
      rewrite lookup_insert_ne in Hb by auto. apply Halloc in Hb. lia. }
    destruct (IH ps' (cloned w p) Halloc1) as (w1 & Hrun & Hnext & Halloc' & Hold & Hcl).
    { eapply Forall2_impl; [exact Hrest|]. intros o' p' [Ho' Hs']. split; [|exact Hs'].
      simpl. rewrite lookup_insert_ne; [exact Ho'|].
      assert (o' < next_id w)%nat by (apply Halloc; eauto). lia. }
    exists w1. simpl in *. split_and!.
    + rewrite (bind_ok _ _ _ _ _ (clone_run _ _ _ Hp)).
      rewrite (bind_ok _ _ _ _ _ Hrun). reflexivity.
    + lia.
    + exact Halloc'.
    + intros b Hb. rewrite Hold by lia. apply lookup_insert_ne. lia.
    + constructor; [|exact Hcl]. unfold fresh_clone.
      rewrite Hold by lia. rewrite lookup_insert_eq, Hpar. reflexivity.
Qed.

Lemma clone_fix_parents_resources fuel pairs cs : forall ps w,
  Forall2 (fresh_clone w) cs ps ->
  clone_fix_parents (S fuel) pairs cs w = (Ok (Some pairs), w).
Proof.
  induction cs as [|c cs IH]; intros ps w Hall; [reflexivity|].
  inversion Hall as [|? p ? ps' Hc Hrest]; subst. cbn [clone_fix_parents].
  rewrite (bind_ok _ _ _ _ _ (clone_walk_no_parent fuel pairs c w _ Hc eq_refl)).
  eapply IH, Hrest.
Qed.

(** [_fork_pipeline] on the clone of a sequence resource. *)
Lemma fork_pipeline_resource env depth cs yp cof c s p :
  fresh_clone (world s) c p -> sequence_resource p ->
  c ∉ (si_pipe <$> _sources s) ->
  _fork_pipeline env (S depth) cs yp cof c s
  = (Ok tt,
     set_sources (_sources s ++ [mkSourceItem (PyIterator (head_items p) None) 0 c None])
       (set_world
          (mkWorld
             (<[c := mkPipe (name p) 0
                       (SIterator (next_id (world s)) (PyIterator (head_items p) None)
                        :: List.tl (_steps p))
                       (_pipe_id p) None]> (pipes (world s)))
             (forks (world s)) (S (next_id (world s)))) s)).
Proof.
  intros Hc [Hpar (oid & items & rest & Hsteps)] Hnew. unfold fresh_clone in Hc.
  cbn [_fork_pipeline].
  rewrite (bind_ok _ _ _ _ _ (in_world_get_pipe _ _ _ Hc)). cbn [parent].
  erewrite bind_ok by (apply in_world_run; reflexivity). rewrite set_world_same.
  cbn iota.
  erewrite bind_ok.
  2:{ apply in_world_run.
      apply (evaluate_gen_sequence env (world s) c _ oid items rest Hc);
        [reflexivity|reflexivity|exact Hsteps]. }
  erewrite bind_ok by (apply in_world_get_pipe; simpl; apply lookup_insert_eq).
  unfold gen, set_steps. simpl. unfold bind, lift, get, modify, ret.
  assert (Hex : existsb (fun i => (si_pipe i =? c)%nat) (_sources s) = false).
  { apply not_true_is_false. intros Hex. apply existsb_exists in Hex as (x & Hin & Hx).
    apply Nat.eqb_eq in Hx. apply Hnew. apply list_elem_of_fmap. exists x.
    split; [auto|]. apply list_elem_of_In. exact Hin. }
  simpl. rewrite Hex. simpl. unfold head_items. rewrite Hsteps. reflexivity.
Qed.

Lemma fresh_clone_insert w (c : addr) x fs n todo ps :
  c ∉ todo -> Forall2 (fresh_clone w) todo ps ->
  Forall2 (fresh_clone (mkWorld (<[c := x]> (pipes w)) fs n)) todo ps.
Proof.
  intros Hnin Hall. induction Hall as [|c' p' todo ps Hc' Hrest IH]; constructor.
  - unfold fresh_clone in *. simpl. rewrite lookup_insert_ne; [exact Hc'|].
    intros ->. apply Hnin. left.
  - apply IH. intros Hin. apply Hnin. right. exact Hin.
Qed.

Lemma fork_pipeline_resources env cs0 yp cof : forall todo ps s,
  NoDup todo ->
  Forall2 (fresh_clone (world s)) todo ps -> Forall sequence_resource ps ->
  (forall c, c ∈ todo -> c ∉ (si_pipe <$> _sources s)) ->
  exists s' srcs,
    for_each todo (_fork_pipeline env recursion_limit cs0 yp cof) s = (Ok tt, s') /\
    _futures s' = _futures s /\ max_parallel_items s' = max_parallel_items s /\
    _sources s' = _sources s ++ srcs /\
    Forall2 (serves (world s')) srcs ps /\ si_pipe <$> srcs = todo /\
    (forall b : addr, b ∉ todo -> pipes (world s') !! b = pipes (world s) !! b).
Proof.
  induction todo as [|c todo IH]; intros ps s Hnd Hall Hseq Hnew.
  - inversion Hall; subst. exists s, []. simpl. rewrite app_nil_r.
    split_and!; auto.
  - inversion Hall as [|? p ? ps' Hc Hrest]; subst.
    apply Forall_cons in Hseq as [Hp Hseq]. apply NoDup_cons in Hnd as [Hnin Hnd].
    pose proof (fork_pipeline_resource env 999 cs0 yp cof c s p Hc Hp
                  (Hnew c ltac:(left))) as Hrun.
    change (S 999) with recursion_limit in Hrun.
    match type of Hrun with _ = (_, ?x) => set (s1 := x) in * end.
    destruct (IH ps' s1 Hnd) as (s' & srcs & Hrun' & Hf & Hm & Hs & Hserve & Hpipes & Hold).
    { subst s1. simpl. apply fresh_clone_insert; assumption. }
    { exact Hseq. }
    { intros c' Hin. subst s1. simpl. rewrite fmap_app. intros Hel.
      apply elem_of_app in Hel as [Hel|Hel].
      - apply (Hnew c' ltac:(right; exact Hin)). exact Hel.
      - simpl in Hel. apply list_elem_of_singleton in Hel. subst. contradiction. }
    exists s', (mkSourceItem (PyIterator (head_items p) None) 0 c None :: srcs).
    split_and!.
    + cbn [for_each]. rewrite (bind_ok _ _ _ _ _ Hrun). exact Hrun'.
    + rewrite Hf. reflexivity.
    + rewrite Hm. reflexivity.
    + rewrite Hs. subst s1. simpl. rewrite <- app_assoc. reflexivity.
    + constructor; [|exact Hserve]. unfold serves. simpl. split_and!; auto.
      exists (next_id (world s)). rewrite Hold by exact Hnin. subst s1. simpl.
      apply lookup_insert_eq.
    + rewrite fmap_cons, Hpipes. reflexivity.
    + intros b Hb. apply not_elem_of_cons in Hb as [Hbc Hb].
      rewrite Hold by exact Hb. subst s1. simpl. apply lookup_insert_ne. auto.
Qed.

Lemma NoDup_reverse_seq j n : NoDup (reverse (seq j n)).
Proof. rewrite reverse_Permutation. apply NoDup_seq. Qed.

(** X20. [from_pipes] on pipes without parent whose head is a sequence
    makes an iterator with no future and one source for each pipe, in the
    reverse order of the pipes, so that the first pipe is the one that
    [__next__] serves first.  Each source iterates the sequence of its pipe
    from step 0 of a clone of it, made for this iterator; the pipes given
    are left as they were. *)
Theorem from_pipes_of_resources env fuel os ps yp mp wk cof w :
  allocated w ->
  Forall2 (fun o p => pipes w !! o = Some p /\ sequence_resource p) os ps ->
  exists it,
    from_pipes env (S fuel) os yp mp wk cof w = (Ok (Some it), world it) /\
    _futures it = [] /\ max_parallel_items it = mp /\
    Forall2 (serves (world it)) (_sources it) (reverse ps) /\
    NoDup (si_pipe <$> _sources it) /\
    (forall src, src ∈ _sources it -> (next_id w <= si_pipe src)%nat) /\
    (forall b : addr, (b < next_id w)%nat -> pipes (world it) !! b = pipes w !! b).
Proof.
  intros Halloc Hall.
  destruct (clone_list_spec os ps w Halloc Hall) as (w1 & Hrun & Hnext & Halloc1 & Hold & Hcl).
  assert (Hseq : Forall sequence_resource ps).
  { clear -Hall. induction Hall as [|? ? ? ? [_ H]]; constructor; auto. }
  destruct (fork_pipeline_resources env (seq (next_id w) (length os)) yp cof
              (reverse (seq (next_id w) (length os))) (reverse ps)
              (PipeIterator_init w1 mp wk))
    as (s' & srcs & Hfork & Hf & Hm & Hs & Hserve & Hpipes & Hkeep).
  { apply NoDup_reverse_seq. }
  { apply Forall2_reverse. exact Hcl. }
  { rewrite Forall_reverse. exact Hseq. }
  { intros c _. simpl. apply not_elem_of_nil. }
  exists s'. split_and!.
  - assert (Hclone : clone_pipes (S fuel) os w
                     = (Ok (Some (seq (next_id w) (length os))), w1)).
    { unfold clone_pipes. rewrite (bind_ok _ _ _ _ _ Hrun).
      erewrite bind_ok by (eapply clone_fix_parents_resources, Hcl). reflexivity. }
    unfold from_pipes. rewrite (bind_ok _ _ _ _ _ Hclone). cbv beta.
    match goal with |- context [for_each ?a ?b ?c] =>
      replace (for_each a b c) with (Ok tt, s') by (symmetry; exact Hfork) end.
    reflexivity.
  - rewrite Hf. reflexivity.
  - rewrite Hm. reflexivity.
  - rewrite Hs. exact Hserve.
  - rewrite Hs. simpl. rewrite Hpipes. apply NoDup_reverse_seq.
  - intros src Hin. rewrite Hs in Hin. simpl in Hin.
    assert (Hel : si_pipe src ∈ reverse (seq (next_id w) (length os))).
    { rewrite <- Hpipes. apply list_elem_of_fmap. eauto. }
    apply elem_of_reverse, elem_of_seq in Hel. lia.
  - intros b Hb. rewrite Hkeep; [apply Hold, Hb|].
    rewrite elem_of_reverse, elem_of_seq. lia.
Qed.

Lemma resource_in_transformer_world :
  Forall2 (fun o p => pipes Ex.transformer_world !! o = Some p /\ sequence_resource p)
    [100%nat; 100%nat] [Ex.resource; Ex.resource].
Proof.
  repeat constructor; reflexivity || (eexists _, _, _; reflexivity).
Qed.

Lemma from_pipes_of_resources_witness :
  exists it,
    from_pipes Ex.env 1 [100%nat; 100%nat] true 20 5 false Ex.transformer_world
      = (Ok (Some it), world it) /\
    _futures it = [] /\ max_parallel_items it = 20 /\
    Forall2 (serves (world it)) (_sources it) (reverse [Ex.resource; Ex.resource]) /\
    NoDup (si_pipe <$> _sources it) /\
    (forall src, src ∈ _sources it -> (102 <= si_pipe src)%nat) /\
    (forall b : addr, (b < 102)%nat ->
       pipes (world it) !! b = pipes Ex.transformer_world !! b).
Proof.
  apply (from_pipes_of_resources Ex.env 0 [100%nat; 100%nat] [Ex.resource; Ex.resource]
           true 20 5 false Ex.transformer_world transformer_world_allocated
           resource_in_transformer_world).
Defined.

(** ** The constructor *)

Lemma append_step_ok self step w w' p :
  pipes w !! self = Some p ->
  append_step self step w = (Ok tt, w') ->
  exists step',
    pipes w' = <[self := set_steps (_steps p ++ [step']) p]> (pipes w) /\
    same_function step' step /\
    (_steps p <> [] -> callable step' = true /\ bind_item_meta (signature step') = None) /\
    (_steps p = [] -> parent p = None -> step' = step).
Proof.
  intros Hp H. unfold append_step in H.
  rewrite (bind_ok _ _ _ _ _ (get_pipe_ok _ _ _ Hp)) in H.
  destruct ((length (_steps p) =? 0)%nat && negb (has_parent p)) eqn:Hhead.
  - apply andb_true_iff in Hhead as [Hlen _]. apply Nat.eqb_eq in Hlen.
    unfold bind at 1 in H. unfold bind at 1, lift at 1 in H.
    destruct (_verify_head_step p step) as [[]|e]; [|discriminate].
    unfold ret at 1 in H. rewrite (update_pipe_eq _ _ _ _ Hp) in H. inversion H; subst.
    exists step. simpl. split_and!; auto.
    + split; reflexivity.
    + intros Hne. destruct (_steps p); [congruence|discriminate].
  - unfold bind at 1 in H.
    destruct (_wrap_transform_step_meta self (Z.of_nat (length (_steps p))) step w)
      as [[step'|e] w1] eqn:E; [|discriminate].
    destruct (wrap_transform_ok _ _ _ _ _ _ _ Hp E) as (Hpipes & _ & Hc & Hor & Hb).
    assert (Hp1 : pipes w1 !! self = Some p) by (rewrite Hpipes; exact Hp).
    rewrite (update_pipe_eq _ _ _ _ Hp1) in H. inversion H; subst. simpl.
    exists step'. rewrite Hpipes. split_and!; auto.
    + destruct Hor as [->| ->]; [split; reflexivity|]. split; apply wrap_meta_fields.
    + intros He Hpar. rewrite He in Hhead. unfold has_parent in Hhead.
      rewrite Hpar in Hhead. discriminate.
Qed.

Lemma for_each_append_ok self steps : forall w p0 w',
  pipes w !! self = Some p0 ->
  for_each steps (append_step self) w = (Ok tt, w') ->
  exists added,
    pipes w' !! self = Some (set_steps (_steps p0 ++ added) p0) /\
    Forall2 same_function added steps /\
    (forall k s', (0 < k)%nat -> (length (_steps p0) <= k)%nat ->
       (_steps p0 ++ added) !! k = Some s' ->
       callable s' = true /\ bind_item_meta (signature s') = None) /\
    (_steps p0 = [] -> parent p0 = None -> head added = head steps).
Proof.
  induction steps as [|x steps IH]; intros w p0 w' Hp H.
  - inversion H; subst. exists []. rewrite app_nil_r. split_and!; auto.
    + rewrite Hp. destruct p0; reflexivity.
    + intros k s' _ Hk Hs. apply lookup_lt_Some in Hs. lia.
  - cbn [for_each] in H. unfold bind in H.
    destruct (append_step self x w) as [[[]|e] w1] eqn:E; [|discriminate].
    destruct (append_step_ok _ _ _ _ _ Hp E) as (x' & Hpipes & Hsame & Hbind & Hhead).
    assert (Hp1 : pipes w1 !! self = Some (set_steps (_steps p0 ++ [x']) p0)).
    { rewrite Hpipes. apply lookup_insert_eq. }
    destruct (IH _ _ _ Hp1 H) as (added & Hw' & Hall & Hb & _).
    exists (x' :: added). simpl in *. rewrite <- app_assoc in *. simpl in *.
    split_and!.
    + rewrite Hw'. reflexivity.
    + constructor; assumption.
    + intros k s' Hk Hlen Hs.
      destruct (decide (k = length (_steps p0))) as [->|Hne].
      * rewrite list_lookup_middle in Hs by reflexivity. inversion Hs; subst.
        apply Hbind. destruct (_steps p0); [simpl in Hk; lia|discriminate].
      * apply (Hb k s' Hk); [|exact Hs]. rewrite length_app. simpl. lia.
    + intros He Hpar. rewrite (Hhead He Hpar). reflexivity.
Qed.

(** X21. [Pipe(name, steps, parent)] that returns has stored one step for
    each step given, in order, each of them the step given or the wrapper
    made for it; the generator index is 0.  Every stored step but the first
    is callable and binds the call [step(item, meta=meta)] of the dispatcher,
    and the head of a resource is the very step given. *)
Theorem Pipe_init_stores_the_steps nm steps par w a w' :
  Pipe_init nm steps par w = (Ok a, w') ->
  a = next_id w /\
  exists p,
    pipes w' !! a = Some p /\
    name p = nm /\ _gen_idx p = 0 /\ parent p = par /\ _pipe_id p = (nm, a) /\
    Forall2 same_function (_steps p) steps /\
    (par = None -> head (_steps p) = head steps) /\
    (forall k s', (0 < k)%nat -> _steps p !! k = Some s' ->
       callable s' = true /\ bind_item_meta (signature s') = None).
Proof.
  unfold Pipe_init. intros H. unfold bind at 1, new_pipe at 1 in H.
  unfold bind at 1 in H.
  match type of H with context [for_each steps ?f ?w1] =>
    destruct (for_each steps f w1) as [[[]|e] w2] eqn:E end; [|discriminate].
  inversion H; subst. split; [reflexivity|].
  assert (Hnew : pipes (mkWorld (<[next_id w := mkPipe nm 0 [] (nm, next_id w) par]> (pipes w))
                          (forks w) (S (next_id w))) !! next_id w
                 = Some (mkPipe nm 0 [] (nm, next_id w) par)) by apply lookup_insert_eq.
  destruct (for_each_append_ok _ _ _ _ _ Hnew E) as (added & Hw' & Hall & Hb & Hhead).
  simpl in *. eexists. split; [exact Hw'|]. simpl. split_and!; auto.
  intros k s' Hk Hs. apply (Hb k s' Hk); [lia|exact Hs].
Qed.

Lemma Pipe_init_stores_the_steps_witness :
  100%nat = next_id Ex.empty_world /\
  exists p,
    pipes Ex.resource_world !! 100%nat = Some p /\
    name p = "numbers" /\ _gen_idx p = 0 /\ parent p = None /\
    _pipe_id p = ("numbers", 100%nat) /\
    Forall2 same_function (_steps p) [Ex.numbers; Ex.g_item_meta] /\
    (@None addr = None -> head (_steps p) = head [Ex.numbers; Ex.g_item_meta]) /\
    (forall k s', (0 < k)%nat -> _steps p !! k = Some s' ->
       callable s' = true /\ bind_item_meta (signature s') = None).
Proof.
  apply (Pipe_init_stores_the_steps "numbers" [Ex.numbers; Ex.g_item_meta] None
           Ex.empty_world 100 Ex.resource_world).
  vm_compute. reflexivity.
Defined.

(** ** [_clone] *)

(** X22. [_clone] makes a new pipe with the name, the steps and the parent
    of the pipe, and with its id when [keep_pipe_id] is set; [_gen_idx] is
    not copied: the generator of the clone is its first step, whatever the
    generator index of the pipe.  The pipes that were there are left as they
    were. *)
Theorem clone_starts_gen_at_first_step self keep w p :
  allocated w -> pipes w !! self = Some p ->
  exists w',
    _clone self keep w = (Ok (next_id w), w') /\
    pipes w' !! next_id w
    = Some (mkPipe (name p) 0 (_steps p)
              (if keep then _pipe_id p else (name p, next_id w)) (parent p)) /\
    gen_of w' (next_id w) = getitem (_steps p) 0 /\
    next_id w' = S (next_id w) /\ forks w' = forks w /\
    forall b : addr, b <> next_id w -> pipes w' !! b = pipes w !! b.
Proof.
  intros Halloc Hp. unfold _clone.
  rewrite (bind_ok _ _ _ _ _ (get_pipe_ok _ _ _ Hp)).
  unfold bind at 1, new_pipe at 1.
  erewrite (bind_ok _ _ _ tt) by (apply update_pipe_eq; apply lookup_insert_eq).
  destruct keep.
  - erewrite (bind_ok _ _ _ tt) by (apply update_pipe_eq; apply lookup_insert_eq).
    eexists. split; [reflexivity|]. unfold gen_of. simpl.
    rewrite !insert_insert_eq, lookup_insert_eq. split_and!; auto.
    intros b Hb. apply lookup_insert_ne. auto.
  - unfold bind, ret. eexists. split; [reflexivity|]. unfold gen_of. simpl.
    rewrite !insert_insert_eq, lookup_insert_eq. split_and!; auto.
    intros b Hb. apply lookup_insert_ne. auto.
Qed.

Lemma clone_starts_gen_at_first_step_witness :
  exists w',
    _clone 101 true Ex.transformer_world = (Ok 102%nat, w') /\
    pipes w' !! 102%nat
    = Some (mkPipe "t" 0 [Ex.h_item_meta; Ex.g_item_meta] ("t", 101%nat) (Some 100%nat)) /\
    gen_of w' 102 = Ok Ex.h_item_meta /\
    next_id w' = 103%nat /\ forks w' = ∅ /\
    forall b : addr, b <> 102%nat -> pipes w' !! b = pipes Ex.transformer_world !! b.
Proof.
  apply (clone_starts_gen_at_first_step 101 true Ex.transformer_world Ex.transformer
           transformer_world_allocated eq_refl).
Defined.

(** ** An item at a fork *)

Lemma fork_call_run w f fk item meta :
  forks w !! f = Some fk ->
  exists l w',
    ForkPipeM.call f item meta w = (Ok (PyIterator l None), w') /\
    length l = length (_pipes fk) /\
    pipes w' = pipes w /\ forks w' = forks w /\
    forall i pipe step,
      _pipes fk !! i = Some (pipe, step) ->
      exists it, l !! i = Some (ResolvablePipeItem it step pipe meta) /\
                 carried (copy_on_fork fk) i item it w w'.
Proof.
  intros Hf. unfold ForkPipeM.call.
  destruct (call_from_spec (copy_on_fork fk) (_pipes fk) 0 item meta w)
    as (l & w' & Hrun & Hlen & Hp & Hfk & _ & Hall).
  exists l, w'. split_and!; auto.
  unfold bind, get_fork. rewrite Hf, Hrun. reflexivity.
Qed.

(** The turn in which a plain item meets a fork. *)
Lemma process_item_at_fork env pi s p f l w' :
  plain (pi_item pi) = true ->
  pipes (world s) !! pi_pipe pi = Some p ->
  pi_step pi <> len p - 1 ->
  getitem (_steps p) (pi_step pi + 1) = Ok (SForkPipe f) ->
  ForkPipeM.call f (pi_item pi) (pi_meta pi) (world s) = (Ok (PyIterator l None), w') ->
  process_item env pi s
  = (Ok (Continue (Some (mkPipeItem (PyIterator l None) (pi_step pi + 1)
                           (pi_pipe pi) (pi_meta pi)))),
     set_world w' s).
Proof.
  intros Hplain Hp Hstep Hget Hrun. destruct (plain_tests _ Hplain) as [H1 H2].
  unfold process_item. rewrite H1, H2.
  rewrite (bind_ok _ _ _ _ _ (in_world_get_pipe _ _ _ Hp)).
  destruct (Z.eqb_spec (pi_step pi) (len p - 1)); [contradiction|].
  unfold lift at 1. rewrite (bind_ok _ _ s (SForkPipe f) s) by (rewrite Hget; reflexivity).
  cbn [callable negb].
  assert (Hcall : call_step env (SForkPipe f) (pi_item pi) (pi_meta pi) s
                  = (Ok (PyIterator l None), set_world w' s)).
  { unfold call_step. apply in_world_run. exact Hrun. }
  rewrite (bind_ok _ _ _ _ _ (invoke_step_ok env p _ pi s _ _ Hcall)).
  reflexivity.
Qed.

(** The two turns that take a plain item through a fork. *)
Lemma next_loop_at_fork env pi s p f l w' fuel :
  plain (pi_item pi) = true ->
  pipes (world s) !! pi_pipe pi = Some p ->
  pi_step pi <> len p - 1 ->
  getitem (_steps p) (pi_step pi + 1) = Ok (SForkPipe f) ->
  ForkPipeM.call f (pi_item pi) (pi_meta pi) (world s) = (Ok (PyIterator l None), w') ->
  next_loop env (2 + fuel) (Some pi) s
  = next_loop env fuel None
      (set_sources (_sources s ++ [mkSourceItem (PyIterator l None) (pi_step pi + 1)
                                     (pi_pipe pi) (pi_meta pi)])
         (set_world w' s)).
Proof.
  intros Hplain Hp Hstep Hget Hrun.
  change (2 + fuel)%nat with (S (S fuel)).
  rewrite (next_loop_turn env (S fuel) _ s _ _)
    by (rewrite loop_body_in_hand; eapply process_item_at_fork; eauto).
  cbv iota.
  rewrite (next_loop_turn env fuel _ _ (Continue None)
             (set_sources (_sources s ++ [mkSourceItem (PyIterator l None) (pi_step pi + 1)
                                            (pi_pipe pi) (pi_meta pi)])
                (set_world w' s)))
    by (rewrite loop_body_in_hand; reflexivity).
  reflexivity.
Qed.



(** ** [from_pipes] on a resource and its transformer *)

Lemma evaluate_gen_verifies env self w p q n r g :
  pipes w !! self = Some p -> parent p = Some q ->
  root_of w self n r -> (n < recursion_limit)%nat -> _steps r <> [] ->
  gen p = Ok g ->
  evaluate_gen env self w = (_ensure_transform_step p (_gen_idx p) g, w).
Proof.
  intros Hp Hpar Hroot Hn Hne Hg. unfold evaluate_gen.
  rewrite (bind_ok _ _ w (negb (is_empty r)) w)
    by (unfold is_data_bound; rewrite (is_data_bound_rec_root _ _ _ _ Hroot _ Hn);
        reflexivity).
  rewrite (bind_ok _ _ _ _ _ (get_pipe_ok _ _ _ Hp)).
  assert (Hb : is_empty r = false).
  { unfold is_empty. destruct (_steps r); [congruence|reflexivity]. }
  rewrite Hb. cbn [negb]. unfold bind, lift, has_parent. rewrite Hg, Hpar. reflexivity.
Qed.

(** [_fork_pipeline] on a resource that is a source already. *)
Lemma fork_pipeline_again env depth cs yp cof c s p i it :
  pipes (world s) !! c = Some p -> parent p = None -> _gen_idx p = 0 ->
  gen p = Ok (SIterator i it) ->
  c ∈ (si_pipe <$> _sources s) ->
  _fork_pipeline env (S depth) cs yp cof c s = (Ok tt, s).
Proof.
  intros Hp Hpar Hidx Hg Hin. cbn [_fork_pipeline].
  rewrite (bind_ok _ _ _ _ _ (in_world_get_pipe _ _ _ Hp)). rewrite Hpar.
  erewrite bind_ok by (apply in_world_run; reflexivity). rewrite set_world_same.
  cbn iota.
  erewrite bind_ok
    by (apply in_world_run;
        apply (evaluate_gen_on_iterator env _ c p _ Hp Hpar Hidx Hg); reflexivity).
  rewrite set_world_same.
  rewrite (bind_ok _ _ _ _ _ (in_world_get_pipe _ _ _ Hp)).
  unfold lift at 1. rewrite Hg. unfold bind at 1. unfold bind at 1, get at 1.
  assert (Hex : existsb (fun x => (si_pipe x =? c)%nat) (_sources s) = true).
  { apply existsb_exists. apply list_elem_of_fmap in Hin as (x & Hx & Hin).
    exists x. split; [apply list_elem_of_In; exact Hin|]. subst. apply Nat.eqb_refl. }
  rewrite Hex. reflexivity.
Qed.

Lemma tail_not_fork (p : Pipe) :
  _steps p <> [] -> Forall (fun s => is_ForkPipe s = false) (_steps p) ->
  exists s, tail p = Ok s /\ is_ForkPipe s = false.
Proof.
  intros Hne Hall. destruct (tail_nonempty p Hne) as (s & Ht & Hl).
  exists s. split; [exact Ht|]. rewrite Forall_forall in Hall. apply Hall.
  apply last_Some in Hl as [l' Hl]. rewrite Hl. apply elem_of_app. right. left.
Qed.

(** The second part of [from_pipes], on the clone [n] of a resource and the
    clone [S n] of its transformer. *)
Lemma fork_pipeline_pair env (n : addr) w3 cr ct oid items fs g ts yp cof mp wk :
  pipes w3 !! n = Some cr ->
  parent cr = None -> _gen_idx cr = 0 -> _steps cr = SIterable oid items :: fs ->
  Forall (fun s => is_ForkPipe s = false) (_steps cr) ->
  pipes w3 !! S n = Some ct ->
  parent ct = Some n -> _gen_idx ct = 0 -> _steps ct = g :: ts ->
  callable g = true -> bind_item_meta (signature g) = None ->
  exists s',
    for_each [S n; n] (_fork_pipeline env recursion_limit [n; S n] yp cof)
      (PipeIterator_init w3 mp wk) = (Ok tt, s') /\
    _futures s' = [] /\ max_parallel_items s' = mp /\
    _sources s' = [mkSourceItem (PyIterator items None) 0 n None] /\
    pipes (world s') !! n
    = Some (mkPipe (name cr) 0
              (SIterator (S (next_id w3)) (PyIterator items None)
               :: fs ++ [SForkPipe (next_id w3)])
              (_pipe_id cr) None) /\
    forks (world s') !! next_id w3
    = Some (mkForkPipe ((S n, -1) :: (if yp then [(n, len cr)] else [])) cof) /\
    (forall b : addr, b <> n -> pipes (world s') !! b = pipes w3 !! b).
Proof.
  intros Hcr Hrpar Hridx Hrsteps Hnofork Hct Htpar Htidx Htsteps Hcall Hbind.
  assert (Hrne : _steps cr <> []) by (rewrite Hrsteps; discriminate).
  destruct (tail_not_fork cr Hrne Hnofork) as (sl & Htail & Hsl).
  set (f := next_id w3).
  set (cr4 := set_steps (_steps cr ++ [SForkPipe f]) cr).
  set (w4 := mkWorld (<[n := cr4]> (pipes w3))
                     (<[f := mkForkPipe [(S n, -1)] cof]> (forks w3)) (S f)).
  set (fk5 := mkForkPipe ((S n, -1) :: (if yp then [(n, len cr)] else [])) cof).
  set (w5 := mkWorld (<[n := cr4]> (pipes w3)) (<[f := fk5]> (forks w3)) (S f)).
  (* the transformer *)
  assert (Hroot : root_of w3 (S n) 1 cr).
  { eapply root_up; [exact Hct|exact Htpar|]. apply root_here; assumption. }
  assert (Hgen : gen ct = Ok g).
  { unfold gen. rewrite Htidx, Htsteps. reflexivity. }
  assert (Hev : evaluate_gen env (S n) w3 = (Ok tt, w3)).
  { rewrite (evaluate_gen_verifies env (S n) w3 ct n 1 cr g Hct Htpar Hroot
               ltac:(unfold recursion_limit; lia) Hrne Hgen).
    unfold _ensure_transform_step. rewrite Hcall, Hbind. reflexivity. }
  assert (Hfork1 : fork n (S n) (-1) cof w3 = (Ok tt, w4)).
  { apply (fork_new w3 n cr sl (S n) (-1) cof Hcr Hrne Htail Hsl). }
  assert (Hcr4 : pipes w4 !! n = Some cr4) by apply lookup_insert_eq.
  assert (Hlen4 : len cr4 - 1 = len cr).
  { unfold len, cr4. simpl. rewrite length_app. simpl. lia. }
  assert (Hfork2 :
            ((if yp && bool_decide (n ∈ [n; S n]) then
                let! pq := in_world (get_pipe n) in
                in_world (fork n n (len pq - 1) cof)
              else ret tt) : M PipeIterator unit)
              (PipeIterator_init w4 mp wk)
            = (Ok tt, PipeIterator_init w5 mp wk)).
  { rewrite bool_decide_eq_true_2 by (left). rewrite andb_true_r. destruct yp.
    - assert (Hf2 : fork n n (len cr4 - 1) cof w4 = (Ok tt, w5)).
      { rewrite Hlen4.
        rewrite (fork_absent w4 n cr4 f (mkForkPipe [(S n, -1)] cof) n (len cr) cof).
        + unfold with_fork, w5, fk5. simpl. rewrite insert_insert_eq. reflexivity.
        + exact Hcr4.
        + unfold cr4. simpl. destruct (_steps cr); discriminate.
        + apply tail_append.
        + apply lookup_insert_eq.
        + simpl. intros Hin. apply list_elem_of_singleton in Hin. lia. }
      erewrite bind_ok by (apply in_world_get_pipe; exact Hcr4).
      apply (in_world_run (fork n n (len cr4 - 1) cof) (PipeIterator_init w4 mp wk)
               (Ok tt) w5 Hf2).
    - reflexivity. }
  assert (Hseq5 : sequence_resource cr4).
  { split; [exact Hrpar|]. exists oid, items, (fs ++ [SForkPipe f]).
    unfold cr4. simpl. rewrite Hrsteps. reflexivity. }
  assert (Hfresh5 : fresh_clone (world (PipeIterator_init w5 mp wk)) n cr4).
  { unfold fresh_clone. simpl. rewrite lookup_insert_eq. unfold cr4, set_steps. simpl.
    rewrite Hridx, Hrpar. reflexivity. }
  pose proof (fork_pipeline_resource env 998 [n; S n] yp cof n
                (PipeIterator_init w5 mp wk) cr4 Hfresh5 Hseq5
                ltac:(simpl; apply not_elem_of_nil)) as Hroot5.
  match type of Hroot5 with _ = (_, ?x) => set (s6 := x) in * end.
  assert (Hfirst : _fork_pipeline env recursion_limit [n; S n] yp cof (S n)
                     (PipeIterator_init w3 mp wk) = (Ok tt, s6)).
  { change recursion_limit with (S 999). cbn [_fork_pipeline].
    erewrite bind_ok by (apply in_world_get_pipe; exact Hct). rewrite Htpar.
    erewrite bind_ok
      by (apply in_world_run; apply (truth_parent _ _ _ Hcr)).
    rewrite (len_steps _ Hrne). cbn iota.
    erewrite bind_ok by (apply in_world_run; exact Hev).
    erewrite bind_ok by (apply in_world_run; exact Hfork1).
    erewrite bind_ok by exact Hfork2.
    exact Hroot5. }
  exists s6. split_and!.
  - cbn [for_each]. rewrite (bind_ok _ _ _ _ _ Hfirst).
    erewrite bind_ok; [reflexivity|]. change recursion_limit with (S 999).
    eapply (fork_pipeline_again env 999 [n; S n] yp cof n s6 _ _ _).
    + subst s6. simpl. apply lookup_insert_eq.
    + reflexivity.
    + reflexivity.
    + reflexivity.
    + subst s6. simpl. left.
  - reflexivity.
  - reflexivity.
  - subst s6. simpl. unfold head_items, cr4. simpl. rewrite Hrsteps. reflexivity.
  - subst s6. simpl. rewrite lookup_insert_eq. unfold head_items, cr4. simpl.
    rewrite Hrsteps. reflexivity.
  - subst s6. simpl. apply lookup_insert_eq.
  - intros b Hb. subst s6. simpl. rewrite !lookup_insert_ne by auto. reflexivity.
Qed.

(** The first part of [from_pipes]: the clones of a resource and of its
    transformer. *)
Lemma clone_pipes_pair fuel w (ar at_ : addr) pr pt :
  allocated w ->
  pipes w !! ar = Some pr -> parent pr = None -> _steps pr <> [] ->
  pipes w !! at_ = Some pt -> parent pt = Some ar ->
  exists w3,
    clone_pipes (S (S fuel)) [ar; at_] w = (Ok (Some [next_id w; S (next_id w)]), w3) /\
    pipes w3 !! next_id w = Some (mkPipe (name pr) 0 (_steps pr) (_pipe_id pr) None) /\
    pipes w3 !! S (next_id w)
    = Some (mkPipe (name pt) 0 (_steps pt) (_pipe_id pt) (Some (next_id w))) /\
    next_id w3 = S (S (next_id w)) /\ forks w3 = forks w /\
    forall b : addr, (b < next_id w)%nat -> pipes w3 !! b = pipes w !! b.
Proof.
  intros Halloc Hr Hrpar Hrne Ht Htpar.
  assert (Har : (ar < next_id w)%nat) by (apply Halloc; eauto).
  assert (Hat : (at_ < next_id w)%nat) by (apply Halloc; eauto).
  assert (Hne : ar <> at_) by (intros ->; congruence).
  set (n := next_id w) in *.
  set (w1 := cloned w pr).
  set (w2 := cloned w1 pt).
  assert (Ht1 : pipes w1 !! at_ = Some pt).
  { unfold w1. simpl. rewrite lookup_insert_ne by lia. exact Ht. }
  set (pairs := <[at_ := S n]> (<[ar := n]> (∅ : gmap addr addr))).
  set (ct := mkPipe (name pt) 0 (_steps pt) (_pipe_id pt) (parent pt)).
  set (w3 := with_pipe w2 (S n) (set_parent (Some n) ct)).
  assert (Hn2 : pipes w2 !! n = Some (mkPipe (name pr) 0 (_steps pr) (_pipe_id pr) None)).
  { unfold w2, w1. simpl. rewrite lookup_insert_ne by lia.
    rewrite lookup_insert_eq, Hrpar. reflexivity. }
  assert (Hsn2 : pipes w2 !! S n = Some ct) by apply lookup_insert_eq.
  assert (Har2 : pipes w2 !! ar = Some pr).
  { unfold w2, w1. simpl. rewrite !lookup_insert_ne by lia. exact Hr. }
  assert (Himg : ar ∉ (map_img pairs : gset addr)).
  { intros Hin. apply elem_of_map_img in Hin as [k Hk]. unfold pairs in Hk.
    apply lookup_insert_Some in Hk as [[_ Hk]|[_ Hk]]; [lia|].
    apply lookup_insert_Some in Hk as [[_ Hk]|[_ Hk]]; [lia|].
    rewrite lookup_empty in Hk. discriminate. }
  assert (Hpair : pairs !! ar = Some n).
  { unfold pairs. rewrite lookup_insert_ne by auto. apply lookup_insert_eq. }
  assert (Hwalk1 : clone_walk (S (S fuel)) pairs n w2 = (Ok (Some pairs), w2)).
  { apply (clone_walk_no_parent _ _ _ _ _ Hn2). reflexivity. }
  assert (Hwalk2 : clone_walk (S (S fuel)) pairs (S n) w2 = (Ok (Some pairs), w3)).
  { rewrite (clone_walk_turn (S fuel) pairs (S n) w2 ct ar pr Hsn2 Htpar Har2 Hrne Himg)
      by (unfold w2, w1; simpl; lia).
    rewrite Hpair. apply (clone_walk_no_parent fuel pairs n _
                            (mkPipe (name pr) 0 (_steps pr) (_pipe_id pr) None)).
    - unfold w3. simpl. rewrite lookup_insert_ne by lia. exact Hn2.
    - reflexivity. }
  exists w3. split_and!.
  - unfold clone_pipes.
    erewrite bind_ok.
    2:{ cbn [list_comp]. rewrite (bind_ok _ _ _ _ _ (clone_run w ar pr Hr)).
        erewrite bind_ok.
        2:{ rewrite (bind_ok _ _ _ _ _ (clone_run w1 at_ pt Ht1)). reflexivity. }
        reflexivity. }
    change (dict_of_pairs (zip [ar; at_] [next_id w; next_id w1])) with pairs.
    erewrite bind_ok.
    2:{ cbn [clone_fix_parents]. rewrite (bind_ok _ _ _ _ _ Hwalk1).
        change (next_id w1) with (S n). rewrite (bind_ok _ _ _ _ _ Hwalk2). reflexivity. }
    reflexivity.
  - unfold w3. simpl. rewrite lookup_insert_ne by lia. exact Hn2.
  - unfold w3. simpl. rewrite lookup_insert_eq. unfold ct, set_parent. reflexivity.
  - reflexivity.
  - reflexivity.
  - intros b Hb. unfold w3, w2, w1. simpl. rewrite !lookup_insert_ne by lia. reflexivity.
Qed.

(** X26. [from_pipes] on a resource whose head is a sequence and on a
    transformer of it whose first step binds [(item, meta=meta)] clones both
    and forks the clone of the resource: a fork step is appended to its
    steps, with an edge to the clone of the transformer that enters it before
    its first step and, when [yield_parents] is set, an edge back to the
    clone of the resource at its last step, the fork, so that the resource
    yields its items as well.  The only source is the head of the clone of
    the resource; the pipes given are left as they were. *)
Theorem from_pipes_forks_the_resource env fuel w (ar at_ : addr) pr pt oid items fs g ts
    yp mp wk cof :
  allocated w ->
  pipes w !! ar = Some pr -> parent pr = None ->
  _steps pr = SIterable oid items :: fs ->
  Forall (fun s => is_ForkPipe s = false) fs ->
  pipes w !! at_ = Some pt -> parent pt = Some ar ->
  _steps pt = g :: ts -> callable g = true -> bind_item_meta (signature g) = None ->
  exists it,
    from_pipes env (S (S fuel)) [ar; at_] yp mp wk cof w = (Ok (Some it), world it) /\
    _futures it = [] /\ max_parallel_items it = mp /\
    _sources it = [mkSourceItem (PyIterator items None) 0 (next_id w) None] /\
    pipes (world it) !! next_id w
    = Some (mkPipe (name pr) 0
              (SIterator (S (S (S (next_id w)))) (PyIterator items None)
               :: fs ++ [SForkPipe (S (S (next_id w)))])
              (_pipe_id pr) None) /\
    pipes (world it) !! S (next_id w)
    = Some (mkPipe (name pt) 0 (_steps pt) (_pipe_id pt) (Some (next_id w))) /\
    forks (world it) !! S (S (next_id w))
    = Some (mkForkPipe ((S (next_id w), -1)
                        :: (if yp then [(next_id w, len pr)] else [])) cof) /\
    forall b : addr, (b < next_id w)%nat -> pipes (world it) !! b = pipes w !! b.
Proof.
  intros Halloc Hr Hrpar Hrsteps Hnofork Ht Htpar Htsteps Hcall Hbind.
  assert (Hrne : _steps pr <> []) by (rewrite Hrsteps; discriminate).
  destruct (clone_pipes_pair fuel w ar at_ pr pt Halloc Hr Hrpar Hrne Ht Htpar)
    as (w3 & Hclone & Hn & Hsn & Hnext & Hforks & Hold).
  destruct (fork_pipeline_pair env (next_id w) w3 _ _ oid items fs g ts yp cof mp wk
              Hn eq_refl eq_refl Hrsteps
              ltac:(simpl; rewrite Hrsteps; constructor; [reflexivity|exact Hnofork])
              Hsn eq_refl eq_refl Htsteps Hcall Hbind)
    as (s' & Hrun & Hf & Hm & Hs & Hpn & Hfk & Hkeep).
  rewrite Hnext in *.
  exists s'. split_and!; auto.
  - unfold from_pipes. rewrite (bind_ok _ _ _ _ _ Hclone). cbv beta.
    match goal with |- context [for_each ?a ?b ?c] =>
      replace (for_each a b c) with (Ok tt, s') by (symmetry; exact Hrun) end.
    reflexivity.
  - rewrite Hkeep by lia. exact Hsn.
  - intros b Hb. rewrite Hkeep by lia. apply Hold, Hb.
Qed.

Lemma from_pipes_forks_the_resource_witness :
  exists it,
    from_pipes Ex.env 2 [100%nat; 101%nat] true 20 5 false Ex.transformer_world
      = (Ok (Some it), world it) /\
    _futures it = [] /\ max_parallel_items it = 20 /\
    _sources it = [mkSourceItem (PyIterator [PyData 2 1; PyData 3 2] None) 0 102 None] /\
    pipes (world it) !! 102%nat
    = Some (mkPipe "numbers" 0
              (SIterator 105 (PyIterator [PyData 2 1; PyData 3 2] None)
               :: [Ex.g_item_meta] ++ [SForkPipe 104])
              ("numbers", 100%nat) None) /\
    pipes (world it) !! 103%nat
    = Some (mkPipe "t" 0 [Ex.h_item_meta; Ex.g_item_meta] ("t", 101%nat) (Some 102%nat)) /\
    forks (world it) !! 104%nat
    = Some (mkForkPipe ((103%nat, -1) :: [(102%nat, 2)]) false) /\
    forall b : addr, (b < 102)%nat ->
      pipes (world it) !! b = pipes Ex.transformer_world !! b.
Proof.
  apply (from_pipes_forks_the_resource Ex.env 0 Ex.transformer_world 100 101
           Ex.resource Ex.transformer 1 [PyData 2 1; PyData 3 2] [Ex.g_item_meta]
           Ex.h_item_meta [Ex.g_item_meta] true 20 5 false
           transformer_world_allocated eq_refl eq_refl eq_refl
           ltac:(repeat constructor) eq_refl eq_refl eq_refl eq_refl eq_refl).
Defined.

(** ** From a resource to its transformer *)

Lemma through_plain env rest : forall item meta v m,
  through env rest item meta = Some (Some (v, m)) ->
  plain item = true -> plain v = true.
Proof.
  induction rest as [|step rest IH]; intros item meta v m H Hplain; simpl in H.
  - inversion H; subst. exact Hplain.
  - destruct step as [| |c| |]; try discriminate.
    destruct (bind_item_meta (c_params c)); [discriminate|].
    destruct (step_body env (c_code c) item (if c_drops_meta c then None else meta))
      as [r|e]; [|discriminate].
    destruct (is_None (fst (unwrap_meta r meta))); [discriminate|].
    destruct (plain (fst (unwrap_meta r meta))) eqn:Hp; [|discriminate].
    eapply IH; eauto.
Qed.

(** The item in hand goes through the steps [pre] that come next. *)
Lemma next_loop_prefix env pre : forall pi s p post,
  pipes (world s) !! pi_pipe pi = Some p ->
  -1 <= pi_step pi ->
  drop (Z.to_nat (pi_step pi + 1)) (_steps p) = pre ++ post -> post <> [] ->
  plain (pi_item pi) = true ->
  forall v m,
    through env pre (pi_item pi) (pi_meta pi) = Some (Some (v, m)) ->
    forall fuel,
      next_loop env (length pre + fuel) (Some pi) s
      = next_loop env fuel
          (Some (mkPipeItem v (pi_step pi + Z.of_nat (length pre)) (pi_pipe pi) m)) s.
Proof.
  induction pre as [|step pre IH]; intros pi s p post Hp Hk Hdrop Hpost Hplain v m Ht fuel.
  - simpl in Ht. inversion Ht; subst. simpl. rewrite Z.add_0_r. destruct pi; reflexivity.
  - simpl in Hdrop. destruct (getitem_drop _ _ _ _ Hk Hdrop) as (Hget & Hlen & Hrest).
    simpl in Ht. destruct step as [| |c| |]; try discriminate.
    destruct (bind_item_meta (c_params c)) eqn:Hbind; [discriminate|].
    destruct (step_body env (c_code c) (pi_item pi)
                (if c_drops_meta c then None else pi_meta pi)) as [r|e] eqn:Hbody;
      [|discriminate].
    assert (Hstep : pi_step pi <> len p - 1).
    { assert (Hl : (length (drop (Z.to_nat (pi_step pi + 1 + 1)) (_steps p)) > 0)%nat).
      { rewrite Hrest, length_app. destruct post; [congruence|simpl; lia]. }
      rewrite length_drop in Hl. unfold len. lia. }
    pose proof (process_item_advances env pi s p c r Hplain Hp Hstep Hget Hbind Hbody)
      as Hturn.
    destruct (is_None (fst (unwrap_meta r (pi_meta pi)))) eqn:Hnone; [discriminate|].
    destruct (plain (fst (unwrap_meta r (pi_meta pi)))) eqn:Hpl; [|discriminate].
    cbn [length Nat.add].
    rewrite (next_loop_turn env (length pre + fuel) _ s _ s)
      by (rewrite loop_body_in_hand; exact Hturn).
    cbv iota.
    rewrite (IH (mkPipeItem (fst (unwrap_meta r (pi_meta pi))) (pi_step pi + 1)
                   (pi_pipe pi) (snd (unwrap_meta r (pi_meta pi))))
               s p post Hp ltac:(simpl; lia) Hrest Hpost Hpl v m Ht fuel).
    cbn [pi_step pi_pipe]. do 3 f_equal. lia.
Qed.

(** X27. An item that a source gives to a pipe ending in a fork goes
    through the steps before the fork, each applied to what the one before
    returned, and is handed by the fork to the pipe of its first edge, where
    it goes through the steps after the entry step of the edge: [__next__]
    returns the outcome as an item of that pipe, at its last step.  The other
    edges of the fork wait, in their order, in a new source, which is the
    newest; no pipe and no fork is changed. *)
Theorem forked_item_reaches_the_child env s ss src x xs fin x0 k0 r m0 p mid f fk
    t kt more pt v m1 v2 m2 :
  _futures s = [] ->
  _sources s = ss ++ [src] -> si_item src = PyIterator (x :: xs) fin ->
  source_item src x = mkPipeItem x0 k0 r m0 ->
  plain x0 = true -> -1 <= k0 ->
  pipes (world s) !! r = Some p ->
  drop (Z.to_nat (k0 + 1)) (_steps p) = mid ++ [SForkPipe f] ->
  through env mid x0 m0 = Some (Some (v, m1)) ->
  forks (world s) !! f = Some fk -> _pipes fk = (t, kt) :: more ->
  pipes (world s) !! t = Some pt -> -1 <= kt < len pt ->
  through env (drop (Z.to_nat (kt + 1)) (_steps pt)) v m1 = Some (Some (v2, m2)) ->
  exists s' l,
    (forall fuel, (length mid + length (_steps pt) + 3 < fuel)%nat ->
       PipeIterator_next env fuel s
       = (Ok (Some (mkPipeItem v2 (len pt - 1) t m2)), s')) /\
    pipes (world s') = pipes (world s) /\ forks (world s') = forks (world s) /\
    _futures s' = [] /\
    _sources s' = ss ++ [advanced src xs fin;
                         mkSourceItem (PyIterator l None) (len p - 1) r m1] /\
    length l = length more /\
    forall i pipe step,
      more !! i = Some (pipe, step) ->
      exists it, l !! i = Some (ResolvablePipeItem it step pipe m1) /\
                 carried (copy_on_fork fk) (S i) v it (world s) (world s').
Proof.
  intros Hf Hs Hit Hsrc Hplain Hk0 Hp Hdrop Hmid Hfk Hedges Hpt Hkt Hchild.
  set (s1 := set_sources (ss ++ [advanced src xs fin]) s).
  assert (Hvplain : plain v = true) by (eapply through_plain; eauto).
  (* the fork *)
  destruct (fork_call_run (world s) f fk v m1 Hfk)
    as (lall & w' & Hrun & Hlen & Hpipes & Hforks & Hall).
  rewrite Hedges in Hlen, Hall.
  destruct (Hall 0%nat t kt eq_refl) as (it0 & Hl0 & Hc0).
  unfold carried in Hc0. simpl in Hc0. subst it0.
  destruct lall as [|y l]; [discriminate|]. simpl in Hl0. inversion Hl0; subst y.
  (* where the fork is *)
  assert (Hlenp : len p = k0 + Z.of_nat (length mid) + 2).
  { assert (Hl : length (drop (Z.to_nat (k0 + 1)) (_steps p)) = (length mid + 1)%nat).
    { rewrite Hdrop, length_app. reflexivity. }
    rewrite length_drop in Hl. unfold len. lia. }
  assert (Hgetf : getitem (_steps p) (k0 + Z.of_nat (length mid) + 1) = Ok (SForkPipe f)).
  { apply getitem_in_range. unfold in_range, norm_index.
    destruct (Z.ltb_spec (k0 + Z.of_nat (length mid) + 1) 0); [lia|].
    split.
    - apply andb_true_iff. unfold len in Hlenp.
      split; [apply Z.leb_le; lia|apply Z.ltb_lt; lia].
    - replace (Z.to_nat (k0 + Z.of_nat (length mid) + 1))
        with (Z.to_nat (k0 + 1) + length mid)%nat by lia.
      rewrite <- lookup_drop, Hdrop. apply list_lookup_middle. reflexivity. }
  set (s2 := set_sources (_sources s1 ++ [mkSourceItem (PyIterator l None) (len p - 1) r m1])
               (set_world w' s1)).
  exists s2, l. split_and!.
  - intros fuel Hfuel.
    destruct fuel as [|fuel]; [lia|]. unfold PipeIterator_next.
    rewrite (next_loop_takes_from_source env fuel s ss src x xs fin Hf Hs Hit), Hsrc.
    fold s1.
    replace (S fuel) with (length mid + (2 + (S (fuel - length mid - 2))))%nat by lia.
    rewrite (next_loop_prefix env mid (mkPipeItem x0 k0 r m0) s1 p [SForkPipe f]
               Hp Hk0 Hdrop ltac:(discriminate) Hplain v m1 Hmid).
    cbn [pi_step pi_pipe].
    rewrite (next_loop_at_fork env (mkPipeItem v (k0 + Z.of_nat (length mid)) r m1) s1 p f
               (ResolvablePipeItem v kt t m1 :: l) w' _ Hvplain Hp
               ltac:(cbn [pi_step]; lia)
               ltac:(cbn [pi_step]; exact Hgetf) Hrun).
    cbn [pi_step pi_pipe pi_meta].
    replace (k0 + Z.of_nat (length mid) + 1) with (len p - 1) by lia.
    rewrite (next_loop_takes_from_source env _
               (set_sources (_sources s1 ++ [mkSourceItem
                                              (PyIterator (ResolvablePipeItem v kt t m1 :: l) None)
                                              (len p - 1) r m1]) (set_world w' s1))
               (_sources s1)
               (mkSourceItem (PyIterator (ResolvablePipeItem v kt t m1 :: l) None)
                  (len p - 1) r m1)
               (ResolvablePipeItem v kt t m1) l None
               ltac:(simpl; exact Hf) eq_refl eq_refl).
    cbn [source_item].
    pose proof (next_loop_through env _ (mkPipeItem v kt t m1) s2 pt
                  ltac:(simpl; rewrite Hpipes; exact Hpt) (proj1 Hkt) eq_refl
                  (proj2 Hkt) Hvplain) as Hthrough.
    cbn [pi_item pi_meta pi_step pi_pipe] in Hthrough. rewrite Hchild in Hthrough.
    apply Hthrough. rewrite length_drop. lia.
  - simpl. exact Hpipes.
  - simpl. exact Hforks.
  - simpl. exact Hf.
  - simpl. rewrite <- app_assoc. reflexivity.
  - simpl in Hlen. lia.
  - intros i pipe step Hi. destruct (Hall (S i) pipe step Hi) as (it & Hli & Hci).
    exists it. split; [exact Hli|]. simpl. exact Hci.
Qed.

Lemma forked_item_reaches_the_child_witness :
  exists s' l,
    (forall fuel, (length [wrap_meta 13 Ex.f_item] + length [Ex.g_item_meta; wrap_meta 13 Ex.f_item] + 3 < fuel)%nat ->
       PipeIterator_next Ex.env fuel forked
       = (Ok (Some (mkPipeItem (PyData 2 100) (2 - 1) 101 None)), s')) /\
    pipes (world s') = pipes forked_world /\ forks (world s') = forks forked_world /\
    _futures s' = [] /\
    _sources s' = [] ++ [mkSourceItem (PyIterator [Ex.two] None) 0 100 None;
                         mkSourceItem (PyIterator l None) (3 - 1) 100 None] /\
    length l = 1%nat /\
    forall i pipe step,
      [(100%nat, 2)] !! i = Some (pipe, step) ->
      exists it, l !! i = Some (ResolvablePipeItem it step pipe None) /\
                 carried false (S i) (PyData 2 10) it forked_world (world s').
Proof.
  exact (forked_item_reaches_the_child Ex.env forked []
           (mkSourceItem (PyIterator [Ex.one; Ex.two] None) 0 100 None)
           Ex.one [Ex.two] None Ex.one 0 100%nat None
           (mkPipe "r" 0 [Ex.head_of [Ex.one; Ex.two]; wrap_meta 13 Ex.f_item; SForkPipe 50]
              ("r", 100%nat) None)
           [wrap_meta 13 Ex.f_item] 50%nat (mkForkPipe [(101%nat, -1); (100%nat, 2)] false)
           101%nat (-1) [(100%nat, 2)]
           (mkPipe "t" 0 [Ex.g_item_meta; wrap_meta 13 Ex.f_item] ("t", 101%nat) (Some 100%nat))
           (PyData 2 10) None (PyData 2 100) None
           eq_refl eq_refl eq_refl eq_refl eq_refl ltac:(lia) eq_refl eq_refl eq_refl
           eq_refl eq_refl eq_refl ltac:(unfold len; simpl; lia) eq_refl).
Defined.

(** ** Without a context manager *)

(** X28. With no context manager set, [ManagedPipeIterator.__next__]
    returns what [__next__] returns and leaves the iterator as [__next__]
    left it.  When [__next__] raises an instance of [Exception], it calls no
    [__exit__] and closes the iterator: when no generator among the sources
    raises from its [close], no future, no source and no pool is left and the
    same exception is raised; otherwise the exception of that [close] is
    raised instead, with no future left but the sources and the pools still
    there.  An exception that is not an instance of [Exception] passes
    through with nothing closed. *)
Theorem managed_next_without_context env fuel s r s' :
  _context_manager s = None ->
  PipeIterator_next env fuel s = (r, s') ->
  match r with
  | Ok x => ManagedPipeIterator_next env fuel s = (Ok x, s')
  | Raise e =>
      if is_Exception e then
        exists s'',
          exits s'' = exits s /\ world s'' = world s' /\ _futures s'' = [] /\
          match close_generators env (_sources s') with
          | (Ok _, _) =>
              ManagedPipeIterator_next env fuel s = (Raise e, s'') /\
              _sources s'' = [] /\ _async_pool s'' = false /\ _thread_pool s'' = false
          | (Raise e', l) =>
              ManagedPipeIterator_next env fuel s = (Raise e', s'') /\
              _sources s'' = l /\
              _async_pool s'' = _async_pool s' /\ _thread_pool s'' = _thread_pool s'
          end
      else ManagedPipeIterator_next env fuel s = (Raise e, s')
  end.
Proof.
  intros Hctx Hrun. destruct r as [x|e].
  - unfold ManagedPipeIterator_next, try_except. rewrite Hrun. reflexivity.
  - pose proof (next_loop_frame env fuel None s _ s' Hrun) as (_ & Hc & He & _).
    unfold ManagedPipeIterator_next, try_except. rewrite Hrun.
    destruct (is_Exception e); [|reflexivity].
    unfold close. munfold. rewrite Hc, Hctx. simpl.
    destruct (close_generators env (_sources s')) as [[[]|e'] l]; simpl;
      (eexists; split_and!; [| | |reflexivity|reflexivity|reflexivity|reflexivity]);
      simpl; try reflexivity; exact He.
Qed.

Lemma managed_next_without_context_witness :
  exists s'',
    ManagedPipeIterator_next Ex.env 10 (Ex.running [Ex.one; PyData 9 5] [Ex.fail] 20)
    = (Raise (UserError 3), s'') /\
    exits s'' = [] /\ _futures s'' = [] /\
    _sources s'' = [mkSourceItem (PyIterator [] None) 0 100 None].
Proof.
  pose proof (managed_next_without_context Ex.env 10
                (Ex.running [Ex.one; PyData 9 5] [Ex.fail] 20) (Raise (UserError 1))
                (snd (PipeIterator_next Ex.env 10
                        (Ex.running [Ex.one; PyData 9 5] [Ex.fail] 20)))
                eq_refl ltac:(vm_compute; reflexivity)) as H.
  cbv beta iota in H. change (is_Exception (UserError 1)) with true in H.
  destruct H as (s'' & He & _ & Hf & H).
  change (close_generators Ex.env
            (_sources (snd (PipeIterator_next Ex.env 10
                              (Ex.running [Ex.one; PyData 9 5] [Ex.fail] 20)))))
    with (@Raise unit (UserError 3), [mkSourceItem (PyIterator [] None) 0 100 None]) in H.
  destruct H as (Hm & Hs & _).
  exists s''. split_and!; assumption.
Defined.
